(** * Asset containers: instantiating, adding and removing scene assets

    A shallow embedding of [AssetContainer] (the class that buffers a subset
    of a scene's entities) and of the two operations the specification talks
    about: [instantiateModelsToScene], the hierarchy clone-and-remap pass, and
    the pair [addAllToScene] / [removeAllFromScene].

    Conventions of the embedding.
    - An engine object is designated by the number the scene handed out when
      the object was created ([Scene.getUniqueId]); a reference to an object
      and the object's [uniqueId] are the same number.  The objects
      themselves live in per-class stores of the scene, finite maps from
      that number to a record of the fields the container code reads or
      writes.
    - A JavaScript object used as a dictionary ([convertionMap], [storeMap])
      is a [gmap]; reading a missing key gives [None] ([undefined]).
    - A [TypeError] raised by the JavaScript code is the outcome
      [TypeError]; the closure variables of the pass are an explicit record
      threaded through the loops.
    - The recursion of a hierarchy clone follows the scene graph, so it is
      given fuel; [OutOfFuel] is the outcome of a run that exhausts it, which
      no run in a well-formed scene does. *)

From stdpp Require Import gmap strings list fin_maps.

(** ** Outcomes of a run *)

Inductive outcome (A : Type) : Type :=
  | Ok (a : A)
  | TypeError
  | OutOfFuel.
Arguments Ok {A} a.
Arguments TypeError {A}.
Arguments OutOfFuel {A}.

#[global] Instance outcome_ret : MRet outcome := λ A a, Ok a.
#[global] Instance outcome_bind : MBind outcome := λ A B f m,
  match m with
  | Ok a => f a
  | TypeError => TypeError
  | OutOfFuel => OutOfFuel
  end.

(** [forEach body l] runs [body] on the elements of [l] in order, threading
    the state: [Array.prototype.forEach] and [for ... of] over an array that
    the body does not resize. *)
Fixpoint forEach {A S : Type} (body : A → S → outcome S) (l : list A) (s : S)
  : outcome S :=
  match l with
  | [] => Ok s
  | x :: l' => s' ← body x s; forEach body l' s'
  end.

(** ** Engine objects *)

(** The fields of [TransformNode] and of its subclass [Mesh] that the
    container reads or writes.  [isMesh] is [instanceof Mesh]. *)
Record TransformNode := mkTransformNode {
  node_name : string;
  parent : option nat;
  isMesh : bool;
  morphTargetManager : option nat;
  skeleton : option nat;
  isAnInstance : bool
}.

Record Bone := mkBone {
  _linkedTransformNode : option nat
}.

Record Skeleton := mkSkeleton {
  skeleton_name : string;
  overrideMesh : option nat;
  bones : list Bone
}.

(** A targeted animation is a pair of an animation and the object it
    drives. *)
Record AnimationGroup := mkAnimationGroup {
  group_name : string;
  targetedAnimations : list (nat * nat)
}.

#[global] Instance TransformNode_inhabited : Inhabited TransformNode :=
  populate (mkTransformNode "" None false None None false).
#[global] Instance Skeleton_inhabited : Inhabited Skeleton :=
  populate (mkSkeleton "" None []).
#[global] Instance AnimationGroup_inhabited : Inhabited AnimationGroup :=
  populate (mkAnimationGroup "" []).

(** ** [AbstractScene]: the asset arrays shared by scenes and containers *)

Inductive AssetKind :=
  | Cameras | Lights | Meshes | Skeletons | Animations | AnimationGroups
  | MultiMaterials | Materials | MorphTargetManagers | Geometries
  | TransformNodes | ActionManagers | Textures | ReflectionProbes.

#[global] Instance AssetKind_eq_dec : EqDecision AssetKind.
Proof. solve_decision. Defined.

(** [componentAssets] holds the arrays that scene components attach by name
    ([this["sounds"]], [this["layers"]], ...). *)
Record AbstractScene := mkAbstractScene {
  collection : AssetKind → list nat;
  environmentTexture : option nat;
  componentAssets : gmap string (list nat)
}.

Definition transformNodes (a : AbstractScene) : list nat := collection a TransformNodes.
Definition meshes (a : AbstractScene) : list nat := collection a Meshes.
Definition skeletons (a : AbstractScene) : list nat := collection a Skeletons.
Definition animationGroups (a : AbstractScene) : list nat := collection a AnimationGroups.

(** A serializable scene component moves the arrays it owns between a
    container and the scene. *)
Record SceneComponent := mkSceneComponent {
  addFromContainer : AbstractScene → gmap string (list nat) → gmap string (list nat);
  removeFromContainer : AbstractScene → gmap string (list nat) → gmap string (list nat)
}.

(** ** The scene *)

Record Scene := mkScene {
  uniqueIdCounter : nat;
  nodeStore : gmap nat TransformNode;
  managerStore : gmap nat (list nat);
  skeletonStore : gmap nat Skeleton;
  groupStore : gmap nat AnimationGroup;
  assets : AbstractScene;
  _serializableComponents : list SceneComponent
}.

Definition set_uniqueIdCounter (n : nat) (s : Scene) : Scene :=
  mkScene n (nodeStore s) (managerStore s) (skeletonStore s) (groupStore s)
          (assets s) (_serializableComponents s).
Definition set_nodeStore (m : gmap nat TransformNode) (s : Scene) : Scene :=
  mkScene (uniqueIdCounter s) m (managerStore s) (skeletonStore s) (groupStore s)
          (assets s) (_serializableComponents s).
Definition set_managerStore (m : gmap nat (list nat)) (s : Scene) : Scene :=
  mkScene (uniqueIdCounter s) (nodeStore s) m (skeletonStore s) (groupStore s)
          (assets s) (_serializableComponents s).
Definition set_skeletonStore (m : gmap nat Skeleton) (s : Scene) : Scene :=
  mkScene (uniqueIdCounter s) (nodeStore s) (managerStore s) m (groupStore s)
          (assets s) (_serializableComponents s).
Definition set_groupStore (m : gmap nat AnimationGroup) (s : Scene) : Scene :=
  mkScene (uniqueIdCounter s) (nodeStore s) (managerStore s) (skeletonStore s) m
          (assets s) (_serializableComponents s).
Definition set_assets (a : AbstractScene) (s : Scene) : Scene :=
  mkScene (uniqueIdCounter s) (nodeStore s) (managerStore s) (skeletonStore s)
          (groupStore s) a (_serializableComponents s).

(** Reading an object through a reference.  A reference that designates no
    object of the store reads as the default object; scenes built by the
    engine have no such reference. *)
Definition getNode (s : Scene) (id : nat) : TransformNode := nodeStore s !!! id.
Definition getTargets (s : Scene) (m : nat) : list nat := managerStore s !!! m.
Definition getSkeleton (s : Scene) (r : nat) : Skeleton := skeletonStore s !!! r.
Definition getAnimationGroup (s : Scene) (r : nat) : AnimationGroup := groupStore s !!! r.

Definition setNode (id : nat) (n : TransformNode) (s : Scene) : Scene :=
  set_nodeStore (<[id := n]> (nodeStore s)) s.
Definition setSkeleton (r : nat) (k : Skeleton) (s : Scene) : Scene :=
  set_skeletonStore (<[r := k]> (skeletonStore s)) s.

(** ** Engine primitives used by the pass *)

(** The engine methods below create objects in the stores of the scene.
    That the engine also pushes a new object on the scene's asset array of
    its kind is left out: the pass never reads those arrays. *)

(** Modelled from the spec: [Node.getChildTransformNodes(true)] is not in
    the sources.  The direct children of [p] are the nodes of the scene
    whose parent is [p], in creation order. *)
Definition getChildTransformNodes (p : nat) (s : Scene) : list nat :=
  filter (λ i, parent <$> nodeStore s !! i = Some (Some p))
         (seq 0 (uniqueIdCounter s)).

(** Modelled from the spec: [TransformNode.clone] / [Mesh.clone] are not in
    the sources.  The clone is a new object with the next unique id, placed
    under [newParent || this.parent]; it shares the source's heavy data, so
    it starts with the source's morph-target manager and skeleton. *)
Definition cloneNode (name : string) (src : nat) (newParent : option nat)
    (s : Scene) : nat * Scene :=
  let n := getNode s src in
  let id := uniqueIdCounter s in
  let c := mkTransformNode name
             (match newParent with Some q => Some q | None => parent n end)
             (isMesh n) (morphTargetManager n) (skeleton n) (isAnInstance n) in
  (id, setNode id c (set_uniqueIdCounter (S id) s)).

(** Modelled from the spec: [MorphTargetManager.clone] is not in the
    sources.  The copy is a new manager holding one new target per target of
    the original, each with a unique id of its own, drawn from the scene
    like every other identifier. *)
Definition MorphTargetManager_clone (m : nat) (s : Scene) : nat * Scene :=
  let ts := getTargets s m in
  let id := uniqueIdCounter s in
  let new := seq (S id) (length ts) in
  (id, set_managerStore (<[id := new]> (managerStore s))
         (set_uniqueIdCounter (S id + length ts) s)).

(** Modelled from the spec: [Skeleton.clone] is not in the sources.  The
    clone is a new skeleton with the given name and a copy of every bone;
    a copied bone is linked to the transform node its original is linked
    to.  The override mesh is not copied. *)
Definition Skeleton_clone (name : string) (src : nat) (s : Scene) : nat * Scene :=
  let k := getSkeleton s src in
  let id := uniqueIdCounter s in
  (id, setSkeleton id (mkSkeleton name None (bones k))
         (set_uniqueIdCounter (S id) s)).

(** Modelled from the spec: [AnimationGroup.clone] is not in the sources.
    The clone is a new group with the given name; [targetConverter] is
    called once per targeted animation of the original, on its target. *)
Definition AnimationGroup_clone (newName : string) (targetConverter : nat → nat)
    (src : nat) (s : Scene) : nat * Scene :=
  let g := getAnimationGroup s src in
  let id := uniqueIdCounter s in
  let c := mkAnimationGroup newName
             ((λ ta, (ta.1, targetConverter ta.2)) <$> targetedAnimations g) in
  (id, set_groupStore (<[id := c]> (groupStore s)) (set_uniqueIdCounter (S id) s)).

(** ** [InstantiatedEntries] and the state of one pass *)

Module InstantiatedEntries.
Record t := mk {
  rootNodes : list nat;
  skeletons : list nat;
  animationGroups : list nat
}.
Definition empty : t := mk [] [] [].
Definition push_rootNode (x : nat) (r : t) : t :=
  mk (rootNodes r ++ [x]) (skeletons r) (animationGroups r).
Definition push_skeleton (x : nat) (r : t) : t :=
  mk (rootNodes r) (skeletons r ++ [x]) (animationGroups r).
Definition push_animationGroup (x : nat) (r : t) : t :=
  mk (rootNodes r) (skeletons r) (animationGroups r ++ [x]).
End InstantiatedEntries.

(** The variables captured by the closures of [instantiateModelsToScene],
    together with the scene the clones are created in. *)
Record Pass := mkPass {
  scene : Scene;
  convertionMap : gmap nat nat;
  storeMap : gmap nat nat;
  result : InstantiatedEntries.t;
  alreadySwapped : list nat
}.

Definition set_scene (s : Scene) (p : Pass) : Pass :=
  mkPass s (convertionMap p) (storeMap p) (result p) (alreadySwapped p).
Definition set_result (r : InstantiatedEntries.t) (p : Pass) : Pass :=
  mkPass (scene p) (convertionMap p) (storeMap p) r (alreadySwapped p).
Definition set_alreadySwapped (l : list nat) (p : Pass) : Pass :=
  mkPass (scene p) (convertionMap p) (storeMap p) (result p) l.

(** [convertionMap[source] = clone; storeMap[clone] = cloneObject]. *)
Definition record (source clone : nat) (p : Pass) : Pass :=
  mkPass (scene p) (<[source := clone]> (convertionMap p))
         (<[clone := clone]> (storeMap p)) (result p) (alreadySwapped p).

(** [storeMap[convertionMap[id]]]: [undefined] when either lookup misses. *)
Definition lookupClone (p : Pass) (id : nat) : option nat :=
  convertionMap p !! id ≫= λ c, storeMap p !! c.

(** ** [instantiateModelsToScene] *)

(** One turn of the loop over the morph target indices.  [getTarget(index)]
    out of range is [undefined], and reading its [uniqueId] raises. *)
Definition registerTarget (old new : list nat) (index : nat) (p : Pass)
  : outcome Pass :=
  match old !! index, new !! index with
  | Some oldTarget, Some newTarget => Ok (record oldTarget newTarget p)
  | _, _ => TypeError
  end.

(** The closure [onClone].  [(source as Mesh).morphTargetManager!] is read
    when the clone has a manager; should the source have none, calling
    [clone()] on it raises. *)
Definition onClone (source clone : nat) (p : Pass) : outcome Pass :=
  let p := record source clone p in
  let clonedMesh := getNode (scene p) clone in
  if isMesh clonedMesh then
    match morphTargetManager clonedMesh with
    | Some _ =>
        match morphTargetManager (getNode (scene p) source) with
        | None => TypeError
        | Some oldMorphTargetManager =>
            let '(newManager, s1) :=
              MorphTargetManager_clone oldMorphTargetManager (scene p) in
            let s2 :=
              setNode clone
                (mkTransformNode (node_name clonedMesh) (parent clonedMesh)
                   (isMesh clonedMesh) (Some newManager) (skeleton clonedMesh)
                   (isAnInstance clonedMesh)) s1 in
            let old := getTargets s2 oldMorphTargetManager in
            let new := getTargets s2 newManager in
            forEach (registerTarget old new) (seq 0 (length old)) (set_scene s2 p)
        end
    | None => Ok p
    end
  else Ok p.

(** Modelled from the spec: [instantiateHierarchy] is not in the sources.
    It clones the receiver under [newParent], reports the pair
    (source, clone) to [onNewNodeCreated], then instantiates every direct
    child under the clone, and returns the clone.  The recursion follows the
    scene graph, so the embedding is given fuel. *)
Fixpoint instantiateHierarchy (fuel : nat) (src : nat) (newParent : option nat)
    (onNewNodeCreated : nat → nat → Pass → outcome Pass) (p : Pass)
  : outcome (option nat * Pass) :=
  match fuel with
  | 0 => OutOfFuel
  | S fuel' =>
      let '(clone, s1) :=
        cloneNode ("Clone of " +:+ node_name (getNode (scene p) src))
                  src newParent (scene p) in
      p1 ← onNewNodeCreated src clone (set_scene s1 p);
      p2 ← forEach
             (λ child q,
                '(_, q') ← instantiateHierarchy fuel' child (Some clone)
                             onNewNodeCreated q;
                Ok q')
             (getChildTransformNodes src (scene p1)) p1;
      Ok (Some clone, p2)
  end.

(** Body of [this.transformNodes.forEach] and of [this.meshes.forEach].  The
    hierarchy below a node of a scene is never deeper than the number of
    identifiers the scene has handed out, which is the fuel given. *)
Definition instantiateRoot (o : nat) (p : Pass) : outcome Pass :=
  match parent (getNode (scene p) o) with
  | None =>
      '(newOne, p1) ← instantiateHierarchy (uniqueIdCounter (scene p)) o None
                        (λ source clone, onClone source clone) p;
      match newOne with
      | Some n => Ok (set_result (InstantiatedEntries.push_rootNode n (result p1)) p1)
      | None => Ok p1
      end
  | Some _ => Ok p
  end.

(** The loop over the bones of a cloned skeleton. *)
Definition swapBone (p : Pass) (bone : Bone) : Bone :=
  match _linkedTransformNode bone with
  | Some n => mkBone (lookupClone p n)
  | None => bone
  end.

Definition swapBones (clone : nat) (p : Pass) : Pass :=
  let k := getSkeleton (scene p) clone in
  set_scene
    (setSkeleton clone
       (mkSkeleton (skeleton_name k) (overrideMesh k) (swapBone p <$> bones k))
       (scene p)) p.

(** Body of [for (var m of this.meshes)] for the skeleton [s] and its
    [clone].  When the tables have no clone for [m], [copy] is [undefined] and
    the assignment [copy.skeleton = clone] raises. *)
Definition bindMesh (s clone : nat) (m : nat) (p : Pass) : outcome Pass :=
  let mesh := getNode (scene p) m in
  if bool_decide (skeleton mesh = Some s) && negb (isAnInstance mesh) then
    match lookupClone p m with
    | None => TypeError
    | Some copy =>
        let c := getNode (scene p) copy in
        let p1 :=
          set_scene
            (setNode copy
               (mkTransformNode (node_name c) (parent c) (isMesh c)
                  (morphTargetManager c) (Some clone) (isAnInstance c))
               (scene p)) p in
        if bool_decide (clone ∈ alreadySwapped p1) then Ok p1
        else Ok (swapBones clone (set_alreadySwapped (alreadySwapped p1 ++ [clone]) p1))
    end
  else Ok p.

(** Body of [this.skeletons.forEach]. *)
Definition instantiateSkeleton (container : AbstractScene) (s : nat) (p : Pass)
  : outcome Pass :=
  let k := getSkeleton (scene p) s in
  let '(clone, s1) := Skeleton_clone ("Clone of " +:+ skeleton_name k) s (scene p) in
  let p1 := set_scene s1 p in
  let p2 :=
    match overrideMesh k with
    | Some om =>
        let ck := getSkeleton (scene p1) clone in
        set_scene
          (setSkeleton clone
             (mkSkeleton (skeleton_name ck) (lookupClone p1 om) (bones ck))
             (scene p1)) p1
    | None => p1
    end in
  p3 ← forEach (bindMesh s clone) (meshes container) p2;
  Ok (set_result (InstantiatedEntries.push_skeleton clone (result p3)) p3).

(** The converter handed to [AnimationGroup.clone]:
    [newTarget || oldTarget]. *)
Definition targetConverter (p : Pass) (oldTarget : nat) : nat :=
  match lookupClone p oldTarget with
  | Some newTarget => newTarget
  | None => oldTarget
  end.

(** Body of [this.animationGroups.forEach]. *)
Definition instantiateAnimationGroup (o : nat) (p : Pass) : outcome Pass :=
  let '(clone, s1) :=
    AnimationGroup_clone (group_name (getAnimationGroup (scene p) o))
                         (targetConverter p) o (scene p) in
  Ok (set_result (InstantiatedEntries.push_animationGroup clone (result p))
        (set_scene s1 p)).

Definition initialPass (s : Scene) : Pass :=
  mkPass s ∅ ∅ InstantiatedEntries.empty [].

(** The four loops of [instantiateModelsToScene], on the whole state of the
    pass. *)
Definition nodePhase (container : AbstractScene) (p : Pass) : outcome Pass :=
  p1 ← forEach instantiateRoot (transformNodes container) p;
  forEach instantiateRoot (meshes container) p1.

Definition instantiatePass (container : AbstractScene) (s : Scene) : outcome Pass :=
  p2 ← nodePhase container (initialPass s);
  p3 ← forEach (instantiateSkeleton container) (skeletons container) p2;
  forEach instantiateAnimationGroup (animationGroups container) p3.

Definition instantiateModelsToScene (container : AbstractScene) (s : Scene)
  : outcome (InstantiatedEntries.t * Scene) :=
  p ← instantiatePass container s;
  Ok (result p, scene p).

(** ** [addAllToScene] and [removeAllFromScene] *)

(** The methods [Scene.addCamera], [Scene.removeCamera], [Scene.addMesh], ...
    are not in the sources.  They are taken as an interface: for every kind
    of asset, how an asset is added to and removed from the scene's array of
    that kind. *)
Class SceneArrays := {
  addToScene : AssetKind → nat → list nat → list nat;
  removeFromScene : AssetKind → nat → list nat → list nat
}.

(** What the container relies on: adding puts one more occurrence of the
    asset in the array, removing takes one occurrence out when there is
    one.  The order inside the array is
    left open (an engine may splice, or swap with the last element). *)
Class SceneArraysLaws (ops : SceneArrays) : Prop := {
  addToScene_perm : ∀ k o l, addToScene k o l ≡ₚ o :: l;
  removeFromScene_elem : ∀ k o l, o ∈ l → o :: removeFromScene k o l ≡ₚ l
}.

(** [indexOf] followed by [splice(index, 1)]. *)
Fixpoint spliceFirst (o : nat) (l : list nat) : list nat :=
  match l with
  | [] => []
  | x :: l' => if decide (x = o) then l' else x :: spliceFirst o l'
  end.

(** Arrays kept with [push] and [indexOf]/[splice]. *)
Definition pushSplice : SceneArrays :=
  {| addToScene := λ _ o l, l ++ [o];
     removeFromScene := λ _ o l, spliceFirst o l |}.

Definition updCollection (k : AssetKind) (f : list nat → list nat)
    (a : AbstractScene) : AbstractScene :=
  mkAbstractScene
    (λ k', if decide (k' = k) then f (collection a k') else collection a k')
    (environmentTexture a) (componentAssets a).
Definition set_environmentTexture (t : option nat) (a : AbstractScene)
  : AbstractScene :=
  mkAbstractScene (collection a) t (componentAssets a).
Definition set_componentAssets (m : gmap string (list nat)) (a : AbstractScene)
  : AbstractScene :=
  mkAbstractScene (collection a) (environmentTexture a) m.

(** The order in which the two methods walk the container's arrays. *)
Definition assetKinds : list AssetKind :=
  [Cameras; Lights; Meshes; Skeletons; Animations; AnimationGroups;
   MultiMaterials; Materials; MorphTargetManagers; Geometries;
   TransformNodes; ActionManagers; Textures; ReflectionProbes].

Section AddRemove.
Context {ops : SceneArrays}.

(** [this.scene.addX(o)] for the array of kind [k]. *)
Definition sceneAdd (k : AssetKind) (s : Scene) (o : nat) : Scene :=
  set_assets (updCollection k (addToScene k o) (assets s)) s.
Definition sceneRemove (k : AssetKind) (s : Scene) (o : nat) : Scene :=
  set_assets (updCollection k (removeFromScene k o) (assets s)) s.

Definition addAllToScene (container : AbstractScene) (s : Scene) : Scene :=
  let s1 :=
    foldl (λ s k, foldl (sceneAdd k) s (collection container k)) s assetKinds in
  let s2 :=
    match environmentTexture container with
    | Some t => set_assets (set_environmentTexture (Some t) (assets s1)) s1
    | None => s1
    end in
  foldl
    (λ s component,
       set_assets
         (set_componentAssets
            (addFromContainer component container (componentAssets (assets s)))
            (assets s)) s)
    s2 (_serializableComponents s2).

Definition removeAllFromScene (container : AbstractScene) (s : Scene) : Scene :=
  let s1 :=
    foldl (λ s k, foldl (sceneRemove k) s (collection container k)) s assetKinds in
  let s2 :=
    if decide (environmentTexture container = environmentTexture (assets s1))
    then set_assets (set_environmentTexture None (assets s1)) s1
    else s1 in
  foldl
    (λ s component,
       set_assets
         (set_componentAssets
            (removeFromContainer component container (componentAssets (assets s)))
            (assets s)) s)
    s2 (_serializableComponents s2).
End AddRemove.

(** ** Well-formed scenes and containers *)

(** Every object of the scene, and every identifier the scene's objects
    mention as a morph target or a morph-target manager, was handed out by
    the scene's counter. *)
Definition wf_node (C : nat) (n : TransformNode) : Prop :=
  match morphTargetManager n with
  | Some m => m < C
  | None => True
  end.

Definition wf_scene (s : Scene) : Prop :=
  let C := uniqueIdCounter s in
  map_Forall (λ i n, i < C ∧ wf_node C n) (nodeStore s)
  ∧ map_Forall (λ m ts, m < C ∧ Forall (λ t, t < C) ts) (managerStore s)
  ∧ map_Forall (λ r (_ : Skeleton), r < C) (skeletonStore s)
  ∧ map_Forall (λ r (_ : AnimationGroup), r < C) (groupStore s).

(** The references held by a container designate objects of the scene. *)
Definition wf_container (c : AbstractScene) (s : Scene) : Prop :=
  Forall (λ o, is_Some (nodeStore s !! o)) (transformNodes c ++ meshes c)
  ∧ Forall (λ r, is_Some (skeletonStore s !! r)) (skeletons c)
  ∧ Forall (λ r, is_Some (groupStore s !! r)) (animationGroups c).

#[global] Instance wf_node_dec C n : Decision (wf_node C n).
Proof. unfold wf_node. destruct (morphTargetManager n); apply _. Defined.
#[global] Instance wf_scene_dec s : Decision (wf_scene s).
Proof. unfold wf_scene. apply _. Defined.
#[global] Instance wf_container_dec c s : Decision (wf_container c s).
Proof. unfold wf_container. apply _. Defined.

(** ** Chains of parents *)

(** [nth_parent s d i] is the [d]-th ancestor of the node [i]. *)
Fixpoint nth_parent (s : Scene) (d : nat) (i : nat) : option nat :=
  match d with
  | 0 => Some i
  | S d' =>
      match nodeStore s !! i with
      | Some n =>
          match parent n with
          | Some q => nth_parent s d' q
          | None => None
          end
      | None => None
      end
  end.

(** ** The invariant of a pass *)

(** The Translation Table maps to clones: objects created during the pass
    (identifiers from [K] on, below [b]), each held by the Clone Store under
    its own identifier. *)
Definition table_ok (K b : nat) (cm st : gmap nat nat) : Prop :=
  ∀ k v, cm !! k = Some v → K ≤ v ∧ v < b ∧ st !! v = Some v.

Definition injective (cm : gmap nat nat) : Prop :=
  ∀ k k' v, cm !! k = Some v → cm !! k' = Some v → k = k'.

(** The fields of a node that nothing in the pass assigns. *)
Definition node_stable (s s' : Scene) : Prop :=
  ∀ i n, nodeStore s !! i = Some n →
    ∃ n', nodeStore s' !! i = Some n' ∧ parent n' = parent n
          ∧ node_name n' = node_name n ∧ isMesh n' = isMesh n
          ∧ isAnInstance n' = isAnInstance n.

(** What holds of the state of a pass started in the scene [s0]. *)
Record inv (s0 : Scene) (p : Pass) : Prop := mkInv {
  inv_counter : uniqueIdCounter s0 ≤ uniqueIdCounter (scene p);
  inv_wf : wf_scene (scene p);
  inv_table :
    table_ok (uniqueIdCounter s0) (uniqueIdCounter (scene p))
             (convertionMap p) (storeMap p);
  inv_inj : injective (convertionMap p);
  inv_old_nodes :
    ∀ i, i < uniqueIdCounter s0 → nodeStore (scene p) !! i = nodeStore s0 !! i;
  inv_old_skeletons :
    ∀ i, i < uniqueIdCounter s0 →
      skeletonStore (scene p) !! i = skeletonStore s0 !! i;
  inv_old_groups :
    ∀ i, i < uniqueIdCounter s0 → groupStore (scene p) !! i = groupStore s0 !! i;
  inv_parents :
    ∀ i n q, nodeStore (scene p) !! i = Some n → uniqueIdCounter s0 ≤ i →
      parent n = Some q → uniqueIdCounter s0 ≤ q
}.

(** The pairs written by the loop over the morph targets. *)
Definition recordAll (pairs : list (nat * nat)) (p : Pass) : Pass :=
  foldl (λ q on, record on.1 on.2 q) p pairs.

(** The scene after the manager of [clone] has been replaced by a copy of
    [oldManager]. *)
Definition withClonedManager (clone oldManager : nat) (s : Scene) : Scene :=
  let clonedMesh := getNode s clone in
  let '(newManager, s1) := MorphTargetManager_clone oldManager s in
  setNode clone
    (mkTransformNode (node_name clonedMesh) (parent clonedMesh) (isMesh clonedMesh)
       (Some newManager) (skeleton clonedMesh) (isAnInstance clonedMesh)) s1.

(** What the node phase leaves alone. *)
Definition node_frame (p p' : Pass) : Prop :=
  uniqueIdCounter (scene p) ≤ uniqueIdCounter (scene p')
  ∧ node_stable (scene p) (scene p')
  ∧ skeletonStore (scene p') = skeletonStore (scene p)
  ∧ groupStore (scene p') = groupStore (scene p)
  ∧ result p' = result p
  ∧ alreadySwapped p' = alreadySwapped p
  ∧ (∀ k, is_Some (convertionMap p !! k) → is_Some (convertionMap p' !! k)).

(** ** Vocabulary of the statements *)

(** [cl] is, in the scene [s'], a hierarchy clone made from the node [o] of
    the scene [s]: a node that [s] did not have, without a parent, of the
    kind of [o] and named after it. *)
Definition rootClone (s s' : Scene) (o cl : nat) : Prop :=
  uniqueIdCounter s ≤ cl
  ∧ ∃ n, nodeStore s' !! cl = Some n
      ∧ parent n = None
      ∧ node_name n = "Clone of " +:+ node_name (getNode s o)
      ∧ isMesh n = isMesh (getNode s o).

(** The entries of a container array that have no parent. *)
Definition parentless (s : Scene) (l : list nat) : list nat :=
  filter (λ o, parent (getNode s o) = None) l.

(** What the node phase has built when it has walked the entries [done] of
    the two arrays. *)
Definition nodePhase_post (s0 : Scene) (done : list nat) (p : Pass) : Prop :=
  inv s0 p
  ∧ skeletonStore (scene p) = skeletonStore s0
  ∧ groupStore (scene p) = groupStore s0
  ∧ alreadySwapped p = []
  ∧ InstantiatedEntries.skeletons (result p) = []
  ∧ InstantiatedEntries.animationGroups (result p) = []
  ∧ Forall2 (rootClone s0 (scene p)) (parentless s0 done)
            (InstantiatedEntries.rootNodes (result p))
  ∧ Forall (λ cl, cl < uniqueIdCounter (scene p))
           (InstantiatedEntries.rootNodes (result p))
  ∧ NoDup (InstantiatedEntries.rootNodes (result p))
  ∧ (∀ o, o ∈ parentless s0 done → is_Some (convertionMap p !! o)).

(** [m] is a mesh of the scene [s0] bound to the skeleton [sk] and not an
    instanced copy: the test of the loop over [this.meshes]. *)
Definition boundTo (s0 : Scene) (sk m : nat) : Prop :=
  skeleton (getNode s0 m) = Some sk ∧ isAnInstance (getNode s0 m) = false.

#[global] Instance boundTo_dec s0 sk m : Decision (boundTo s0 sk m).
Proof. unfold boundTo. apply _. Defined.

(** Some mesh of the container is bound to [sk]. *)
Definition hasBoundMesh (s0 : Scene) (c : AbstractScene) (sk : nat) : Prop :=
  Exists (boundTo s0 sk) (meshes c).

(** The skeleton that a pass started in [s0] leaves for the skeleton [sk] of
    the container, given the tables of the pass: the copy is named after
    [sk], its override mesh is what the tables give for the override mesh of
    [sk], and its bone links have gone through the tables when a mesh of
    the container is bound to [sk]. *)
Definition clonedSkeleton (s0 : Scene) (c : AbstractScene) (p : Pass) (sk : nat)
  : Skeleton :=
  let k := getSkeleton s0 sk in
  mkSkeleton ("Clone of " +:+ skeleton_name k)
    (overrideMesh k ≫= lookupClone p)
    (if decide (hasBoundMesh s0 c sk) then swapBone p <$> bones k else bones k).

(** The assignment [copy.skeleton = clone]. *)
Definition bindCopy (copy clone : nat) (p : Pass) : Pass :=
  let c := getNode (scene p) copy in
  set_scene
    (setNode copy
       (mkTransformNode (node_name c) (parent c) (isMesh c)
          (morphTargetManager c) (Some clone) (isAnInstance c))
       (scene p)) p.

(** A skeleton whose bone links have gone through the tables of [p]. *)
Definition swappedSkeleton (p : Pass) (k : Skeleton) : Skeleton :=
  mkSkeleton (skeleton_name k) (overrideMesh k) (swapBone p <$> bones k).

(** The state [r] of the loop over the meshes for the skeleton [s] and its
    clone [C], entered in the state [q], when the meshes [done] have been
    visited. *)
Definition bindLoop_post (s0 : Scene) (s C : nat) (q : Pass) (done : list nat)
    (r : Pass) : Prop :=
  inv s0 r
  ∧ convertionMap r = convertionMap q ∧ storeMap r = storeMap q
  ∧ result r = result q
  ∧ uniqueIdCounter (scene r) = uniqueIdCounter (scene q)
  ∧ groupStore (scene r) = groupStore (scene q)
  ∧ node_stable (scene q) (scene r)
  ∧ (∀ m, m ∈ done → boundTo s0 s m →
       ∃ copy, convertionMap q !! m = Some copy
         ∧ skeleton (getNode (scene r) copy) = Some C)
  ∧ (∀ i, (∀ m, m ∈ done → boundTo s0 s m → convertionMap q !! m ≠ Some i) →
       nodeStore (scene r) !! i = nodeStore (scene q) !! i)
  ∧ skeletonStore (scene r)
    = (if decide (Exists (boundTo s0 s) done)
       then <[C := swappedSkeleton q (getSkeleton (scene q) C)]> (skeletonStore (scene q))
       else skeletonStore (scene q))
  ∧ alreadySwapped r
    = (if decide (Exists (boundTo s0 s) done)
       then alreadySwapped q ++ [C] else alreadySwapped q).

(** The state in which [instantiateSkeleton] enters the loop over the
    meshes: the clone exists and its override mesh has been resolved. *)
Definition skeletonCloned (s : nat) (p : Pass) : Pass :=
  let k := getSkeleton (scene p) s in
  let '(clone, s1) := Skeleton_clone ("Clone of " +:+ skeleton_name k) s (scene p) in
  let p1 := set_scene s1 p in
  match overrideMesh k with
  | Some om =>
      let ck := getSkeleton (scene p1) clone in
      set_scene
        (setSkeleton clone
           (mkSkeleton (skeleton_name ck) (lookupClone p1 om) (bones ck))
           (scene p1)) p1
  | None => p1
  end.

(** The state [r] of the loop over the skeletons, entered in the state [q0],
    when the skeletons [done] have been visited. *)
Definition skeletonPhase_post (s0 : Scene) (c : AbstractScene) (q0 : Pass)
    (done : list nat) (r : Pass) : Prop :=
  inv s0 r
  ∧ convertionMap r = convertionMap q0 ∧ storeMap r = storeMap q0
  ∧ node_stable (scene q0) (scene r)
  ∧ groupStore (scene r) = groupStore (scene q0)
  ∧ InstantiatedEntries.rootNodes (result r)
    = InstantiatedEntries.rootNodes (result q0)
  ∧ InstantiatedEntries.animationGroups (result r)
    = InstantiatedEntries.animationGroups (result q0)
  ∧ Forall2 (λ sk cl, uniqueIdCounter s0 ≤ cl ∧ cl < uniqueIdCounter (scene r)
                      ∧ skeletonStore (scene r) !! cl
                        = Some (clonedSkeleton s0 c q0 sk))
            done (InstantiatedEntries.skeletons (result r))
  ∧ NoDup (alreadySwapped r)
  ∧ Forall (λ cl, cl < uniqueIdCounter (scene r)) (alreadySwapped r)
  ∧ (∀ j sk cl, done !! j = Some sk →
       InstantiatedEntries.skeletons (result r) !! j = Some cl →
       (cl ∈ alreadySwapped r ↔ hasBoundMesh s0 c sk))
  ∧ (∀ sk m, sk ∈ done → m ∈ meshes c → boundTo s0 sk m →
       ∃ copy j cl, convertionMap r !! m = Some copy
         ∧ done !! j = Some sk
         ∧ InstantiatedEntries.skeletons (result r) !! j = Some cl
         ∧ skeleton (getNode (scene r) copy) = Some cl).

(** The animation group that a pass leaves for the group [o] of the
    container, given the tables of the pass. *)
Definition clonedGroup (s0 : Scene) (p : Pass) (o : nat) : AnimationGroup :=
  let g := getAnimationGroup s0 o in
  mkAnimationGroup (group_name g)
    ((λ ta, (ta.1, targetConverter p ta.2)) <$> targetedAnimations g).

(** The state [r] of the loop over the animation groups, entered in the
    state [q0], when the groups [done] have been visited. *)
Definition animationPhase_post (s0 : Scene) (q0 : Pass) (done : list nat)
    (r : Pass) : Prop :=
  inv s0 r
  ∧ convertionMap r = convertionMap q0 ∧ storeMap r = storeMap q0
  ∧ nodeStore (scene r) = nodeStore (scene q0)
  ∧ skeletonStore (scene r) = skeletonStore (scene q0)
  ∧ alreadySwapped r = alreadySwapped q0
  ∧ InstantiatedEntries.rootNodes (result r)
    = InstantiatedEntries.rootNodes (result q0)
  ∧ InstantiatedEntries.skeletons (result r)
    = InstantiatedEntries.skeletons (result q0)
  ∧ Forall2 (λ o cl, uniqueIdCounter s0 ≤ cl ∧ cl < uniqueIdCounter (scene r)
                     ∧ groupStore (scene r) !! cl = Some (clonedGroup s0 q0 o))
            done (InstantiatedEntries.animationGroups (result r)).

(** What a completed pass over the container [c], started in the scene
    [s0], has built. *)
Definition pass_post (s0 : Scene) (c : AbstractScene) (p : Pass) : Prop :=
  inv s0 p
  ∧ Forall2 (rootClone s0 (scene p))
            (parentless s0 (transformNodes c ++ meshes c))
            (InstantiatedEntries.rootNodes (result p))
  ∧ NoDup (InstantiatedEntries.rootNodes (result p))
  ∧ Forall2 (λ sk cl, uniqueIdCounter s0 ≤ cl
                      ∧ skeletonStore (scene p) !! cl
                        = Some (clonedSkeleton s0 c p sk))
            (skeletons c) (InstantiatedEntries.skeletons (result p))
  ∧ NoDup (alreadySwapped p)
  ∧ (∀ j sk cl, skeletons c !! j = Some sk →
       InstantiatedEntries.skeletons (result p) !! j = Some cl →
       (cl ∈ alreadySwapped p ↔ hasBoundMesh s0 c sk))
  ∧ (∀ sk m, sk ∈ skeletons c → m ∈ meshes c → boundTo s0 sk m →
       ∃ copy j cl, convertionMap p !! m = Some copy
         ∧ skeletons c !! j = Some sk
         ∧ InstantiatedEntries.skeletons (result p) !! j = Some cl
         ∧ skeleton (getNode (scene p) copy) = Some cl)
  ∧ Forall2 (λ o cl, uniqueIdCounter s0 ≤ cl
                     ∧ groupStore (scene p) !! cl = Some (clonedGroup s0 p o))
            (animationGroups c) (InstantiatedEntries.animationGroups (result p)).


(** ** Sample scenes *)

Definition emptyAssets : AbstractScene := mkAbstractScene (λ _, []) None ∅.

(** A container holding the given transform nodes, meshes, skeletons and
    animation groups. *)
Definition containerOf (tn ms sk ag : list nat) : AbstractScene :=
  mkAbstractScene
    (λ k, match k with
          | TransformNodes => tn
          | Meshes => ms
          | Skeletons => sk
          | AnimationGroups => ag
          | _ => []
          end) None ∅.

(** A transform node [0] with two child meshes [1] and [2]; a transform
    node [9] on its own.  Mesh [1] has the morph-target manager [3] (targets
    [4] and [5]) and is bound to the skeleton [6], whose override mesh is
    mesh [2] and whose bones are linked to node [0], to node [9] and to
    nothing.  The animation group [7] drives mesh [1], node [9] and the
    morph target [4]. *)
Definition sampleScene : Scene :=
  mkScene 10
    (list_to_map
       [(0, mkTransformNode "root" None false None None false);
        (1, mkTransformNode "body" (Some 0) true (Some 3) (Some 6) false);
        (2, mkTransformNode "hat" (Some 0) true None None false);
        (9, mkTransformNode "prop" None false None None false)])
    (list_to_map [(3, [4; 5])])
    (list_to_map
       [(6, mkSkeleton "rig" (Some 2) [mkBone (Some 0); mkBone (Some 9); mkBone None])])
    (list_to_map [(7, mkAnimationGroup "walk" [(100, 1); (101, 9); (102, 4)])])
    emptyAssets [].

(** The whole hierarchy under [0], with its skeleton and animation group. *)
Definition sampleContainer : AbstractScene := containerOf [0] [1; 2] [6] [7].

(** The root and the skeleton, but none of the meshes. *)
Definition skeletonOnlyContainer : AbstractScene := containerOf [0] [] [6] [].

(** A scene in which the mesh [1] hangs under a node [0]; the skeleton [2]
    names mesh [1] as its override mesh. *)
Definition parentedScene : Scene :=
  mkScene 3
    (list_to_map
       [(0, mkTransformNode "pivot" None false None None false);
        (1, mkTransformNode "body" (Some 0) true None None false)])
    ∅
    (list_to_map [(2, mkSkeleton "rig" (Some 1) [])])
    ∅ emptyAssets [].

(** The mesh and the skeleton, without the node the mesh hangs under. *)
Definition parentedContainer : AbstractScene := containerOf [] [1] [2] [].

(** A scene with assets already in it, and a container to add. *)
Definition assetScene : Scene :=
  mkScene 20 ∅ ∅ ∅ ∅
    (mkAbstractScene
       (λ k, match k with Meshes => [1; 2] | Cameras => [3] | _ => [] end)
       None ∅) [].

Definition assetContainer : AbstractScene :=
  mkAbstractScene
    (λ k, match k with Meshes => [2; 5] | Lights => [6] | _ => [] end)
    (Some 7) ∅.

(** * The rest of the two classes *)

Import Stdlib.Strings.Ascii.

(** ** [TexturePropertyGridComponent.render]: file format and link *)

(** The loop [for (var index = url.length - 1; index >= 0; index--)] of
    [render], entered with [index = n - 1].  Reading [url[index]] past the
    end gives [undefined], which the concatenation turns into a string. *)
Fixpoint extensionLoop (url : string) (n : nat) (extension : string) : string :=
  match n with
  | 0 => extension
  | S index =>
      match String.get index url with
      | Some c =>
          if Ascii.eqb c "."%char then extension
          else extensionLoop url index (String c extension)
      | None => extensionLoop url index ("undefined" +:+ extension)
      end
  end.

(** The value of [extension] after the test [if (url)]: a [null] or empty
    [url] skips the loop. *)
Definition fileExtension (url : option string) : string :=
  match url with
  | Some u => if String.eqb u "" then "" else extensionLoop u (String.length u) ""
  | None => ""
  end.


(** The string has a ["."] in it. *)
Fixpoint hasDot (s : string) : bool :=
  match s with
  | EmptyString => false
  | String c s' => Ascii.eqb c "."%char || hasDot s'
  end.

(** ** [_moveAssets] *)

(** The loop [for (let keepAsset of keepAssets)]: the value of [move] when
    it ends or breaks. *)
Fixpoint keepLoop (asset : nat) (keepAssets : list nat) : bool :=
  match keepAssets with
  | [] => true
  | keepAsset :: rest =>
      if decide (asset = keepAsset) then false else keepLoop asset rest
  end.

(** [_moveAssets(sourceAssets, targetAssets, keepAssets)]: the contents of
    [targetAssets] when the method returns.  [sourceAssets] and [keepAssets]
    may be [undefined]; the source and the target are two arrays (the
    scene's and the container's). *)
Definition _moveAssets (sourceAssets : option (list nat)) (targetAssets : list nat)
    (keepAssets : option (list nat)) : list nat :=
  match sourceAssets with
  | None => targetAssets
  | Some source =>
      foldl
        (λ target asset,
           let move :=
             match keepAssets with
             | Some keep => keepLoop asset keep
             | None => true
             end in
           if move then target ++ [asset] else target)
        targetAssets source
  end.

(** ** [createRootMesh] *)

(** The constructor [new Mesh(name, scene)] and the method
    [TransformNode.addChild] are not in the sources.  As the documentation
    comment of [createRootMesh] has it, the meshes are added to the root
    mesh: the constructor makes a mesh of the scene with the next unique id,
    no parent, no morph targets and no skeleton, and [addChild] makes its
    receiver the parent of the child. *)
Definition newMesh (name : string) (s : Scene) : nat * Scene :=
  let id := uniqueIdCounter s in
  (id, setNode id (mkTransformNode name None true None None false)
         (set_uniqueIdCounter (S id) s)).

Definition addChild (receiver child : nat) (s : Scene) : Scene :=
  let n := getNode s child in
  setNode child
    (mkTransformNode (node_name n) (Some receiver) (isMesh n)
       (morphTargetManager n) (skeleton n) (isAnInstance n)) s.

(** Body of [this.meshes.forEach] in [createRootMesh]. *)
Definition adoptMesh (rootMesh : nat) (s : Scene) (m : nat) : Scene :=
  match parent (getNode s m) with
  | None => addChild rootMesh m s
  | Some _ => s
  end.

(** Returns the root mesh, the container and the scene. *)
Definition createRootMesh (container : AbstractScene) (s : Scene)
  : nat * AbstractScene * Scene :=
  let '(rootMesh, s1) := newMesh "assetContainerRootMesh" s in
  let s2 := foldl (adoptMesh rootMesh) s1 (meshes container) in
  (rootMesh, updCollection Meshes (λ l, rootMesh :: l) container, s2).

(** What [createRootMesh] makes of a mesh of the container: a mesh without
    a parent goes under the root mesh, another one is left where it is. *)
Definition adopted (rootMesh : nat) (n : TransformNode) : TransformNode :=
  match parent n with
  | None =>
      mkTransformNode (node_name n) (Some rootMesh) (isMesh n)
        (morphTargetManager n) (skeleton n) (isAnInstance n)
  | Some _ => n
  end.

(** ** [dispose] *)

(** The [dispose] methods of the assets and the disposing variant
    [removeFromContainer(container, true)] of the scene components are not
    in the sources; they act on the scene and are taken as an interface. *)
Class AssetDisposal := {
  disposeAsset : AssetKind → nat → Scene → Scene;
  disposeEnvironmentTexture : nat → Scene → Scene;
  removeFromContainerAndDispose : SceneComponent → AbstractScene → Scene → Scene
}.

(** The arrays that [dispose] walks and empties, in its order. *)
Definition disposedKinds : list AssetKind :=
  [Cameras; Lights; Meshes; Skeletons; AnimationGroups; MultiMaterials;
   Materials; Geometries; TransformNodes; ActionManagers; Textures;
   ReflectionProbes].

Section Dispose.
Context {disposal : AssetDisposal}.

(** [this.xs.forEach((o) => o.dispose()); this.xs = [];] *)
Definition disposeKind (cs : AbstractScene * Scene) (k : AssetKind)
  : AbstractScene * Scene :=
  (updCollection k (λ _, []) cs.1,
   foldl (λ s o, disposeAsset k o s) cs.2 (collection cs.1 k)).

Definition dispose (container : AbstractScene) (s : Scene)
  : AbstractScene * Scene :=
  let '(c1, s1) := foldl disposeKind (container, s) disposedKinds in
  let '(c2, s2) :=
    match environmentTexture c1 with
    | Some t => (set_environmentTexture None c1, disposeEnvironmentTexture t s1)
    | None => (c1, s1)
    end in
  (c2,
   foldl (λ s component, removeFromContainerAndDispose component c2 s)
         s2 (_serializableComponents s2)).
End Dispose.

(** Disposal that only drops the objects from the stores of the scene. *)
Definition dropFromStores : AssetDisposal :=
  {| disposeAsset := λ k o s,
       match k with
       | Meshes | TransformNodes => set_nodeStore (delete o (nodeStore s)) s
       | Skeletons => set_skeletonStore (delete o (skeletonStore s)) s
       | AnimationGroups => set_groupStore (delete o (groupStore s)) s
       | MorphTargetManagers => set_managerStore (delete o (managerStore s)) s
       | _ => s
       end;
     disposeEnvironmentTexture := λ _ s, s;
     removeFromContainerAndDispose := λ _ _ s, s |}.

(** ** The shape of the cloned hierarchies *)

(** The identifiers of the morph targets are not identifiers of nodes:
    unique identifiers are drawn from one counter of the scene. *)
Definition targets_apart (s : Scene) : Prop :=
  map_Forall (λ _ ts, Forall (λ t, nodeStore s !! t = None) ts) (managerStore s).

#[global] Instance targets_apart_dec s : Decision (targets_apart s).
Proof. unfold targets_apart. apply _. Defined.

(** [o] is the node [a] or a node below it. *)
Definition descendant (s : Scene) (a o : nat) : Prop :=
  ∃ d, nth_parent s d o = Some a.

(** [o] is in the hierarchy of an entry without a parent of the list [l]. *)
Definition under (s : Scene) (l : list nat) (o : nat) : Prop :=
  ∃ root, root ∈ parentless s l ∧ descendant s root o.

(** In the state [p] of a pass started in [s0], [cl] is a node named after
    the node [o] of [s0], of its kind, and has the parent [par]. *)
Definition clonedAs (s0 : Scene) (p : Pass) (o cl : nat) (par : option nat)
  : Prop :=
  ∃ n, nodeStore (scene p) !! cl = Some n
    ∧ node_name n = "Clone of " +:+ node_name (getNode s0 o)
    ∧ isMesh n = isMesh (getNode s0 o)
    ∧ parent n = par.

(** [cl] is a copy of [o] that hangs under the copy of the parent of [o]. *)
Definition mirrors (s0 : Scene) (p : Pass) (o cl : nat) : Prop :=
  clonedAs s0 p o cl (parent (getNode s0 o) ≫= λ q, convertionMap p !! q).

(** The pass has left the morph-target managers of [s0] as they were. *)
Definition managers_kept (s0 : Scene) (p : Pass) : Prop :=
  ∀ i, i < uniqueIdCounter s0 → managerStore (scene p) !! i = managerStore s0 !! i.

(** ** More sample scenes *)

(** Two meshes without a parent, and a container holding both. *)
Definition looseScene : Scene :=
  mkScene 2
    (list_to_map
       [(0, mkTransformNode "left" None true None None false);
        (1, mkTransformNode "right" None true None None false)])
    ∅ ∅ ∅ emptyAssets [].

Definition looseContainer : AbstractScene := containerOf [] [0; 1] [] [].

(** A container with animations and a morph-target manager besides its
    meshes. *)
Definition animatedContainer : AbstractScene :=
  mkAbstractScene
    (λ k, match k with
          | Meshes => [1; 2]
          | Animations => [8]
          | MorphTargetManagers => [3]
          | _ => []
          end)
    (Some 7) ∅.

(** The bound mesh [1] of the sample scene and its skeleton, without the
    node [0] that the mesh hangs under. *)
Definition boundMeshContainer : AbstractScene := containerOf [] [1] [6] [].

(** A mesh without a parent, bound to a skeleton whose bone is linked to
    it, and the container that holds both. *)
Definition riggedScene : Scene :=
  mkScene 2
    (list_to_map [(0, mkTransformNode "body" None true None (Some 1) false)])
    ∅
    (list_to_map [(1, mkSkeleton "rig" None [mkBone (Some 0)])])
    ∅ emptyAssets [].

Definition riggedContainer : AbstractScene := containerOf [] [0] [1] [].

(** ** [removeAllFromScene] after [addAllToScene] *)

Section AddRemoveFacts.
Context {ops : SceneArrays} {laws : SceneArraysLaws ops}.

Lemma collection_foldl_sceneAdd k k' l s :
  collection (assets (foldl (sceneAdd k') s l)) k =
  if decide (k = k')
  then foldl (λ a o, addToScene k o a) (collection (assets s) k) l
  else collection (assets s) k.
Proof.
  revert s; induction l as [|o l IH]; intros s; simpl.
  - by case_decide.
  - rewrite IH. unfold sceneAdd; simpl. by destruct (decide (k = k')) as [->|?].
Qed.

Lemma collection_foldl_sceneRemove k k' l s :
  collection (assets (foldl (sceneRemove k') s l)) k =
  if decide (k = k')
  then foldl (λ a o, removeFromScene k o a) (collection (assets s) k) l
  else collection (assets s) k.
Proof.
  revert s; induction l as [|o l IH]; intros s; simpl.
  - by case_decide.
  - rewrite IH. unfold sceneRemove; simpl. by destruct (decide (k = k')) as [->|?].
Qed.

Lemma environmentTexture_foldl_sceneAdd k l s :
  environmentTexture (assets (foldl (sceneAdd k) s l)) = environmentTexture (assets s).
Proof. revert s; induction l as [|o l IH]; intros s; simpl; [done|by rewrite IH]. Qed.


(** The loops over the kinds touch the array of kind [k] once, when the
    walk reaches [k]. *)
Lemma collection_loops (step : AssetKind → Scene → nat → Scene)
    (f : AssetKind → nat → list nat → list nat) (c : AbstractScene) ks :
  (∀ k k' l s, collection (assets (foldl (step k') s l)) k =
               if decide (k = k')
               then foldl (λ a o, f k o a) (collection (assets s) k) l
               else collection (assets s) k) →
  NoDup ks → ∀ s k,
  collection (assets (foldl (λ s k, foldl (step k) s (collection c k)) s ks)) k =
  if decide (k ∈ ks)
  then foldl (λ a o, f k o a) (collection (assets s) k) (collection c k)
  else collection (assets s) k.
Proof.
  intros Hstep. induction 1 as [|k0 ks Hk0 Hnd IH]; intros s k; simpl.
  - destruct (decide (k ∈ [])) as [Hin|_]; [by apply elem_of_nil in Hin|done].
  - rewrite IH, Hstep.
    destruct (decide (k = k0)) as [->|Hne].
    + rewrite decide_False by done. rewrite decide_True by left. done.
    + destruct (decide (k ∈ ks)) as [Hin|Hin].
      * rewrite decide_True by (by right). done.
      * rewrite decide_False; [done|]. intros [?|?]%elem_of_cons; done.
Qed.

Lemma environmentTexture_loops (step : AssetKind → Scene → nat → Scene)
    (c : AbstractScene) ks :
  (∀ k l s, environmentTexture (assets (foldl (step k) s l)) =
            environmentTexture (assets s)) →
  ∀ s,
  environmentTexture
    (assets (foldl (λ s k, foldl (step k) s (collection c k)) s ks)) =
  environmentTexture (assets s).
Proof.
  intros Hstep. induction ks as [|k0 ks IH]; intros s; simpl; [done|].
  by rewrite IH, Hstep.
Qed.

(** The components only rewrite [componentAssets]. *)
Lemma components_frame
    (g : SceneComponent → AbstractScene → gmap string (list nat) → gmap string (list nat))
    (c : AbstractScene) comps s :
  let s' :=
    foldl (λ s component,
             set_assets
               (set_componentAssets (g component c (componentAssets (assets s)))
                  (assets s)) s) s comps in
  collection (assets s') = collection (assets s)
  ∧ environmentTexture (assets s') = environmentTexture (assets s).
Proof.
  revert s; induction comps as [|x comps IH]; intros s; simpl; [done|].
  destruct (IH (set_assets
                  (set_componentAssets (g x c (componentAssets (assets s)))
                     (assets s)) s)) as [-> ->]. done.
Qed.

Lemma addToScene_all k l a :
  foldl (λ a o, addToScene k o a) a l ≡ₚ l ++ a.
Proof.
  revert a; induction l as [|o l IH]; intros a; simpl; [done|].
  rewrite IH, addToScene_perm. by rewrite Permutation_middle.
Qed.

Lemma removeFromScene_all k l a b :
  b ≡ₚ l ++ a → foldl (λ a o, removeFromScene k o a) b l ≡ₚ a.
Proof.
  revert b; induction l as [|o l IH]; intros b Hb; simpl in *; [done|].
  apply IH. apply (inj (cons o)).
  rewrite removeFromScene_elem; [done|].
  rewrite Hb. left.
Qed.

Lemma assetKinds_NoDup : NoDup assetKinds.
Proof. unfold assetKinds. apply (bool_decide_unpack _). by vm_compute. Qed.

Lemma assetKinds_all k : k ∈ assetKinds.
Proof. unfold assetKinds. destruct k; set_solver. Qed.

Lemma collection_addAllToScene c s k :
  collection (assets (addAllToScene c s)) k =
  foldl (λ a o, addToScene k o a) (collection (assets s) k) (collection c k).
Proof.
  unfold addAllToScene.
  match goal with |- context [foldl ?f ?s0 (_serializableComponents ?s0)] =>
    destruct (components_frame addFromContainer c (_serializableComponents s0) s0)
      as [-> _] end.
  assert (∀ s1 : Scene,
    collection (assets (match environmentTexture c with
                        | Some t => set_assets (set_environmentTexture (Some t) (assets s1)) s1
                        | None => s1 end)) = collection (assets s1)) as ->
    by (intros; by destruct (environmentTexture c)).
  rewrite (collection_loops sceneAdd addToScene c assetKinds
             collection_foldl_sceneAdd assetKinds_NoDup).
  by rewrite decide_True by apply assetKinds_all.
Qed.

Lemma environmentTexture_addAllToScene c s :
  environmentTexture (assets (addAllToScene c s)) =
  match environmentTexture c with
  | Some t => Some t
  | None => environmentTexture (assets s)
  end.
Proof.
  unfold addAllToScene.
  match goal with |- context [foldl ?f ?s0 (_serializableComponents ?s0)] =>
    destruct (components_frame addFromContainer c (_serializableComponents s0) s0)
      as [_ ->] end.
  destruct (environmentTexture c); [done|].
  by rewrite (environmentTexture_loops sceneAdd c assetKinds
                environmentTexture_foldl_sceneAdd).
Qed.

Lemma collection_removeAllFromScene c s k :
  collection (assets (removeAllFromScene c s)) k =
  foldl (λ a o, removeFromScene k o a) (collection (assets s) k) (collection c k).
Proof.
  unfold removeAllFromScene.
  match goal with |- context [foldl ?f ?s0 (_serializableComponents ?s0)] =>
    destruct (components_frame removeFromContainer c (_serializableComponents s0) s0)
      as [-> _] end.
  match goal with |- context [decide ?P] => destruct (decide P) end;
    cbn [set_assets assets set_environmentTexture collection];
    rewrite (collection_loops sceneRemove removeFromScene c assetKinds
               collection_foldl_sceneRemove assetKinds_NoDup);
    by rewrite decide_True by apply assetKinds_all.
Qed.


End AddRemoveFacts.

(** ** Outcomes and loops *)

Lemma bind_Ok {A B} (m : outcome A) (f : A → outcome B) (b : B) :
  m ≫= f = Ok b ↔ ∃ a, m = Ok a ∧ f a = Ok b.
Proof.
  destruct m as [a| |]; simpl.
  - split; [eauto|]. by intros (a' & [= <-] & ?).
  - split; [done|]. by intros (a' & [=] & ?).
  - split; [done|]. by intros (a' & [=] & ?).
Qed.

Lemma forEach_app {A S} (body : A → S → outcome S) l1 l2 (s : S) :
  forEach body (l1 ++ l2) s = forEach body l1 s ≫= forEach body l2.
Proof.
  revert s; induction l1 as [|x l1 IH]; intros s; simpl; [done|].
  destruct (body x s); simpl; auto.
Qed.

(** An invariant indexed by the elements already visited. *)
Lemma forEach_ind {A S} (body : A → S → outcome S) (P : list A → S → Prop) l s s' :
  P [] s →
  (∀ done x rest q q',
     l = done ++ x :: rest → P done q → body x q = Ok q' → P (done ++ [x]) q') →
  forEach body l s = Ok s' → P l s'.
Proof.
  intros H0 Hstep.
  assert (∀ rest done q, l = done ++ rest → P done q →
            forEach body rest q = Ok s' → P l s') as Hgen.
  { induction rest as [|x rest IH]; intros done q Hl HP Hrun; simpl in Hrun.
    - injection Hrun as <-. by rewrite Hl, app_nil_r.
    - apply bind_Ok in Hrun as (q' & Hx & Hrest).
      apply (IH (done ++ [x]) q'); [by rewrite <-app_assoc|eauto|done]. }
  intros Hrun. by apply (Hgen l [] s).
Qed.

(** The same, for loops whose body cannot fail while the invariant holds. *)
Lemma forEach_total {A S} (body : A → S → outcome S) (P : list A → S → Prop) l s :
  P [] s →
  (∀ done x rest q,
     l = done ++ x :: rest → P done q → ∃ q', body x q = Ok q' ∧ P (done ++ [x]) q') →
  ∃ s', forEach body l s = Ok s' ∧ P l s'.
Proof.
  intros H0 Hstep.
  assert (∀ rest done q, l = done ++ rest → P done q →
            ∃ s', forEach body rest q = Ok s' ∧ P l s') as Hgen.
  { induction rest as [|x rest IH]; intros done q Hl HP; simpl.
    - exists q. by rewrite Hl, app_nil_r.
    - destruct (Hstep done x rest q Hl HP) as (q' & -> & HP'). simpl.
      apply (IH (done ++ [x]) q'); [by rewrite <-app_assoc|done]. }
  by apply (Hgen l [] s).
Qed.

(** A loop completes when its body completes in every state that the loop
    reaches. *)
Lemma forEach_progress {A S} (body : A → S → outcome S) l s :
  (∀ done x rest q,
     l = done ++ x :: rest → forEach body done s = Ok q → ∃ q', body x q = Ok q') →
  ∃ s', forEach body l s = Ok s'.
Proof.
  intros Hstep.
  destruct (forEach_total body (λ done q, forEach body done s = Ok q) l s)
    as (s' & Hrun & _); [done| |by exists s'].
  intros done x rest q Hsplit Hq.
  destruct (Hstep done x rest q Hsplit Hq) as (q' & Hx).
  exists q'. split; [done|]. rewrite forEach_app, Hq. simpl. by rewrite Hx.
Qed.

Lemma forEach_not_OutOfFuel {A S} (body : A → S → outcome S) l s :
  (∀ x q, body x q ≠ OutOfFuel) → forEach body l s ≠ OutOfFuel.
Proof.
  intros Hbody. revert s; induction l as [|x l IH]; intros s; simpl; [done|].
  destruct (body x s) as [q| |] eqn:Hx; simpl; [apply IH|done|by apply Hbody in Hx].
Qed.

(** ** Chains of parents *)

Lemma nth_parent_add s a b i :
  nth_parent s (a + b) i = nth_parent s a i ≫= nth_parent s b.
Proof.
  revert i; induction a as [|a IH]; intros i; simpl; [done|].
  destruct (nodeStore s !! i) as [n|]; [|done].
  destruct (parent n); [apply IH|done].
Qed.

Lemma nth_parent_root s d r :
  parent (getNode s r) = None → 0 < d → nth_parent s d r = None.
Proof.
  unfold getNode. intros Hr Hd. destruct d as [|d]; [lia|]. simpl.
  destruct (nodeStore s !! r) as [n|] eqn:Hn; [|done].
  rewrite (lookup_total_correct _ _ _ Hn) in Hr. by rewrite Hr.
Qed.

Lemma nth_parent_lt s K d i r j x :
  (∀ i n, nodeStore s !! i = Some n → i < K) → r < K →
  nth_parent s d i = Some r → j ≤ d → nth_parent s j i = Some x → x < K.
Proof.
  intros Hdom Hr Hd Hj Hx.
  destruct (decide (j = d)) as [->|Hne]; [congruence|].
  replace d with (j + S (d - j - 1)) in Hd by lia.
  rewrite nth_parent_add, Hx in Hd. simpl in Hd.
  destruct (nodeStore s !! x) as [n|] eqn:Hn; [by eapply Hdom|done].
Qed.

(** A node below a parentless node of a scene sits at a depth smaller than
    the number of identifiers handed out. *)
Lemma nth_parent_bound s K d i r :
  (∀ i n, nodeStore s !! i = Some n → i < K) → r < K →
  parent (getNode s r) = None →
  nth_parent s d i = Some r → d < K.
Proof.
  intros Hdom Hr Hroot Hd.
  assert (∀ j, j ≤ d → ∃ x, nth_parent s j i = Some x ∧ x < K) as Hall.
  { intros j Hj. replace d with (j + (d - j)) in Hd by lia.
    rewrite nth_parent_add in Hd.
    destruct (nth_parent s j i) as [x|] eqn:Hx; [|done].
    exists x; split; [done|].
    eapply (nth_parent_lt s K (j + (d - j)) i r j x); [done|done| |lia|done].
    rewrite nth_parent_add, Hx. done. }
  set (chain := (λ j, default 0 (nth_parent s j i)) <$> seq 0 (S d)).
  assert (NoDup chain) as Hnd.
  { apply NoDup_fmap_2_strong; [|apply NoDup_seq].
    intros a b Ha%elem_of_seq Hb%elem_of_seq Hab.
    destruct (Hall a) as (x & Hxa & _); [lia|].
    destruct (Hall b) as (y & Hyb & _); [lia|].
    rewrite Hxa, Hyb in Hab. simpl in Hab. subst y.
    assert (∀ a b, a < b → b ≤ d → nth_parent s a i = Some x →
              nth_parent s b i = Some x → False) as Hcyc.
    { clear -Hd Hroot. intros a b Hlt Hb Ha Hb'.
      assert (nth_parent s (d - a) x = Some r) as H1.
      { replace d with (a + (d - a)) in Hd by lia.
        by rewrite nth_parent_add, Ha in Hd. }
      assert (nth_parent s (d - b) x = Some r) as H2.
      { replace d with (b + (d - b)) in Hd by lia.
        by rewrite nth_parent_add, Hb' in Hd. }
      replace (d - a) with ((d - b) + (b - a)) in H1 by lia.
      rewrite nth_parent_add, H2 in H1. simpl in H1.
      rewrite nth_parent_root in H1; [done|done|lia]. }
    destruct (decide (a = b)) as [|Hne]; [done|exfalso].
    destruct (decide (a < b)); [eapply (Hcyc a b)|eapply (Hcyc b a)]; eauto; lia. }
  assert (chain ⊆+ seq 0 K) as Hsub.
  { apply NoDup_submseteq; [done|].
    intros x (j & -> & Hj%elem_of_seq)%list_elem_of_fmap.
    destruct (Hall j) as (y & Hy & HyK); [lia|]. rewrite Hy. simpl.
    apply elem_of_seq. lia. }
  apply submseteq_length in Hsub.
  unfold chain in Hsub. rewrite length_fmap, !length_seq in Hsub. lia.
Qed.

(** ** Simplification of field accesses *)

Ltac sim :=
  cbn [uniqueIdCounter nodeStore managerStore skeletonStore groupStore assets
       _serializableComponents set_uniqueIdCounter set_nodeStore set_managerStore
       set_skeletonStore set_groupStore set_assets setNode setSkeleton
       scene convertionMap storeMap result alreadySwapped
       set_scene set_result set_alreadySwapped record fst snd
       InstantiatedEntries.rootNodes InstantiatedEntries.skeletons
       InstantiatedEntries.animationGroups InstantiatedEntries.push_rootNode
       InstantiatedEntries.push_skeleton InstantiatedEntries.push_animationGroup
       node_name parent isMesh morphTargetManager skeleton isAnInstance
       skeleton_name overrideMesh bones group_name targetedAnimations] in *.

(** ** Well-formedness is kept by the engine primitives *)

Ltac split_wf := unfold wf_scene; sim; split; [|split; [|split]].

Lemma wf_node_mono C C' n : C ≤ C' → wf_node C n → wf_node C' n.
Proof. unfold wf_node. destruct (morphTargetManager n); [lia|done]. Qed.

Lemma wf_getNode s i : wf_scene s → wf_node (uniqueIdCounter s) (getNode s i).
Proof.
  intros (Hn & _). unfold getNode. rewrite lookup_total_alt.
  destruct (nodeStore s !! i) as [n|] eqn:Hi; simpl; [by apply (Hn i n)|done].
Qed.

Lemma wf_scene_counter s C :
  uniqueIdCounter s ≤ C → wf_scene s → wf_scene (set_uniqueIdCounter C s).
Proof.
  intros HC (Hn & Hm & Hk & Hg). split_wf.
  - eapply map_Forall_impl; [exact Hn|]. intros i n [? ?]; split; [lia|].
    by eapply wf_node_mono.
  - eapply map_Forall_impl; [exact Hm|]. intros i n [? Hts]; split; [lia|].
    eapply Forall_impl; [exact Hts|]. simpl; intros; lia.
  - eapply map_Forall_impl; [exact Hk|]. simpl; intros; lia.
  - eapply map_Forall_impl; [exact Hg|]. simpl; intros; lia.
Qed.

Lemma wf_scene_setNode s i n :
  i < uniqueIdCounter s → wf_node (uniqueIdCounter s) n →
  wf_scene s → wf_scene (setNode i n s).
Proof.
  intros Hi Hn (Hnodes & Hm & Hk & Hg). split_wf; try done.
  apply map_Forall_insert_2; done.
Qed.

Lemma wf_scene_setSkeleton s r k :
  r < uniqueIdCounter s → wf_scene s → wf_scene (setSkeleton r k s).
Proof.
  intros Hr (Hnodes & Hm & Hk & Hg). split_wf; try done.
  apply map_Forall_insert_2; done.
Qed.

Lemma wf_scene_cloneNode name src np s :
  wf_scene s → wf_scene (cloneNode name src np s).2.
Proof.
  intros Hwf. unfold cloneNode. cbn [snd].
  apply wf_scene_setNode; sim; [lia| |by apply wf_scene_counter; [lia|]].
  unfold wf_node; sim. pose proof (wf_getNode s src Hwf) as Hsrc.
  unfold wf_node in Hsrc. destruct (morphTargetManager (getNode s src)); [lia|done].
Qed.

Lemma wf_scene_Skeleton_clone name src s :
  wf_scene s → wf_scene (Skeleton_clone name src s).2.
Proof.
  intros Hwf. unfold Skeleton_clone. cbn [snd].
  apply wf_scene_setSkeleton; sim; [lia|by apply wf_scene_counter; [lia|]].
Qed.

Lemma wf_scene_addGroup g s :
  wf_scene s →
  wf_scene (set_groupStore (<[uniqueIdCounter s := g]> (groupStore s))
              (set_uniqueIdCounter (S (uniqueIdCounter s)) s)).
Proof.
  intros Hwf.
  destruct (wf_scene_counter s (S (uniqueIdCounter s)) ltac:(lia) Hwf)
    as (Hn & Hm & Hk & Hg).
  unfold wf_scene in *; sim; split; [|split; [|split]]; try done.
  apply map_Forall_insert_2; [lia|done].
Qed.

Lemma wf_scene_MorphTargetManager_clone m s :
  wf_scene s → wf_scene (MorphTargetManager_clone m s).2.
Proof.
  intros Hwf. unfold MorphTargetManager_clone. cbn [snd].
  set (len := length (getTargets s m)).
  destruct (wf_scene_counter s (S (uniqueIdCounter s) + len) ltac:(lia) Hwf)
    as (Hn & Hm & Hk & Hg).
  unfold wf_scene in *; sim; split; [|split; [|split]]; try done.
  apply map_Forall_insert_2; [|done]. split; [lia|].
  apply Forall_forall. intros t Ht%elem_of_seq. lia.
Qed.

(** ** The two tables *)

Lemma table_ok_mono K b b' cm st : b ≤ b' → table_ok K b cm st → table_ok K b' cm st.
Proof. intros Hb H k v Hkv. destruct (H k v Hkv) as (? & ? & ?). repeat split; [done|lia|done]. Qed.

Lemma table_ok_record K b cm st k v :
  table_ok K b cm st → injective cm → K ≤ v → b ≤ v →
  table_ok K (S v) (<[k := v]> cm) (<[v := v]> st) ∧ injective (<[k := v]> cm).
Proof.
  intros Ht Hinj HK Hb. split.
  - intros k1 v1 Hk1. destruct (decide (k1 = k)) as [->|Hne].
    + rewrite lookup_insert_eq in Hk1. injection Hk1 as <-.
      rewrite lookup_insert_eq. repeat split; [done|lia].
    + rewrite lookup_insert_ne in Hk1 by done.
      destruct (Ht k1 v1 Hk1) as (? & ? & ?).
      rewrite lookup_insert_ne by lia. repeat split; [done|lia|done].
  - intros k1 k2 v1 H1 H2.
    destruct (decide (k1 = k)) as [->|Hne1], (decide (k2 = k)) as [->|Hne2];
      try done.
    + rewrite lookup_insert_eq in H1. rewrite lookup_insert_ne in H2 by done.
      injection H1 as <-. destruct (Ht k2 v H2) as (? & ? & ?). lia.
    + rewrite lookup_insert_eq in H2. rewrite lookup_insert_ne in H1 by done.
      injection H2 as <-. destruct (Ht k1 v H1) as (? & ? & ?). lia.
    + rewrite lookup_insert_ne in H1, H2 by done. by eapply Hinj.
Qed.

Lemma recordAll_frame l p :
  scene (recordAll l p) = scene p ∧ result (recordAll l p) = result p
  ∧ alreadySwapped (recordAll l p) = alreadySwapped p.
Proof.
  unfold recordAll. revert p; induction l as [|[o n] l IH]; intros p; simpl; [done|].
  destruct (IH (record o n p)) as (-> & -> & ->). done.
Qed.

Lemma recordAll_table K b l p :
  table_ok K b (convertionMap p) (storeMap p) → injective (convertionMap p) →
  K ≤ b → l.*2 = seq b (length l) →
  table_ok K (b + length l) (convertionMap (recordAll l p)) (storeMap (recordAll l p))
  ∧ injective (convertionMap (recordAll l p)).
Proof.
  unfold recordAll.
  revert b p; induction l as [|[o n] l IH]; intros b p Ht Hinj HK Hl; simpl in *.
  - by rewrite Nat.add_0_r.
  - injection Hl as -> Hl.
    destruct (table_ok_record K b _ _ o b Ht Hinj HK (le_n _)) as [Ht' Hinj'].
    destruct (IH (S b) (record o b p)) as [? ?]; sim; try done; [lia|].
    by replace (b + S (length l)) with (S b + length l) by lia.
Qed.

Lemma recordAll_other l p k :
  k ∉ l.*1 → convertionMap (recordAll l p) !! k = convertionMap p !! k.
Proof.
  unfold recordAll. revert p; induction l as [|[o n] l IH]; intros p Hk; simpl in *; [done|].
  apply not_elem_of_cons in Hk as [Hne Hk].
  rewrite IH by done. sim. by rewrite lookup_insert_ne.
Qed.

Lemma recordAll_maps l p :
  convertionMap (recordAll l p)
  = foldl (λ (m : gmap nat nat) (on : nat * nat), <[on.1 := on.2]> m)
          (convertionMap p) l
  ∧ storeMap (recordAll l p)
    = foldl (λ (m : gmap nat nat) (on : nat * nat), <[on.2 := on.2]> m)
            (storeMap p) l.
Proof.
  unfold recordAll. revert p; induction l as [|[o n] l IH]; intros p; simpl; [done|].
  destruct (IH (record o n p)) as [-> ->]. done.
Qed.

Lemma recordAll_dom l p k :
  is_Some (convertionMap p !! k) → is_Some (convertionMap (recordAll l p) !! k).
Proof.
  unfold recordAll. revert p; induction l as [|[o n] l IH]; intros p Hk; simpl; [done|].
  apply IH. sim. destruct (decide (o = k)) as [->|?];
    [by rewrite lookup_insert_eq|by rewrite lookup_insert_ne].
Qed.

(** The entry of an original target is the clone at the last index that
    holds this target. *)
Lemma recordAll_last l p i o n :
  l !! i = Some (o, n) →
  (∀ j o' n', i < j → l !! j = Some (o', n') → o' ≠ o) →
  convertionMap (recordAll l p) !! o = Some n.
Proof.
  revert p i; induction l as [|[o1 n1] l IH]; intros p i Hi Hlast; [done|].
  destruct i as [|i]; simpl in Hi.
  - injection Hi as -> ->. change (recordAll ((o, n) :: l) p) with (recordAll l (record o n p)).
    rewrite recordAll_other; [sim; by rewrite lookup_insert_eq|].
    intros ([o' n'] & Heq & Hin)%list_elem_of_fmap. simpl in Heq. subst o'.
    apply list_elem_of_lookup in Hin as [j Hj].
    by apply (Hlast (S j) o n'); [lia|..].
  - change (recordAll ((o1, n1) :: l) p) with (recordAll l (record o1 n1 p)).
    apply (IH _ i); [done|]. intros j o' n' Hj Hl. apply (Hlast (S j) o' n'); [lia|done].
Qed.

Lemma recordAll_store_keep l p x :
  storeMap p !! x = Some x → storeMap (recordAll l p) !! x = Some x.
Proof.
  unfold recordAll. revert p; induction l as [|[o n] l IH]; intros p Hx; simpl; [done|].
  apply IH. sim. destruct (decide (n = x)) as [->|?];
    [by rewrite lookup_insert_eq|by rewrite lookup_insert_ne].
Qed.

Lemma recordAll_store l p o n :
  (o, n) ∈ l → storeMap (recordAll l p) !! n = Some n.
Proof.
  unfold recordAll. revert p; induction l as [|[o1 n1] l IH]; intros p Hin; [by apply elem_of_nil in Hin|].
  apply elem_of_cons in Hin as [[= <- <-]|Hin]; simpl.
  - apply (recordAll_store_keep l). sim. by rewrite lookup_insert_eq.
  - by apply IH.
Qed.

Lemma registerTarget_Some old new index o t p :
  old !! index = Some o → new !! index = Some t →
  registerTarget old new index p = Ok (record o t p).
Proof. intros Ho Ht. unfold registerTarget. by rewrite Ho, Ht. Qed.

(** The loop over the target indices writes the pairs of the two lists. *)
Lemma registerTargets_run old new a n p :
  a + n ≤ length old → a + n ≤ length new →
  forEach (registerTarget old new) (seq a n) p =
  Ok (recordAll (zip (take n (drop a old)) (take n (drop a new))) p).
Proof.
  revert a p; induction n as [|n IH]; intros a p Ho Hn; [done|].
  destruct (lookup_lt_is_Some_2 old a ltac:(lia)) as [o Hoa].
  destruct (lookup_lt_is_Some_2 new a ltac:(lia)) as [t Hta].
  cbn [seq forEach]. rewrite (registerTarget_Some old new a o t p Hoa Hta).
  cbn [mbind outcome_bind]. rewrite IH by lia.
  rewrite (drop_S old o a Hoa), (drop_S new t a Hta). done.
Qed.

(** ** [onClone] *)

Lemma wf_getTargets s m t :
  wf_scene s → t ∈ getTargets s m → t < uniqueIdCounter s.
Proof.
  intros (_ & Hm & _) Ht. unfold getTargets in Ht. rewrite lookup_total_alt in Ht.
  destruct (managerStore s !! m) as [ts|] eqn:Hts; simpl in Ht.
  - destruct (Hm m ts Hts) as [_ Hall]. by apply (proj1 (Forall_forall _ _) Hall).
  - by apply elem_of_nil in Ht.
Qed.

Lemma wf_manager_lt s i m :
  wf_scene s → morphTargetManager (getNode s i) = Some m → m < uniqueIdCounter s.
Proof.
  intros Hwf Hm. pose proof (wf_getNode s i Hwf) as H. unfold wf_node in H.
  by rewrite Hm in H.
Qed.

(** A clone that is not a mesh, or a mesh without morph targets. *)
Lemma onClone_plain source clone p :
  isMesh (getNode (scene p) clone) = false
  ∨ morphTargetManager (getNode (scene p) clone) = None →
  onClone source clone p = Ok (record source clone p).
Proof.
  intros H. unfold onClone. sim.
  destruct (isMesh (getNode (scene p) clone)); [|done].
  destruct H as [H|H]; [done|]. by rewrite H.
Qed.

(** A cloned mesh with morph targets. *)
Lemma onClone_manager source clone p mgr oldManager :
  isMesh (getNode (scene p) clone) = true →
  morphTargetManager (getNode (scene p) clone) = Some mgr →
  morphTargetManager (getNode (scene p) source) = Some oldManager →
  oldManager ≠ uniqueIdCounter (scene p) →
  onClone source clone p =
  Ok (recordAll
        (zip (getTargets (scene p) oldManager)
             (seq (S (uniqueIdCounter (scene p)))
                  (length (getTargets (scene p) oldManager))))
        (set_scene (withClonedManager clone oldManager (scene p))
                   (record source clone p))).
Proof.
  intros Hmesh Hmgr Hold Hne. unfold onClone, withClonedManager. sim.
  rewrite Hmesh, Hmgr, Hold. unfold MorphTargetManager_clone.
  set (C := uniqueIdCounter (scene p)).
  set (old := getTargets (scene p) oldManager).
  match goal with |- forEach (registerTarget ?o ?n) _ _ = _ =>
    assert (o = old) as ->; [|assert (n = seq (S C) (length old)) as ->] end.
  - unfold getTargets; sim. by rewrite lookup_total_insert_ne.
  - unfold getTargets; sim. by rewrite lookup_total_insert_eq.
  - rewrite registerTargets_run by (rewrite ?length_seq; lia).
    rewrite !drop_0. by rewrite !take_ge by (rewrite ?length_seq; lia).
Qed.

(** C2.  When [onClone] is told of a cloned mesh that has a morph-target
    manager, it replaces the manager by a copy with as many targets as the
    manager of the source, and the target at every index of the copy has an
    identifier other than that of the original target at this index.  After
    the pair of the two meshes, the pair of the targets at every index is
    written to the Translation Table and the Clone Store, in the order of
    the indices and in the same way.  So the Clone Store holds every cloned
    target under its identifier, and the Translation Table sends each
    original target to the cloned target at the same index (at the last
    index that holds this original target, should the manager list it more
    than once). *)
Theorem onClone_morph_targets (source clone : nat) (p : Pass)
    (mgr oldManager : nat) :
  wf_scene (scene p) →
  isMesh (getNode (scene p) clone) = true →
  morphTargetManager (getNode (scene p) clone) = Some mgr →
  morphTargetManager (getNode (scene p) source) = Some oldManager →
  ∃ p' newManager,
    onClone source clone p = Ok p'
    ∧ morphTargetManager (getNode (scene p') clone) = Some newManager
    ∧ newManager ≠ oldManager
    ∧ getTargets (scene p') oldManager = getTargets (scene p) oldManager
    ∧ length (getTargets (scene p') newManager)
      = length (getTargets (scene p) oldManager)
    ∧ convertionMap p'
      = foldl (λ (m : gmap nat nat) (on : nat * nat), <[on.1 := on.2]> m)
              (<[source := clone]> (convertionMap p))
              (zip (getTargets (scene p) oldManager)
                   (getTargets (scene p') newManager))
    ∧ storeMap p'
      = foldl (λ (m : gmap nat nat) (on : nat * nat), <[on.2 := on.2]> m)
              (<[clone := clone]> (storeMap p))
              (zip (getTargets (scene p) oldManager)
                   (getTargets (scene p') newManager))
    ∧ storeMap p' !! clone = Some clone
    ∧ (source ∉ getTargets (scene p) oldManager →
       convertionMap p' !! source = Some clone)
    ∧ ∀ index oldTarget,
        getTargets (scene p) oldManager !! index = Some oldTarget →
        ∃ newTarget,
          getTargets (scene p') newManager !! index = Some newTarget
          ∧ newTarget ≠ oldTarget
          ∧ storeMap p' !! newTarget = Some newTarget
          ∧ ((∀ j, index < j →
                getTargets (scene p) oldManager !! j ≠ Some oldTarget) →
             convertionMap p' !! oldTarget = Some newTarget).
Proof.
  intros Hwf Hmesh Hmgr Hold.
  pose proof (wf_manager_lt _ _ _ Hwf Hold) as Hlt.
  set (C := uniqueIdCounter (scene p)) in *.
  set (old := getTargets (scene p) oldManager).
  set (new := seq (S C) (length old)).
  eexists _, C. split; [apply (onClone_manager _ _ _ mgr oldManager); try done; lia|].
  fold C old new.
  set (q := set_scene _ _).
  destruct (recordAll_frame (zip old new) q) as (Hscene & _ & _).
  rewrite Hscene. subst q. sim.
  assert (getTargets (withClonedManager clone oldManager (scene p)) C = new) as HnewT.
  { unfold withClonedManager, MorphTargetManager_clone, getTargets. sim.
    by rewrite lookup_total_insert_eq. }
  assert (getTargets (withClonedManager clone oldManager (scene p)) oldManager = old)
    as HoldT.
  { unfold withClonedManager, MorphTargetManager_clone, getTargets. sim.
    rewrite lookup_total_insert_ne by (fold C; lia). done. }
  rewrite HnewT, HoldT.
  assert ((zip old new).*1 = old) as Hfst
    by (apply fst_zip; unfold new; rewrite length_seq; lia).
  destruct (recordAll_maps (zip old new)
              (set_scene (withClonedManager clone oldManager (scene p))
                 (record source clone p))) as [Hcm Hst].
  split; [|split; [|split; [|split; [|split; [|split; [|split; [|split]]]]]]].
  - unfold withClonedManager, MorphTargetManager_clone, getNode. sim.
    by rewrite lookup_total_insert_eq.
  - lia.
  - done.
  - unfold new. by rewrite length_seq.
  - exact Hcm.
  - exact Hst.
  - apply recordAll_store_keep. sim. by rewrite lookup_insert_eq.
  - intros Hnotin. rewrite recordAll_other by (by rewrite Hfst).
    sim. by rewrite lookup_insert_eq.
  - intros index o Ho.
    assert (index < length old) as Hidx by (by eapply lookup_lt_Some).
    assert (new !! index = Some (S C + index)) as Hn
      by (unfold new; by apply lookup_seq).
    exists (S C + index). split; [done|].
    assert (zip old new !! index = Some (o, S C + index)) as Hz
      by (by apply lookup_zip_Some).
    split; [|split].
    + assert (o < C); [|lia]. apply (wf_getTargets (scene p) oldManager); [done|].
      by eapply list_elem_of_lookup_2.
    + apply (recordAll_store _ _ o). by eapply list_elem_of_lookup_2.
    + intros Hlast. apply (recordAll_last _ _ index); [done|].
      intros j o' n' Hj [Hj1 _]%lookup_zip_Some ->. by apply (Hlast j).
Qed.

(** ** One step of a hierarchy clone *)

Lemma node_stable_refl s : node_stable s s.
Proof. intros i n Hi. by exists n. Qed.

Lemma node_stable_trans s1 s2 s3 :
  node_stable s1 s2 → node_stable s2 s3 → node_stable s1 s3.
Proof.
  intros H12 H23 i n Hi.
  destruct (H12 i n Hi) as (n2 & Hi2 & ? & ? & ? & ?).
  destruct (H23 i n2 Hi2) as (n3 & Hi3 & ? & ? & ? & ?).
  exists n3. repeat split; congruence.
Qed.

Lemma node_frame_refl p : node_frame p p.
Proof. repeat split; auto using node_stable_refl. Qed.

Lemma node_frame_trans p1 p2 p3 :
  node_frame p1 p2 → node_frame p2 p3 → node_frame p1 p3.
Proof.
  intros (? & ? & ? & ? & ? & ? & Hd1) (? & ? & ? & ? & ? & ? & Hd2).
  split; [lia|]. split; [by eapply node_stable_trans|].
  repeat split; try congruence. intros k Hk. by apply Hd2, Hd1.
Qed.

Lemma wf_node_lt s i n :
  wf_scene s → nodeStore s !! i = Some n → i < uniqueIdCounter s.
Proof. intros (Hn & _) Hi. by destruct (Hn i n Hi). Qed.

(** The state after [cloneNode] and the two assignments that open
    [onClone]. *)
Lemma inv_clone_record s0 p name src np :
  inv s0 p →
  (∀ q, match np with Some q => Some q | None => parent (getNode (scene p) src) end
        = Some q → uniqueIdCounter s0 ≤ q) →
  let C := uniqueIdCounter (scene p) in
  let q := record src C (set_scene (cloneNode name src np (scene p)).2 p) in
  inv s0 q ∧ node_frame p q ∧ uniqueIdCounter (scene q) = S C
  ∧ convertionMap q !! src = Some C
  ∧ nodeStore (scene q) !! C =
    Some (mkTransformNode name
            (match np with Some q => Some q | None => parent (getNode (scene p) src) end)
            (isMesh (getNode (scene p) src))
            (morphTargetManager (getNode (scene p) src))
            (skeleton (getNode (scene p) src))
            (isAnInstance (getNode (scene p) src))).
Proof.
  intros Hinv Hpar C q.
  destruct Hinv as [Hc Hwf Ht Hinj Hon Hos Hog Hp].
  destruct (table_ok_record _ _ _ _ src C Ht Hinj Hc (le_n _)) as [Ht' Hinj'].
  subst q C. unfold cloneNode. sim.
  split; [|split; [|split; [|split]]].
  - split; sim; try done.
    + lia.
    + apply (wf_scene_cloneNode name src np (scene p) Hwf).
    + intros i Hi. rewrite lookup_insert_ne by lia. by apply Hon.
    + intros i n q Hi HK Hq.
      destruct (decide (i = uniqueIdCounter (scene p))) as [->|Hne].
      * rewrite lookup_insert_eq in Hi. injection Hi as <-. sim. by apply Hpar.
      * rewrite lookup_insert_ne in Hi by done. by eapply Hp.
  - split; [sim; lia|]. split.
    { intros i n Hi. exists n. sim. rewrite lookup_insert_ne; [done|].
      pose proof (wf_node_lt _ _ _ Hwf Hi). lia. }
    repeat split; sim; try done.
    intros k Hk. destruct (decide (src = k)) as [->|?];
      [by rewrite lookup_insert_eq|by rewrite lookup_insert_ne].
  - done.
  - by rewrite lookup_insert_eq.
  - by rewrite lookup_insert_eq.
Qed.

Lemma wf_scene_withClonedManager clone oldManager s :
  clone < uniqueIdCounter s → wf_scene s →
  wf_scene (withClonedManager clone oldManager s).
Proof.
  intros Hlt Hwf. unfold withClonedManager.
  destruct (MorphTargetManager_clone oldManager s) as [newManager s1] eqn:Hs1.
  pose proof (wf_scene_MorphTargetManager_clone oldManager s Hwf) as Hwf1.
  rewrite Hs1 in Hwf1. cbn [snd] in Hwf1.
  unfold MorphTargetManager_clone in Hs1. injection Hs1 as <- <-.
  apply wf_scene_setNode; [sim; lia| |done].
  unfold wf_node; sim. lia.
Qed.

Lemma withClonedManager_fields clone oldManager s :
  uniqueIdCounter (withClonedManager clone oldManager s)
  = S (uniqueIdCounter s) + length (getTargets s oldManager)
  ∧ nodeStore (withClonedManager clone oldManager s)
    = <[clone :=
          mkTransformNode (node_name (getNode s clone)) (parent (getNode s clone))
            (isMesh (getNode s clone)) (Some (uniqueIdCounter s))
            (skeleton (getNode s clone)) (isAnInstance (getNode s clone))]>
        (nodeStore s)
  ∧ skeletonStore (withClonedManager clone oldManager s) = skeletonStore s
  ∧ groupStore (withClonedManager clone oldManager s) = groupStore s.
Proof. done. Qed.

(** The state after the manager of the clone has been copied and its
    targets recorded. *)
Lemma inv_clonedManager s0 q clone oldManager :
  inv s0 q → uniqueIdCounter s0 ≤ clone →
  is_Some (nodeStore (scene q) !! clone) →
  let old := getTargets (scene q) oldManager in
  let new := seq (S (uniqueIdCounter (scene q))) (length old) in
  let q' := recordAll (zip old new)
              (set_scene (withClonedManager clone oldManager (scene q)) q) in
  inv s0 q' ∧ node_frame q q'
  ∧ ∃ n', nodeStore (scene q') !! clone = Some n'
      ∧ parent n' = parent (getNode (scene q) clone)
      ∧ node_name n' = node_name (getNode (scene q) clone)
      ∧ isMesh n' = isMesh (getNode (scene q) clone)
      ∧ isAnInstance n' = isAnInstance (getNode (scene q) clone).
Proof.
  intros Hinv HK [cn Hcn] old new q'.
  destruct Hinv as [Hc Hwf Ht Hinj Hon Hos Hog Hp].
  pose proof (wf_node_lt _ _ _ Hwf Hcn) as HcloneC.
  destruct (recordAll_frame (zip old new)
              (set_scene (withClonedManager clone oldManager (scene q)) q))
    as (Hscene & Hres & Hsw).
  fold q' in Hscene, Hres, Hsw. cbn [scene set_scene result alreadySwapped] in Hscene, Hres, Hsw.
  assert (length new = length old) as Hlen by (unfold new; by rewrite length_seq).
  destruct (recordAll_table (uniqueIdCounter s0) (S (uniqueIdCounter (scene q)))
              (zip old new)
              (set_scene (withClonedManager clone oldManager (scene q)) q))
    as [Ht' Hinj'].
  { cbn [convertionMap storeMap set_scene]. eapply table_ok_mono; [|done]. lia. }
  { done. }
  { lia. }
  { rewrite snd_zip by lia. by rewrite length_zip, Hlen, Nat.min_id. }
  rewrite length_zip, Hlen, Nat.min_id in Ht'. fold q' in Ht', Hinj'.
  assert (getNode (scene q) clone = cn) as Hget
    by (unfold getNode; by apply lookup_total_correct).
  destruct (withClonedManager_fields clone oldManager (scene q))
    as (Hcnt & Hnodes & Hsk & Hgr).
  fold old in Hcnt.
  split; [|split].
  - clearbody q'. split; rewrite ?Hscene, ?Hcnt, ?Hnodes, ?Hsk, ?Hgr; try done.
    + lia.
    + by apply wf_scene_withClonedManager.
    + intros i Hi. rewrite lookup_insert_ne by lia. by apply Hon.
    + intros i n r Hi HKi Hr.
      destruct (decide (i = clone)) as [->|Hne].
      * rewrite lookup_insert_eq in Hi. injection Hi as <-.
        cbn [parent] in Hr. rewrite Hget in Hr. by eapply Hp.
      * rewrite lookup_insert_ne in Hi by done. by eapply Hp.
  - unfold node_frame. rewrite Hscene, Hres, Hsw, Hcnt, Hsk, Hgr.
    split; [lia|]. split.
    { intros i n Hi. rewrite Hnodes. destruct (decide (i = clone)) as [->|Hne].
      + rewrite lookup_insert_eq. eexists; split; [done|].
        cbn [parent node_name isMesh isAnInstance]. rewrite Hget. by simplify_eq.
      + rewrite lookup_insert_ne by done. by exists n. }
    repeat split; try done.
    intros k Hk. subst q'. by apply recordAll_dom.
  - rewrite Hscene, Hnodes, lookup_insert_eq. eexists; split; [done|]. done.
Qed.

Lemma getNode_old s0 p i :
  inv s0 p → i < uniqueIdCounter s0 → getNode (scene p) i = getNode s0 i.
Proof.
  intros Hinv Hi. unfold getNode. rewrite !lookup_total_alt.
  by rewrite (inv_old_nodes _ _ Hinv i Hi).
Qed.

(** Cloning one node and reporting the pair to [onClone] never fails. *)
Lemma clone_step s0 p name src np :
  inv s0 p →
  (∀ q, match np with Some q => Some q | None => parent (getNode (scene p) src) end
        = Some q → uniqueIdCounter s0 ≤ q) →
  ∃ q', onClone src (uniqueIdCounter (scene p))
          (set_scene (cloneNode name src np (scene p)).2 p) = Ok q'
    ∧ inv s0 q' ∧ node_frame p q'
    ∧ uniqueIdCounter (scene p) < uniqueIdCounter (scene q')
    ∧ is_Some (convertionMap q' !! src)
    ∧ ∃ n, nodeStore (scene q') !! uniqueIdCounter (scene p) = Some n
        ∧ parent n = match np with
                     | Some q => Some q
                     | None => parent (getNode (scene p) src)
                     end
        ∧ node_name n = name
        ∧ isMesh n = isMesh (getNode (scene p) src)
        ∧ isAnInstance n = isAnInstance (getNode (scene p) src).
Proof.
  intros Hinv Hpar.
  destruct (inv_clone_record s0 p name src np Hinv Hpar)
    as (Hinv1 & Hfr1 & Hcnt1 & Hentry1 & Hnode1).
  set (C := uniqueIdCounter (scene p)) in *.
  set (q0 := set_scene (cloneNode name src np (scene p)).2 p) in *.
  set (c := mkTransformNode _ _ _ _ _ _) in Hnode1.
  assert (getNode (scene q0) C = c) as HgetC
    by (unfold getNode; by apply lookup_total_correct).
  destruct (isMesh c) eqn:Hmesh;
    [destruct (morphTargetManager c) as [mgr|] eqn:Hmgr|].
  - (* a mesh with morph targets *)
    assert (mgr < C) as Hlt.
    { subst c; cbn [morphTargetManager] in Hmgr.
      apply (wf_manager_lt (scene p) src); [apply Hinv|done]. }
    assert (morphTargetManager (getNode (scene q0) src) = Some mgr) as Hsrc.
    { destruct (decide (src = C)) as [->|Hne]; [by rewrite HgetC|].
      unfold getNode, q0, cloneNode. sim.
      rewrite lookup_total_insert_ne by done. exact Hmgr. }
    destruct (inv_clonedManager s0 (record src C q0) C mgr Hinv1)
      as (Hinv2 & Hfr2 & n' & Hn' & Hp' & Hname' & Hmesh' & Hinst');
      [apply Hinv|by eexists|].
    cbn [scene record] in Hinv2, Hfr2, Hn', Hp', Hname', Hmesh', Hinst'.
    eexists. split.
    { apply (onClone_manager src C q0 mgr mgr); rewrite ?HgetC; try done.
      change (uniqueIdCounter (scene q0)) with (S C). lia. }
    cbn [scene record] in Hcnt1.
    split; [exact Hinv2|]. split; [by eapply node_frame_trans|].
    split; [destruct Hfr2 as (Hle & _); cbn [scene record] in Hle; lia|].
    split; [destruct Hfr2 as (_ & _ & _ & _ & _ & _ & Hd); apply Hd; by eexists|].
    exists n'. rewrite HgetC in Hp', Hname', Hmesh', Hinst'. by subst c.
  - (* a mesh without morph targets *)
    exists (record src C q0). split; [apply onClone_plain; right; by rewrite HgetC|].
    split; [done|]. split; [done|]. split; [lia|]. split; [by eexists|].
    exists c. by subst c.
  - exists (record src C q0). split; [apply onClone_plain; left; by rewrite HgetC|].
    split; [done|]. split; [done|]. split; [lia|]. split; [by eexists|].
    exists c. by subst c.
Qed.

(** ** [instantiateHierarchy] below a parentless node *)

Lemma getChildTransformNodes_elem p s x :
  x ∈ getChildTransformNodes p s ↔
  x < uniqueIdCounter s ∧ ∃ n, nodeStore s !! x = Some n ∧ parent n = Some p.
Proof.
  unfold getChildTransformNodes. rewrite list_elem_of_filter, elem_of_seq.
  split.
  - intros [Hpar Hx]. split; [lia|].
    destruct (nodeStore s !! x) as [n|]; simpl in Hpar; [|done].
    exists n. split; [done|]. congruence.
  - intros [Hx (n & -> & Hn)]. split; [simpl; by rewrite Hn|lia].
Qed.

Lemma instantiateHierarchy_spec s0 :
  wf_scene s0 →
  ∀ fuel src np p d root,
    inv s0 p →
    src < uniqueIdCounter s0 → root < uniqueIdCounter s0 →
    parent (getNode s0 root) = None →
    nth_parent s0 d src = Some root →
    match np with
    | Some q => uniqueIdCounter s0 ≤ q
    | None => parent (getNode s0 src) = None
    end →
    uniqueIdCounter s0 ≤ d + fuel →
    ∃ p', instantiateHierarchy fuel src np onClone p
          = Ok (Some (uniqueIdCounter (scene p)), p')
      ∧ inv s0 p' ∧ node_frame p p'
      ∧ uniqueIdCounter (scene p) < uniqueIdCounter (scene p')
      ∧ is_Some (convertionMap p' !! src)
      ∧ ∃ n, nodeStore (scene p') !! uniqueIdCounter (scene p) = Some n
          ∧ parent n = np
          ∧ node_name n = "Clone of " +:+ node_name (getNode s0 src)
          ∧ isMesh n = isMesh (getNode s0 src).
Proof.
  intros Hwf0.
  assert (∀ i n, nodeStore s0 !! i = Some n → i < uniqueIdCounter s0) as Hdom
    by (intros i n; apply wf_node_lt; done).
  induction fuel as [|fuel IH]; intros src np p d root Hinv Hsrc Hroot Hr Hd Hnp Hfuel.
  { pose proof (nth_parent_bound s0 _ d src root Hdom Hroot Hr Hd). lia. }
  cbn [instantiateHierarchy].
  assert (cloneNode ("Clone of " +:+ node_name (getNode (scene p) src)) src np (scene p)
          = (uniqueIdCounter (scene p),
             (cloneNode ("Clone of " +:+ node_name (getNode (scene p) src)) src np
                (scene p)).2)) as -> by done.
  rewrite (getNode_old s0 p src Hinv Hsrc).
  assert (match np with Some q => Some q | None => parent (getNode (scene p) src) end = np)
    as Hparent.
  { rewrite (getNode_old s0 p src Hinv Hsrc). destruct np; [done|by rewrite Hnp]. }
  destruct (clone_step s0 p ("Clone of " +:+ node_name (getNode s0 src)) src np Hinv)
    as (p1 & Hrun1 & Hinv1 & Hfr1 & Hlt1 & Hentry1 & n1 & Hn1 & Hpar1 & Hname1 & Hmesh1 & _).
  { rewrite Hparent. intros q ->. done. }
  rewrite Hrun1. cbn [mbind outcome_bind].
  set (C := uniqueIdCounter (scene p)) in *.
  destruct (forEach_total
              (λ child q, '(_, q') ← instantiateHierarchy fuel child (Some C) onClone q;
                          Ok q')
              (λ _ q, inv s0 q ∧ node_frame p1 q)
              (getChildTransformNodes src (scene p1)) p1)
    as (p2 & Hrun2 & Hinv2 & Hfr2).
  { split; [done|apply node_frame_refl]. }
  { intros done x rest q Hsplit [Hinvq Hfrq].
    assert (x ∈ getChildTransformNodes src (scene p1)) as Hx
      by (rewrite Hsplit; set_solver).
    apply getChildTransformNodes_elem in Hx as (Hxlt & n & Hxn & Hxp).
    assert (x < uniqueIdCounter s0) as HxK.
    { destruct (decide (x < uniqueIdCounter s0)) as [|Hge]; [done|exfalso].
      pose proof (inv_parents _ _ Hinv1 x n src Hxn ltac:(lia) Hxp). lia. }
    rewrite (inv_old_nodes _ _ Hinv1 x HxK) in Hxn.
    destruct (IH x (Some C) q (S d) root Hinvq HxK Hroot Hr) as (q' & Hrun & Hinv' & Hfr' & _).
    { cbn [nth_parent]. by rewrite Hxn, Hxp. }
    { cbn. pose proof (inv_counter _ _ Hinv). lia. }
    { lia. }
    exists q'. rewrite Hrun. cbn [mbind outcome_bind]. split; [done|].
    split; [done|by eapply node_frame_trans]. }
  rewrite Hrun2. cbn [mbind outcome_bind]. exists p2.
  split; [done|]. split; [done|]. split; [by eapply node_frame_trans|].
  split; [destruct Hfr2 as (? & _); lia|].
  split; [destruct Hfr2 as (_ & _ & _ & _ & _ & _ & Hgrow); by apply Hgrow|].
  destruct Hfr2 as (_ & Hst & _).
  destruct (Hst C n1 Hn1) as (n2 & Hn2 & Hp2 & Hname2 & Hmesh2 & _).
  exists n2. split; [done|]. rewrite Hp2, Hname2, Hmesh2, Hpar1, Hname1, Hmesh1.
  rewrite Hparent. by rewrite (getNode_old s0 p src Hinv Hsrc).
Qed.

(** ** The loops over the transform nodes and the meshes *)

Lemma inv_initialPass s0 : wf_scene s0 → inv s0 (initialPass s0).
Proof.
  intros Hwf. split; cbn [initialPass scene convertionMap storeMap]; try done.
  intros i n q Hi HK. pose proof (wf_node_lt _ _ _ Hwf Hi). lia.
Qed.

Lemma inv_set_result s0 r p : inv s0 p → inv s0 (set_result r p).
Proof. intros [? ? ? ? ? ? ? ?]. by split. Qed.

Lemma rootClone_stable s0 s s' o cl :
  node_stable s s' → rootClone s0 s o cl → rootClone s0 s' o cl.
Proof.
  intros Hst (HK & n & Hn & Hp & Hname & Hmesh).
  destruct (Hst cl n Hn) as (n' & Hn' & Hp' & Hname' & Hmesh' & _).
  split; [done|]. exists n'. repeat split; congruence.
Qed.

Lemma instantiateRoot_skip s0 o p q :
  inv s0 p → o < uniqueIdCounter s0 →
  parent (getNode s0 o) = Some q → instantiateRoot o p = Ok p.
Proof.
  intros Hinv Ho Hq. unfold instantiateRoot.
  by rewrite (getNode_old s0 p o Hinv Ho), Hq.
Qed.

Lemma instantiateRoot_root s0 o p :
  wf_scene s0 → inv s0 p → o < uniqueIdCounter s0 →
  parent (getNode s0 o) = None →
  ∃ p', instantiateRoot o p = Ok p'
    ∧ inv s0 p' ∧ uniqueIdCounter (scene p) < uniqueIdCounter (scene p')
    ∧ node_stable (scene p) (scene p')
    ∧ skeletonStore (scene p') = skeletonStore (scene p)
    ∧ groupStore (scene p') = groupStore (scene p)
    ∧ alreadySwapped p' = alreadySwapped p
    ∧ result p' = InstantiatedEntries.push_rootNode (uniqueIdCounter (scene p)) (result p)
    ∧ rootClone s0 (scene p') o (uniqueIdCounter (scene p))
    ∧ is_Some (convertionMap p' !! o)
    ∧ (∀ k, is_Some (convertionMap p !! k) → is_Some (convertionMap p' !! k)).
Proof.
  intros Hwf0 Hinv Ho Hroot. unfold instantiateRoot.
  rewrite (getNode_old s0 p o Hinv Ho), Hroot.
  change (λ source clone : nat, onClone source clone) with onClone.
  destruct (instantiateHierarchy_spec s0 Hwf0 (uniqueIdCounter (scene p)) o None p 0 o
              Hinv Ho Ho Hroot eq_refl Hroot)
    as (p1 & Hrun & Hinv1 & (Hle & Hst & Hsk & Hgr & Hres & Hsw & Hdom) & Hlt & Hentry
        & n & Hn & Hp & Hname & Hmesh).
  { pose proof (inv_counter _ _ Hinv). lia. }
  rewrite Hrun. cbn [mbind outcome_bind].
  eexists. split; [done|]. sim.
  split; [by apply inv_set_result|]. rewrite Hres.
  split; [pose proof (inv_counter _ _ Hinv); lia|].
  repeat split; try done.
  - pose proof (inv_counter _ _ Hinv). lia.
  - by exists n.
Qed.

Lemma instantiateRoots_spec s0 l :
  wf_scene s0 → Forall (λ o, is_Some (nodeStore s0 !! o)) l →
  ∃ p, forEach instantiateRoot l (initialPass s0) = Ok p ∧ nodePhase_post s0 l p.
Proof.
  intros Hwf0 Hl.
  apply (forEach_total instantiateRoot (nodePhase_post s0)).
  { split; [by apply inv_initialPass|].
    unfold parentless. cbn. repeat split; try done; try constructor.
    intros o Ho. by apply elem_of_nil in Ho. }
  intros done x rest q Hsplit
    (Hinv & Hsk & Hgr & Hsw & Hrs & Hra & Hroots & Hlt & Hnd & Hentries).
  assert (x < uniqueIdCounter s0) as Hx.
  { rewrite Hsplit in Hl. apply Forall_app in Hl as [_ Hl].
    apply Forall_cons in Hl as [[n Hn] _]. by eapply wf_node_lt. }
  unfold nodePhase_post, parentless in *. rewrite filter_app.
  destruct (parent (getNode s0 x)) as [r|] eqn:Hpx.
  - exists q. split; [by eapply instantiateRoot_skip|].
    rewrite filter_cons_False by (by rewrite Hpx). rewrite filter_nil, app_nil_r.
    split; [done|]. by repeat split.
  - destruct (instantiateRoot_root s0 x q Hwf0 Hinv Hx Hpx)
      as (q' & Hrun & Hinv' & Hcnt & Hst & Hsk' & Hgr' & Hsw' & Hres & Hclone
          & Hentry & Hdom).
    exists q'. split; [done|].
    rewrite filter_cons_True by done. rewrite filter_nil.
    rewrite Hsk', Hgr', Hsw', Hres. sim.
    split; [done|]. repeat split; try done.
    + apply Forall2_app; [|by constructor].
      eapply Forall2_impl; [exact Hroots|]. intros o cl. by apply rootClone_stable.
    + apply Forall_app. split; [|by constructor].
      eapply Forall_impl; [exact Hlt|]. simpl; intros; lia.
    + apply NoDup_app. split; [done|]. split; [|apply NoDup_singleton].
      intros cl Hcl ->%list_elem_of_singleton.
      pose proof (proj1 (Forall_forall _ _) Hlt _ Hcl). simpl in *. lia.
    + intros o [Ho|Ho%list_elem_of_singleton]%elem_of_app; [by apply Hdom, Hentries|].
      by subst o.
Qed.

Lemma nodePhase_spec c s0 :
  wf_scene s0 → wf_container c s0 →
  ∃ p, nodePhase c (initialPass s0) = Ok p
    ∧ nodePhase_post s0 (transformNodes c ++ meshes c) p.
Proof.
  intros Hwf0 (Hnodes & _).
  destruct (instantiateRoots_spec s0 _ Hwf0 Hnodes) as (p & Hrun & Hpost).
  exists p. split; [|done]. unfold nodePhase.
  rewrite forEach_app in Hrun. exact Hrun.
Qed.

(** ** Binding the cloned meshes to a cloned skeleton *)

Lemma lookupClone_cm s0 p i :
  inv s0 p → lookupClone p i = convertionMap p !! i.
Proof.
  intros Hinv. unfold lookupClone.
  destruct (convertionMap p !! i) as [v|] eqn:Hv; [|done]. simpl.
  by destruct (inv_table _ _ Hinv i v Hv) as (_ & _ & ->).
Qed.

Lemma lookupClone_ext p p' i :
  convertionMap p' = convertionMap p → storeMap p' = storeMap p →
  lookupClone p' i = lookupClone p i.
Proof. intros Hc Hs. unfold lookupClone. by rewrite Hc, Hs. Qed.

Lemma swapBone_ext p p' b :
  convertionMap p' = convertionMap p → storeMap p' = storeMap p →
  swapBone p' b = swapBone p b.
Proof.
  intros Hc Hs. unfold swapBone.
  destruct (_linkedTransformNode b); [|done]. by rewrite (lookupClone_ext p p').
Qed.

Lemma clonedSkeleton_ext s0 c p p' sk :
  convertionMap p' = convertionMap p → storeMap p' = storeMap p →
  clonedSkeleton s0 c p' sk = clonedSkeleton s0 c p sk.
Proof.
  intros Hc Hs. unfold clonedSkeleton. f_equal.
  - destruct (overrideMesh (getSkeleton s0 sk)); [|done]. simpl.
    by apply lookupClone_ext.
  - case_decide; [|done]. apply list_fmap_ext. intros i b _. by apply swapBone_ext.
Qed.

Lemma inv_setSkeleton s0 r C k :
  inv s0 r → uniqueIdCounter s0 ≤ C → C < uniqueIdCounter (scene r) →
  inv s0 (set_scene (setSkeleton C k (scene r)) r).
Proof.
  intros [Hc Hwf Ht Hinj Hon Hos Hog Hp] HK HC. split; sim; try done.
  - by apply wf_scene_setSkeleton.
  - intros i Hi. rewrite lookup_insert_ne by lia. by apply Hos.
Qed.

Lemma inv_set_alreadySwapped s0 l p : inv s0 p → inv s0 (set_alreadySwapped l p).
Proof. intros [? ? ? ? ? ? ? ?]. by split. Qed.

Lemma inv_bindCopy s0 r copy clone :
  inv s0 r → uniqueIdCounter s0 ≤ copy → copy < uniqueIdCounter (scene r) →
  inv s0 (bindCopy copy clone r) ∧ node_stable (scene r) (scene (bindCopy copy clone r)).
Proof.
  intros Hinv HK HC. pose proof Hinv as [Hc Hwf Ht Hinj Hon Hos Hog Hp].
  unfold bindCopy. split.
  - split; sim; try done.
    + apply wf_scene_setNode; [done| |done].
      pose proof (wf_getNode (scene r) copy Hwf) as Hn. unfold wf_node in *. by sim.
    + intros i Hi. rewrite lookup_insert_ne by lia. by apply Hon.
    + intros i n q Hi HKi Hq. destruct (decide (i = copy)) as [->|Hne].
      * rewrite lookup_insert_eq in Hi. injection Hi as <-. sim.
        unfold getNode in Hq. rewrite lookup_total_alt in Hq.
        destruct (nodeStore (scene r) !! copy) as [n|] eqn:Hn; simpl in Hq; [|done].
        by eapply Hp.
      * rewrite lookup_insert_ne in Hi by done. by eapply Hp.
  - intros i n Hi. sim. destruct (decide (i = copy)) as [->|Hne].
    + rewrite lookup_insert_eq. eexists; split; [done|]. sim.
      unfold getNode. by rewrite (lookup_total_correct _ _ _ Hi).
    + rewrite lookup_insert_ne by done. by exists n.
Qed.

Lemma bindMesh_unbound s0 s C m r :
  inv s0 r → m < uniqueIdCounter s0 → ¬ boundTo s0 s m →
  bindMesh s C m r = Ok r.
Proof.
  intros Hinv Hm Hnb. unfold bindMesh. rewrite (getNode_old s0 r m Hinv Hm).
  destruct (bool_decide (skeleton (getNode s0 m) = Some s)) eqn:Hsk; [|done].
  destruct (isAnInstance (getNode s0 m)) eqn:Hi; [done|].
  exfalso. apply Hnb. split; [by apply bool_decide_eq_true in Hsk|done].
Qed.

Lemma bindMesh_bound s0 s C m r r' :
  inv s0 r → m < uniqueIdCounter s0 → boundTo s0 s m →
  bindMesh s C m r = Ok r' →
  ∃ copy, convertionMap r !! m = Some copy
    ∧ r' = if decide (C ∈ alreadySwapped r) then bindCopy copy C r
           else swapBones C (set_alreadySwapped (alreadySwapped r ++ [C])
                               (bindCopy copy C r)).
Proof.
  intros Hinv Hm [Hsk Hi]. unfold bindMesh.
  rewrite (getNode_old s0 r m Hinv Hm), Hsk, Hi, bool_decide_eq_true_2 by done.
  cbn [andb negb]. rewrite (lookupClone_cm s0 r m Hinv).
  destruct (convertionMap r !! m) as [copy|]; [|done].
  fold (bindCopy copy C r).
  change (alreadySwapped (bindCopy copy C r)) with (alreadySwapped r).
  intros Hrun. exists copy. split; [done|].
  destruct (decide (C ∈ alreadySwapped r)) as [Hin|Hnin].
  - rewrite bool_decide_eq_true_2 in Hrun by done. congruence.
  - rewrite bool_decide_eq_false_2 in Hrun by done. congruence.
Qed.

Lemma bindLoop_spec s0 s C q ms r :
  inv s0 q → Forall (λ m, m < uniqueIdCounter s0) ms →
  uniqueIdCounter s0 ≤ C → C < uniqueIdCounter (scene q) →
  C ∉ alreadySwapped q →
  forEach (bindMesh s C) ms q = Ok r → bindLoop_post s0 s C q ms r.
Proof.
  intros Hinvq Hms HKC HCq HCas.
  apply (forEach_ind (bindMesh s C) (bindLoop_post s0 s C q)).
  { unfold bindLoop_post. rewrite !decide_False by (by intros ?%Exists_nil).
    split; [done|]. repeat split; try done.
    - apply node_stable_refl.
    - intros m Hm. by apply elem_of_nil in Hm. }
  intros done x rest r0 r1 Hsplit
    (Hinv & Hcm & Hst & Hres & Hcnt & Hgr & Hstab & HN2 & HN3 & HK1 & HK2) Hrun.
  assert (x < uniqueIdCounter s0) as Hx.
  { rewrite Hsplit in Hms. apply Forall_app in Hms as [_ Hms].
    by apply Forall_cons in Hms as [? _]. }
  destruct (decide (boundTo s0 s x)) as [Hb|Hnb].
  2:{ rewrite (bindMesh_unbound s0 s C x r0 Hinv Hx Hnb) in Hrun. injection Hrun as <-.
      assert (Exists (boundTo s0 s) (done ++ [x]) ↔ Exists (boundTo s0 s) done) as Hex.
      { rewrite Exists_app, Exists_cons, Exists_nil. tauto. }
      unfold bindLoop_post.
      rewrite !(decide_ext _ _ _ _ Hex).
      split; [done|]. repeat split; try done.
      - intros m [Hm|Hm%list_elem_of_singleton]%elem_of_app Hbm; [by apply HN2|].
        by subst m.
      - intros i Hi. apply HN3. intros m Hm. apply Hi. apply elem_of_app. by left. }
  destruct (bindMesh_bound s0 s C x r0 r1 Hinv Hx Hb Hrun) as (copy & Hcopy & Hr1).
  destruct (inv_table _ _ Hinv x copy Hcopy) as (HKcopy & Hcopylt & _).
  destruct (inv_bindCopy s0 r0 copy C Hinv HKcopy Hcopylt) as [Hinvb Hstabb].
  assert (Exists (boundTo s0 s) (done ++ [x])) as Hex
    by (rewrite Exists_app, Exists_cons; tauto).
  assert (nodeStore (scene r1)
          = <[copy := mkTransformNode (node_name (getNode (scene r0) copy))
                        (parent (getNode (scene r0) copy))
                        (isMesh (getNode (scene r0) copy))
                        (morphTargetManager (getNode (scene r0) copy)) (Some C)
                        (isAnInstance (getNode (scene r0) copy))]>
              (nodeStore (scene r0))) as Hnodes.
  { rewrite Hr1. by destruct (decide (C ∈ alreadySwapped r0)). }
  assert (convertionMap r1 = convertionMap q ∧ storeMap r1 = storeMap q
          ∧ result r1 = result q
          ∧ uniqueIdCounter (scene r1) = uniqueIdCounter (scene q)
          ∧ groupStore (scene r1) = groupStore (scene q)) as (Hcm1 & Hst1 & Hres1 & Hcnt1 & Hgr1).
  { rewrite Hr1. by destruct (decide (C ∈ alreadySwapped r0)). }
  assert (node_stable (scene q) (scene r1)) as Hstab1.
  { eapply node_stable_trans; [exact Hstab|].
    rewrite Hr1. by destruct (decide (C ∈ alreadySwapped r0)). }
  assert (inv s0 r1) as Hinv1.
  { rewrite Hr1. destruct (decide (C ∈ alreadySwapped r0)); [done|].
    unfold swapBones. apply inv_setSkeleton; [|done|].
    - by apply inv_set_alreadySwapped.
    - change (uniqueIdCounter (scene (set_alreadySwapped _ (bindCopy copy C r0))))
        with (uniqueIdCounter (scene r0)). lia. }
  unfold bindLoop_post. rewrite !decide_True by done.
  split; [done|]. repeat split; try done.
  - intros m [Hm|Hm%list_elem_of_singleton]%elem_of_app Hbm.
    + destruct (HN2 m Hm Hbm) as (copy' & Hc' & Hskel). exists copy'. split; [done|].
      unfold getNode. rewrite Hnodes.
      destruct (decide (copy' = copy)) as [->|Hne];
        [by rewrite lookup_total_insert_eq|by rewrite lookup_total_insert_ne].
    + subst m. exists copy. rewrite <-Hcm. split; [done|].
      unfold getNode. rewrite Hnodes. by rewrite lookup_total_insert_eq.
  - intros i Hi. rewrite Hnodes.
    assert (i ≠ copy) as Hne.
    { intros ->. apply (Hi x); [set_solver|done|by rewrite <-Hcm]. }
    rewrite lookup_insert_ne by done. apply HN3.
    intros m Hm. apply Hi. set_solver.
  - rewrite Hr1. destruct (decide (C ∈ alreadySwapped r0)) as [Hin|Hnin].
    + destruct (decide (Exists (boundTo s0 s) done)) as [|_]; [done|].
      rewrite HK2 in Hin. done.
    + destruct (decide (Exists (boundTo s0 s) done)) as [Hd|_].
      { rewrite HK2 in Hnin. exfalso. apply Hnin. set_solver. }
      unfold swapBones. sim.
      assert (getSkeleton (scene (bindCopy copy C r0)) C = getSkeleton (scene q) C)
        as -> by (unfold getSkeleton, bindCopy; sim; by rewrite HK1).
      change (skeletonStore (scene (bindCopy copy C r0)))
        with (skeletonStore (scene r0)).
      rewrite HK1. f_equal. unfold swappedSkeleton. f_equal.
      apply list_fmap_ext. intros j b _. apply swapBone_ext; sim; done.
  - rewrite Hr1. destruct (decide (C ∈ alreadySwapped r0)) as [Hin|Hnin].
    + destruct (decide (Exists (boundTo s0 s) done)) as [|_]; [by sim|].
      rewrite HK2 in Hin. done.
    + destruct (decide (Exists (boundTo s0 s) done)) as [Hd|_].
      { rewrite HK2 in Hnin. exfalso. apply Hnin. set_solver. }
      unfold swapBones. sim. by rewrite HK2.
Qed.

(** ** The loop over the skeletons *)

Lemma getSkeleton_old s0 p i :
  inv s0 p → i < uniqueIdCounter s0 → getSkeleton (scene p) i = getSkeleton s0 i.
Proof.
  intros Hinv Hi. unfold getSkeleton. rewrite !lookup_total_alt.
  by rewrite (inv_old_skeletons _ _ Hinv i Hi).
Qed.

Lemma instantiateSkeleton_unfold c s p :
  instantiateSkeleton c s p =
  p3 ← forEach (bindMesh s (uniqueIdCounter (scene p))) (meshes c) (skeletonCloned s p);
  Ok (set_result
        (InstantiatedEntries.push_skeleton (uniqueIdCounter (scene p)) (result p3)) p3).
Proof.
  unfold instantiateSkeleton, skeletonCloned, Skeleton_clone.
  by destruct (overrideMesh (getSkeleton (scene p) s)).
Qed.

Lemma skeletonCloned_spec s0 s p :
  inv s0 p → s < uniqueIdCounter s0 →
  let q := skeletonCloned s p in
  inv s0 q
  ∧ convertionMap q = convertionMap p ∧ storeMap q = storeMap p
  ∧ result q = result p ∧ alreadySwapped q = alreadySwapped p
  ∧ uniqueIdCounter (scene q) = S (uniqueIdCounter (scene p))
  ∧ nodeStore (scene q) = nodeStore (scene p)
  ∧ groupStore (scene q) = groupStore (scene p)
  ∧ skeletonStore (scene q)
    = <[uniqueIdCounter (scene p) :=
          mkSkeleton ("Clone of " +:+ skeleton_name (getSkeleton s0 s))
            (overrideMesh (getSkeleton s0 s) ≫= lookupClone p)
            (bones (getSkeleton s0 s))]> (skeletonStore (scene p)).
Proof.
  intros Hinv Hs q. pose proof (inv_counter _ _ Hinv) as HK.
  assert (inv s0 (set_scene (set_uniqueIdCounter (S (uniqueIdCounter (scene p))) (scene p)) p))
    as Hinv0.
  { destruct Hinv as [Hc Hwf Ht Hinj Hon Hos Hog Hp]. split; sim; try done.
    - lia.
    - apply wf_scene_counter; [lia|done].
    - eapply table_ok_mono; [|done]. lia. }
  subst q. unfold skeletonCloned, Skeleton_clone.
  rewrite (getSkeleton_old s0 p s Hinv Hs).
  destruct (overrideMesh (getSkeleton s0 s)) as [om|] eqn:Hom.
  - split.
    + apply (inv_setSkeleton s0 (set_scene _ p)); [|done|sim; lia].
      apply (inv_setSkeleton s0 (set_scene _ p) _ _ Hinv0); [done|sim; lia].
    + sim. repeat split; try done.
      unfold getSkeleton; sim. rewrite lookup_total_insert_eq. sim.
      by rewrite insert_insert_eq.
  - split.
    + apply (inv_setSkeleton s0 (set_scene _ p) _ _ Hinv0); [done|sim; lia].
    + sim. repeat split; done.
Qed.

Lemma instantiateSkeleton_step s0 c q0 done x r r' :
  Forall (λ m, m < uniqueIdCounter s0) (meshes c) →
  x < uniqueIdCounter s0 →
  skeletonPhase_post s0 c q0 done r →
  instantiateSkeleton c x r = Ok r' →
  skeletonPhase_post s0 c q0 (done ++ [x]) r'.
Proof.
  intros Hms Hx
    (Hinv & Hcm & Hst & Hstab & Hgr & Hroots & Hanim & Hsk & Hnd & Hlt & Hmem & Hbind)
    Hrun.
  rewrite instantiateSkeleton_unfold in Hrun.
  apply bind_Ok in Hrun as (r1 & Hloop & [= <-]).
  set (C := uniqueIdCounter (scene r)) in *.
  destruct (skeletonCloned_spec s0 x r Hinv Hx)
    as (Hinvq & Hcmq & Hstq & Hresq & Hswq & Hcntq & Hnodesq & Hgrq & Hskq).
  fold C in Hcntq, Hskq.
  pose proof (inv_counter _ _ Hinv) as HKC. fold C in HKC.
  assert (C ∉ alreadySwapped r) as HCas.
  { intros Hin. pose proof (proj1 (Forall_forall _ _) Hlt _ Hin) as H. simpl in H.
    fold C in H. lia. }
  apply (bindLoop_spec s0 x C (skeletonCloned x r) (meshes c) r1 Hinvq Hms HKC) in Hloop;
    [|rewrite Hcntq; lia|by rewrite Hswq].
  destruct Hloop
    as (Hinv1 & Hcm1 & Hst1 & Hres1 & Hcnt1 & Hgr1 & Hstab1 & HN2 & HN3 & HK1 & HK2).
  rewrite Hcntq in Hcnt1. rewrite Hswq in HK2. rewrite Hcmq in HN2, HN3, Hcm1.
  rewrite Hstq in Hst1. rewrite Hresq in Hres1. rewrite Hnodesq in HN3.
  assert (length done = length (InstantiatedEntries.skeletons (result r))) as Hlen
    by (by eapply Forall2_length).
  assert (∀ i, i ≠ C → skeletonStore (scene r1) !! i = skeletonStore (scene r) !! i)
    as Hskother.
  { intros i Hi. rewrite HK1, Hskq. case_decide; by rewrite !lookup_insert_ne. }
  assert (skeletonStore (scene r1) !! C = Some (clonedSkeleton s0 c q0 x)) as HskC.
  { rewrite HK1. unfold clonedSkeleton, hasBoundMesh.
    assert (getSkeleton (scene (skeletonCloned x r)) C
            = mkSkeleton ("Clone of " +:+ skeleton_name (getSkeleton s0 x))
                (overrideMesh (getSkeleton s0 x) ≫= lookupClone r)
                (bones (getSkeleton s0 x))) as ->
      by (unfold getSkeleton; by rewrite Hskq, lookup_total_insert_eq).
    rewrite Hskq.
    assert (overrideMesh (getSkeleton s0 x) ≫= lookupClone r
            = overrideMesh (getSkeleton s0 x) ≫= lookupClone q0) as ->.
    { destruct (overrideMesh (getSkeleton s0 x)); [|done]. simpl.
      by apply lookupClone_ext. }
    destruct (decide (Exists (boundTo s0 x) (meshes c))).
    - rewrite lookup_insert_eq. unfold swappedSkeleton. sim. do 2 f_equal.
      apply list_fmap_ext. intros j b _. apply swapBone_ext; congruence.
    - by rewrite lookup_insert_eq. }
  unfold skeletonPhase_post. sim. rewrite Hres1. sim.
  split; [by apply inv_set_result|].
  split; [congruence|]. split; [congruence|].
  split.
  { eapply node_stable_trans; [exact Hstab|].
    intros i n Hi. apply Hstab1. by rewrite Hnodesq. }
  split; [congruence|]. split; [done|]. split; [done|].
  split.
  { apply Forall2_app.
    - eapply Forall2_impl; [exact Hsk|]. intros sk cl (HK & Hcl & Hlook). fold C in Hcl.
      rewrite Hcnt1. split; [done|]. split; [lia|].
      rewrite Hskother by lia. done.
    - constructor; [|constructor]. rewrite Hcnt1. split; [done|]. split; [lia|done]. }
  split.
  { rewrite HK2. case_decide; [|done]. apply NoDup_app. split; [done|].
    split; [|apply NoDup_singleton]. by intros cl Hcl ->%list_elem_of_singleton. }
  split.
  { rewrite HK2, Hcnt1. case_decide.
    - apply Forall_app. split; [|constructor; [lia|constructor]].
      eapply Forall_impl; [exact Hlt|]. simpl. fold C. intros; lia.
    - eapply Forall_impl; [exact Hlt|]. simpl. fold C. intros; lia. }
  split.
  { intros j sk cl Hj Hcl.
    destruct (decide (j < length done)) as [Hjlt|Hjge].
    - rewrite lookup_app_l in Hj by done. rewrite lookup_app_l in Hcl by lia.
      rewrite <-(Hmem j sk cl Hj Hcl).
      assert (cl ≠ C) as Hne.
      { destruct (Forall2_lookup_lr _ _ _ _ _ _ Hsk Hj Hcl) as (_ & Hc & _).
        fold C in Hc. lia. }
      rewrite HK2. case_decide; [|done]. rewrite elem_of_app, list_elem_of_singleton. tauto.
    - assert (j = length done) as ->.
      { apply lookup_lt_Some in Hj. rewrite length_app in Hj. simpl in Hj. lia. }
      rewrite list_lookup_middle in Hj by done. injection Hj as <-.
      rewrite Hlen, list_lookup_middle in Hcl by done. injection Hcl as <-.
      rewrite HK2. unfold hasBoundMesh. case_decide as Hex.
      + split; [done|]. intros _. apply elem_of_app. right. by left.
      + split; [done|tauto]. }
  intros sk m Hskin Hm Hb.
  destruct (decide (sk = x)) as [->|Hne].
  - destruct (HN2 m Hm Hb) as (copy & Hcopy & Hskel).
    exists copy, (length done), C. rewrite Hcm1.
    split; [done|]. split; [by apply list_lookup_middle|].
    split; [rewrite Hlen; by apply list_lookup_middle|done].
  - apply elem_of_app in Hskin as [Hskin|Hskin%list_elem_of_singleton]; [|done].
    destruct (Hbind sk m Hskin Hm Hb) as (copy & j & cl & Hcopy & Hj & Hcl & Hskel).
    exists copy, j, cl. rewrite Hcm1.
    split; [done|]. split; [by apply lookup_app_l_Some|].
    split; [by apply lookup_app_l_Some|].
    unfold getNode in *. rewrite !lookup_total_alt in *.
    rewrite HN3; [done|].
    intros m' Hm' Hb' Hm'c.
    assert (m' = m) as ->
      by (eapply (inv_inj _ _ Hinv); [exact Hm'c|exact Hcopy]).
    destruct Hb as [Hb _], Hb' as [Hb' _]. congruence.
Qed.

Lemma skeletonPhase_spec s0 c q0 l r :
  wf_scene s0 →
  Forall (λ m, m < uniqueIdCounter s0) (meshes c) →
  Forall (λ sk, sk < uniqueIdCounter s0) l →
  inv s0 q0 → alreadySwapped q0 = [] →
  InstantiatedEntries.skeletons (result q0) = [] →
  forEach (instantiateSkeleton c) l q0 = Ok r →
  skeletonPhase_post s0 c q0 l r.
Proof.
  intros Hwf0 Hms Hsks Hinv Hsw Hres.
  apply (forEach_ind (instantiateSkeleton c) (skeletonPhase_post s0 c q0)).
  { unfold skeletonPhase_post. rewrite Hsw, Hres.
    split; [done|]. repeat split; try done; try constructor.
    - apply node_stable_refl.
    - intros sk m Hin. by apply elem_of_nil in Hin. }
  intros done x rest q q' Hsplit Hpost Hrun.
  eapply instantiateSkeleton_step; try done.
  rewrite Hsplit in Hsks. apply Forall_app in Hsks as [_ Hsks].
  by apply Forall_cons in Hsks as [? _].
Qed.

Lemma wf_container_lt c s0 :
  wf_scene s0 → wf_container c s0 →
  Forall (λ o, o < uniqueIdCounter s0) (transformNodes c)
  ∧ Forall (λ m, m < uniqueIdCounter s0) (meshes c)
  ∧ Forall (λ sk, sk < uniqueIdCounter s0) (skeletons c)
  ∧ Forall (λ g, g < uniqueIdCounter s0) (animationGroups c).
Proof.
  intros (Hn & _ & Hk & Hg) (Hnodes & Hsks & Hgs).
  apply Forall_app in Hnodes as [Htn Hms].
  repeat split.
  - eapply Forall_impl; [exact Htn|]. intros o [n Ho]. by destruct (Hn o n Ho).
  - eapply Forall_impl; [exact Hms|]. intros o [n Ho]. by destruct (Hn o n Ho).
  - eapply Forall_impl; [exact Hsks|]. intros o [n Ho]. by apply (Hk o n Ho).
  - eapply Forall_impl; [exact Hgs|]. intros o [n Ho]. by apply (Hg o n Ho).
Qed.

(** ** When the loop over the skeletons completes *)

Lemma bindMesh_not_OutOfFuel s C m p : bindMesh s C m p ≠ OutOfFuel.
Proof.
  unfold bindMesh.
  destruct (bool_decide _ && negb _); [|done].
  destruct (lookupClone p m); [|done].
  by destruct (bool_decide _).
Qed.

Lemma instantiateSkeleton_not_OutOfFuel c s p : instantiateSkeleton c s p ≠ OutOfFuel.
Proof.
  rewrite instantiateSkeleton_unfold.
  destruct (forEach _ _ _) as [q| |] eqn:Hloop; simpl; [done|done|].
  by apply forEach_not_OutOfFuel in Hloop; [|apply bindMesh_not_OutOfFuel].
Qed.

Lemma bindMesh_progress s0 s C m r :
  inv s0 r → m < uniqueIdCounter s0 →
  (boundTo s0 s m → is_Some (convertionMap r !! m)) →
  ∃ r', bindMesh s C m r = Ok r'.
Proof.
  intros Hinv Hm Hentry.
  destruct (decide (boundTo s0 s m)) as [Hb|Hnb];
    [|exists r; by eapply bindMesh_unbound].
  destruct (Hentry Hb) as [copy Hcopy]. destruct Hb as [Hsk Hi].
  unfold bindMesh.
  rewrite (getNode_old s0 r m Hinv Hm), Hsk, Hi, bool_decide_eq_true_2 by done.
  cbn [andb negb]. rewrite (lookupClone_cm s0 r m Hinv), Hcopy.
  destruct (bool_decide _); eauto.
Qed.

Lemma instantiateSkeleton_progress s0 c s p :
  inv s0 p → Forall (λ m, m < uniqueIdCounter s0) (meshes c) →
  s < uniqueIdCounter s0 →
  Forall (λ cl, cl < uniqueIdCounter (scene p)) (alreadySwapped p) →
  (∀ m, m ∈ meshes c → boundTo s0 s m → is_Some (convertionMap p !! m)) →
  ∃ p', instantiateSkeleton c s p = Ok p'.
Proof.
  intros Hinv Hms Hs Hlt Hentries. rewrite instantiateSkeleton_unfold.
  destruct (skeletonCloned_spec s0 s p Hinv Hs)
    as (Hinvq & Hcmq & Hstq & Hresq & Hswq & Hcntq & Hnodesq & Hgrq & Hskq).
  pose proof (inv_counter _ _ Hinv) as HK.
  assert (uniqueIdCounter (scene p) ∉ alreadySwapped (skeletonCloned s p)) as HCas.
  { rewrite Hswq. intros Hin.
    pose proof (proj1 (Forall_forall _ _) Hlt _ Hin) as H. simpl in H. lia. }
  destruct (forEach_progress (bindMesh s (uniqueIdCounter (scene p))) (meshes c)
              (skeletonCloned s p)) as (r & ->); [|simpl; eauto].
  intros done x rest q Hsplit Hq.
  assert (Forall (λ m, m < uniqueIdCounter s0) done) as Hdone.
  { rewrite Hsplit in Hms. by apply Forall_app in Hms as [? _]. }
  apply (bindLoop_spec s0 s _ _ done q Hinvq Hdone HK) in Hq;
    [|rewrite Hcntq; lia|done].
  destruct Hq as (Hinv' & Hcm' & _).
  apply (bindMesh_progress s0); [done| |].
  - rewrite Hsplit in Hms. apply Forall_app in Hms as [_ Hms].
    by apply Forall_cons in Hms as [? _].
  - intros Hb. rewrite Hcm', Hcmq. apply Hentries; [|done].
    rewrite Hsplit. apply elem_of_app. right. by left.
Qed.

Lemma skeletonPhase_progress s0 c q0 :
  wf_scene s0 → wf_container c s0 →
  inv s0 q0 → alreadySwapped q0 = [] →
  InstantiatedEntries.skeletons (result q0) = [] →
  (∀ sk m, sk ∈ skeletons c → m ∈ meshes c → boundTo s0 sk m →
     is_Some (convertionMap q0 !! m)) →
  ∃ r, forEach (instantiateSkeleton c) (skeletons c) q0 = Ok r.
Proof.
  intros Hwf0 Hwfc Hinv Hsw Hres Hentries.
  destruct (wf_container_lt c s0 Hwf0 Hwfc) as (_ & Hms & Hsks & _).
  apply forEach_progress. intros done x rest q Hsplit Hq.
  assert (Forall (λ sk, sk < uniqueIdCounter s0) done) as Hdone.
  { rewrite Hsplit in Hsks. by apply Forall_app in Hsks as [? _]. }
  apply (skeletonPhase_spec s0 c q0 done q Hwf0 Hms Hdone Hinv Hsw Hres) in Hq.
  destruct Hq as (Hinvq & Hcmq & _ & _ & _ & _ & _ & _ & _ & Hlt & _).
  apply (instantiateSkeleton_progress s0); try done.
  - rewrite Hsplit in Hsks. apply Forall_app in Hsks as [_ Hsks].
    by apply Forall_cons in Hsks as [? _].
  - intros m Hm Hb. rewrite Hcmq. apply (Hentries x); [|done|done].
    rewrite Hsplit. apply elem_of_app. right. by left.
Qed.

(** ** The loop over the animation groups *)

Lemma getAnimationGroup_old s0 p i :
  inv s0 p → i < uniqueIdCounter s0 →
  getAnimationGroup (scene p) i = getAnimationGroup s0 i.
Proof.
  intros Hinv Hi. unfold getAnimationGroup. rewrite !lookup_total_alt.
  by rewrite (inv_old_groups _ _ Hinv i Hi).
Qed.

Lemma targetConverter_ext p p' t :
  convertionMap p' = convertionMap p → storeMap p' = storeMap p →
  targetConverter p' t = targetConverter p t.
Proof. intros Hc Hs. unfold targetConverter. by rewrite (lookupClone_ext p p'). Qed.

Lemma clonedGroup_ext s0 p p' o :
  convertionMap p' = convertionMap p → storeMap p' = storeMap p →
  clonedGroup s0 p' o = clonedGroup s0 p o.
Proof.
  intros Hc Hs. unfold clonedGroup. f_equal.
  apply list_fmap_ext. intros i [a t] _. simpl. f_equal. by apply targetConverter_ext.
Qed.

Lemma instantiateAnimationGroup_step s0 q0 done x r r' :
  x < uniqueIdCounter s0 →
  animationPhase_post s0 q0 done r →
  instantiateAnimationGroup x r = Ok r' →
  animationPhase_post s0 q0 (done ++ [x]) r'.
Proof.
  intros Hx (Hinv & Hcm & Hst & Hnodes & Hsk & Hsw & Hroots & Hsks & Hgroups) Hrun.
  unfold instantiateAnimationGroup, AnimationGroup_clone in Hrun.
  injection Hrun as <-. rewrite (getAnimationGroup_old s0 r x Hinv Hx).
  pose proof (inv_counter _ _ Hinv) as HK.
  unfold animationPhase_post. sim.
  split.
  { pose proof Hinv as [Hc Hwf Ht Hinj Hon Hos Hog Hp]. split; sim; try done.
    - lia.
    - by apply wf_scene_addGroup.
    - eapply table_ok_mono; [|done]. lia.
    - intros i Hi. rewrite lookup_insert_ne by lia. by apply Hog. }
  repeat split; try done.
  apply Forall2_app.
  - eapply Forall2_impl; [exact Hgroups|]. intros o cl (? & ? & Hlook).
    split; [done|]. split; [lia|]. by rewrite lookup_insert_ne by lia.
  - constructor; [|constructor]. split; [done|]. split; [lia|].
    rewrite lookup_insert_eq. f_equal. unfold clonedGroup. f_equal.
    apply list_fmap_ext. intros i [a t] _. simpl. f_equal.
    by apply targetConverter_ext.
Qed.

Lemma animationPhase_spec s0 c q0 :
  wf_scene s0 → wf_container c s0 →
  inv s0 q0 → InstantiatedEntries.animationGroups (result q0) = [] →
  ∃ r, forEach instantiateAnimationGroup (animationGroups c) q0 = Ok r
    ∧ animationPhase_post s0 q0 (animationGroups c) r.
Proof.
  intros Hwf0 (_ & _ & Hgs) Hinv Hres.
  apply (forEach_total instantiateAnimationGroup (animationPhase_post s0 q0)).
  { unfold animationPhase_post. rewrite Hres. split; [done|].
    repeat split; try done. }
  intros done x rest q Hsplit Hpost.
  assert (∃ q', instantiateAnimationGroup x q = Ok q') as [q' Hrun]
    by (unfold instantiateAnimationGroup, AnimationGroup_clone; eauto).
  exists q'. split; [done|].
  eapply instantiateAnimationGroup_step; try done.
  rewrite Hsplit in Hgs. apply Forall_app in Hgs as [_ Hgs].
  apply Forall_cons in Hgs as [[g Hg] _].
  destruct Hwf0 as (_ & _ & _ & Hwg). by apply (Hwg x g).
Qed.

(** ** The whole pass *)

(** The node phase always completes; a pass fails only in the loop over the
    skeletons. *)
Lemma instantiatePass_unfold c s0 :
  wf_scene s0 → wf_container c s0 →
  ∃ p2, nodePhase c (initialPass s0) = Ok p2
    ∧ nodePhase_post s0 (transformNodes c ++ meshes c) p2
    ∧ instantiatePass c s0 =
      (p3 ← forEach (instantiateSkeleton c) (skeletons c) p2;
       forEach instantiateAnimationGroup (animationGroups c) p3).
Proof.
  intros Hwf0 Hwfc.
  destruct (nodePhase_spec c s0 Hwf0 Hwfc) as (p2 & Hrun & Hpost).
  exists p2. split; [done|]. split; [done|].
  unfold instantiatePass. by rewrite Hrun.
Qed.

Lemma instantiatePass_spec c s0 p :
  wf_scene s0 → wf_container c s0 →
  instantiatePass c s0 = Ok p → pass_post s0 c p.
Proof.
  intros Hwf0 Hwfc Hrun.
  destruct (instantiatePass_unfold c s0 Hwf0 Hwfc) as (p2 & _ & Hpost2 & Heq).
  rewrite Heq in Hrun. apply bind_Ok in Hrun as (p3 & Hrun3 & Hrun4).
  destruct Hpost2 as (Hinv2 & Hsk2 & Hgr2 & Hsw2 & Hrs2 & Hra2 & Hroots2 & _ & Hnd2 & _).
  destruct (wf_container_lt c s0 Hwf0 Hwfc) as (_ & Hms & Hsks & _).
  pose proof (skeletonPhase_spec s0 c p2 _ p3 Hwf0 Hms Hsks Hinv2 Hsw2 Hrs2 Hrun3)
    as (Hinv3 & Hcm3 & Hst3 & Hstab3 & Hgr3 & Hroots3 & Hanim3 & Hsk3 & Hnd3 & _
        & Hmem3 & Hbind3).
  destruct (animationPhase_spec s0 c p3 Hwf0 Hwfc Hinv3) as (p4 & Hrun4' & Hpost4);
    [congruence|].
  rewrite Hrun4 in Hrun4'. injection Hrun4' as <-.
  destruct Hpost4
    as (Hinv4 & Hcm4 & Hst4 & Hnodes4 & Hsk4 & Hsw4 & Hroots4 & Hsks4 & Hgroups4).
  unfold pass_post.
  split; [done|]. split.
  { rewrite Hroots4, Hroots3. eapply Forall2_impl; [exact Hroots2|].
    intros o cl Hcl. eapply rootClone_stable; [|exact Hcl].
    intros i n Hi. rewrite Hnodes4. by apply Hstab3. }
  split; [by rewrite Hroots4, Hroots3|].
  split.
  { rewrite Hsks4. eapply Forall2_impl; [exact Hsk3|].
    intros sk cl (HK & _ & Hlook). split; [done|]. rewrite Hsk4, Hlook. f_equal.
    symmetry. apply clonedSkeleton_ext; congruence. }
  split; [by rewrite Hsw4|].
  split; [intros j sk cl; rewrite Hsks4, Hsw4; by apply Hmem3|].
  split.
  { intros sk m Hsk Hm Hb.
    destruct (Hbind3 sk m Hsk Hm Hb) as (copy & j & cl & ? & ? & ? & ?).
    exists copy, j, cl. rewrite Hcm4, Hsks4. unfold getNode. rewrite Hnodes4. done. }
  eapply Forall2_impl; [exact Hgroups4|].
  intros o cl (HK & _ & Hlook). split; [done|]. rewrite Hlook. f_equal.
  symmetry. apply clonedGroup_ext; congruence.
Qed.

(** A pass never runs out of fuel: the depth of a hierarchy is bounded by
    the number of identifiers of the scene. *)
Lemma instantiatePass_not_OutOfFuel c s0 :
  wf_scene s0 → wf_container c s0 → instantiatePass c s0 ≠ OutOfFuel.
Proof.
  intros Hwf0 Hwfc.
  destruct (instantiatePass_unfold c s0 Hwf0 Hwfc) as (p2 & _ & Hpost2 & ->).
  destruct (forEach (instantiateSkeleton c) (skeletons c) p2) as [p3| |] eqn:Hsk;
    simpl; [| done |].
  - destruct Hpost2 as (Hinv2 & _ & _ & Hsw2 & Hrs2 & Hra2 & _).
    destruct (wf_container_lt c s0 Hwf0 Hwfc) as (_ & Hms & Hsks & _).
    pose proof (skeletonPhase_spec s0 c p2 _ p3 Hwf0 Hms Hsks Hinv2 Hsw2 Hrs2 Hsk)
      as (Hinv3 & _ & _ & _ & _ & _ & Hanim3 & _).
    destruct (animationPhase_spec s0 c p3 Hwf0 Hwfc Hinv3) as (p4 & -> & _);
      [congruence|done].
  - by apply forEach_not_OutOfFuel in Hsk; [|apply instantiateSkeleton_not_OutOfFuel].
Qed.


(** ** The result of [instantiateModelsToScene] *)

Lemma instantiateModelsToScene_Ok c s r s' :
  instantiateModelsToScene c s = Ok (r, s') ↔
  ∃ p, instantiatePass c s = Ok p ∧ result p = r ∧ scene p = s'.
Proof.
  unfold instantiateModelsToScene. split.
  - intros (p & Hp & [= <- <-])%bind_Ok. by exists p.
  - intros (p & -> & <- & <-). done.
Qed.


(** C1.  The root nodes returned by a completed pass are, in order, one
    hierarchy clone for each entry without a parent of the container's
    transform nodes followed by its meshes: a new node, without a parent,
    named after the entry and of its kind; the clones are pairwise distinct,
    and entries that have a parent contribute nothing. *)
Theorem instantiateModelsToScene_rootNodes (c : AbstractScene) (s : Scene)
    (r : InstantiatedEntries.t) (s' : Scene) :
  wf_scene s → wf_container c s →
  instantiateModelsToScene c s = Ok (r, s') →
  Forall2 (rootClone s s') (parentless s (transformNodes c ++ meshes c))
          (InstantiatedEntries.rootNodes r)
  ∧ NoDup (InstantiatedEntries.rootNodes r).
Proof.
  intros Hwf Hwfc (p & Hp & <- & <-)%instantiateModelsToScene_Ok.
  destruct (instantiatePass_spec c s p Hwf Hwfc Hp) as (_ & Hroots & Hnd & _).
  done.
Qed.

(** C3.  A completed pass returns one clone per animation group of the
    container, in order; the clone keeps the name of the group and its
    animations, and each target has gone through the converter, which
    gives the entry of the Translation Table for the target (an object
    created by the pass and held by the Clone Store) when there is one, and
    the target itself when there is none. *)
Theorem instantiateModelsToScene_animationGroups (c : AbstractScene) (s : Scene)
    (r : InstantiatedEntries.t) (s' : Scene) :
  wf_scene s → wf_container c s →
  instantiateModelsToScene c s = Ok (r, s') →
  ∃ p, instantiatePass c s = Ok p ∧ result p = r ∧ scene p = s'
    ∧ Forall2
        (λ o cl, uniqueIdCounter s ≤ cl
           ∧ ∃ g, groupStore s' !! cl = Some g
               ∧ group_name g = group_name (getAnimationGroup s o)
               ∧ targetedAnimations g
                 = (λ ta, (ta.1, targetConverter p ta.2))
                     <$> targetedAnimations (getAnimationGroup s o))
        (animationGroups c) (InstantiatedEntries.animationGroups r)
    ∧ ∀ oldTarget,
        match convertionMap p !! oldTarget with
        | Some newTarget =>
            targetConverter p oldTarget = newTarget
            ∧ storeMap p !! newTarget = Some newTarget
            ∧ uniqueIdCounter s ≤ newTarget
        | None => targetConverter p oldTarget = oldTarget
        end.
Proof.
  intros Hwf Hwfc (p & Hp & <- & <-)%instantiateModelsToScene_Ok.
  destruct (instantiatePass_spec c s p Hwf Hwfc Hp) as (Hinv & _ & _ & _ & _ & _ & _ & Hg).
  exists p. repeat split; try done.
  - eapply Forall2_impl; [exact Hg|]. intros o cl (HK & Hlook).
    split; [done|]. by eexists.
  - intros t. unfold targetConverter. rewrite (lookupClone_cm s p t Hinv).
    destruct (convertionMap p !! t) as [v|] eqn:Hv; [|done].
    destruct (inv_table _ _ Hinv t v Hv) as (? & ? & ?). done.
Qed.

(** C4.  In a completed pass, when a mesh of the container is bound to a
    skeleton of the container, a bone of that skeleton linked to a node
    that has no entry in the Translation Table gives, in the cloned
    skeleton, a bone with no linked node at all: the link to the original
    node is lost. *)
Theorem instantiateModelsToScene_bone_link_miss (c : AbstractScene) (s : Scene)
    (r : InstantiatedEntries.t) (s' : Scene) :
  wf_scene s → wf_container c s →
  instantiateModelsToScene c s = Ok (r, s') →
  ∃ p, instantiatePass c s = Ok p ∧ result p = r ∧ scene p = s'
    ∧ ∀ j sk cl i bone n,
        skeletons c !! j = Some sk →
        InstantiatedEntries.skeletons r !! j = Some cl →
        hasBoundMesh s c sk →
        bones (getSkeleton s sk) !! i = Some bone →
        _linkedTransformNode bone = Some n →
        convertionMap p !! n = None →
        ∃ bone', bones (getSkeleton s' cl) !! i = Some bone'
          ∧ _linkedTransformNode bone' = None.
Proof.
  intros Hwf Hwfc (p & Hp & <- & <-)%instantiateModelsToScene_Ok.
  destruct (instantiatePass_spec c s p Hwf Hwfc Hp) as (Hinv & _ & _ & Hsk & _).
  exists p. repeat split; try done.
  intros j sk cl i bone n Hj Hcl Hb Hi Hn Hmiss.
  destruct (Forall2_lookup_lr _ _ _ _ _ _ Hsk Hj Hcl) as (_ & Hlook).
  unfold getSkeleton at 1. rewrite (lookup_total_correct _ _ _ Hlook).
  unfold clonedSkeleton. cbn [bones]. rewrite decide_True by done.
  exists (swapBone p bone). split; [by rewrite list_lookup_fmap, Hi|].
  unfold swapBone. rewrite Hn. cbn. by rewrite (lookupClone_cm s p n Hinv).
Qed.




(** C8.  A completed pass returns one clone per skeleton of the container,
    in order, whether or not a mesh is bound to the skeleton: a new
    skeleton whose name is the name of the original after the prefix
    "Clone of ". *)
Theorem instantiateModelsToScene_skeletons (c : AbstractScene) (s : Scene)
    (r : InstantiatedEntries.t) (s' : Scene) :
  wf_scene s → wf_container c s →
  instantiateModelsToScene c s = Ok (r, s') →
  Forall2
    (λ sk cl, uniqueIdCounter s ≤ cl
       ∧ ∃ k, skeletonStore s' !! cl = Some k
           ∧ skeleton_name k = "Clone of " +:+ skeleton_name (getSkeleton s sk))
    (skeletons c) (InstantiatedEntries.skeletons r).
Proof.
  intros Hwf Hwfc (p & Hp & <- & <-)%instantiateModelsToScene_Ok.
  destruct (instantiatePass_spec c s p Hwf Hwfc Hp) as (_ & _ & _ & Hsk & _).
  eapply Forall2_impl; [exact Hsk|]. intros sk cl (HK & Hlook).
  split; [done|]. by eexists.
Qed.


(** ** The sample scenes *)

Lemma sampleScene_wf : wf_scene sampleScene.
Proof. apply (bool_decide_unpack _). by vm_compute. Qed.

Lemma sampleContainer_wf : wf_container sampleContainer sampleScene.
Proof. apply (bool_decide_unpack _). by vm_compute. Qed.

Lemma skeletonOnlyContainer_wf : wf_container skeletonOnlyContainer sampleScene.
Proof. apply (bool_decide_unpack _). by vm_compute. Qed.

Lemma parentedScene_wf : wf_scene parentedScene.
Proof. apply (bool_decide_unpack _). by vm_compute. Qed.

Lemma parentedContainer_wf : wf_container parentedContainer parentedScene.
Proof. apply (bool_decide_unpack _). by vm_compute. Qed.

(** The pass over the sample container: the hierarchy under [0] is cloned
    as [10] (root), [11] and [15] (meshes), the manager as [12] with the
    targets [13] and [14], the skeleton as [16], the group as [17]. *)
Example sampleContainer_run :
  ∃ s', instantiateModelsToScene sampleContainer sampleScene
        = Ok (InstantiatedEntries.mk [10] [16] [17], s')
    ∧ skeleton (getNode s' 11) = Some 16
    ∧ morphTargetManager (getNode s' 11) = Some 12
    ∧ getTargets s' 12 = [13; 14]
    ∧ overrideMesh (getSkeleton s' 16) = Some 15
    ∧ targetedAnimations (getAnimationGroup s' 17) = [(100, 11); (101, 9); (102, 13)].
Proof. eexists. split; [by vm_compute|]. by vm_compute. Qed.

(** The bone of the sample skeleton that is linked to node [9], which the
    pass does not clone, comes out of the pass linked to nothing; the
    animation that drives node [9] still drives it. *)
Example sampleContainer_bone_link_lost :
  ∃ s', instantiateModelsToScene sampleContainer sampleScene
        = Ok (InstantiatedEntries.mk [10] [16] [17], s')
    ∧ bones (getSkeleton sampleScene 6) = [mkBone (Some 0); mkBone (Some 9); mkBone None]
    ∧ bones (getSkeleton s' 16) = [mkBone (Some 10); mkBone None; mkBone None].
Proof. eexists. split; [by vm_compute|]. by vm_compute. Qed.

(** A mesh bound to a skeleton of the container, and left out of every
    hierarchy clone because the node it hangs under is not in the
    container, makes the pass raise. *)
Example bound_mesh_without_clone_raises :
  instantiateModelsToScene (containerOf [] [1] [6] []) sampleScene = TypeError.
Proof. by vm_compute. Qed.

(** The end-to-end case of the specification: one root with two mesh
    children and nothing else gives one root clone with two children, and
    no skeleton or animation group. *)
Example root_with_two_children :
  ∃ s', instantiateModelsToScene (containerOf [0] [1; 2] [] []) sampleScene
        = Ok (InstantiatedEntries.mk [10] [] [], s')
    ∧ parent (getNode s' 10) = None
    ∧ getChildTransformNodes 10 s' = [11; 15].
Proof. eexists. split; [by vm_compute|]. by vm_compute. Qed.

(** ** Arrays kept with [push] and [splice] satisfy the interface *)

Lemma spliceFirst_elem o l : o ∈ l → o :: spliceFirst o l ≡ₚ l.
Proof.
  induction l as [|x l IH]; intros Hin; [by apply elem_of_nil in Hin|].
  simpl. destruct (decide (x = o)) as [->|Hne]; [done|].
  apply elem_of_cons in Hin as [->|Hin]; [done|].
  rewrite Permutation_swap. by rewrite IH.
Qed.

Lemma pushSplice_laws : SceneArraysLaws pushSplice.
Proof.
  split.
  - intros k o l. simpl. by rewrite Permutation_app_comm.
  - intros k o l. simpl. apply spliceFirst_elem.
Qed.

(** ** Instances of the theorems *)

Ltac by_computation := apply (bool_decide_unpack _); by vm_compute.

Lemma onClone_morph_targets_witness :
  let p := set_scene (cloneNode "Clone of body" 1 None sampleScene).2
             (initialPass sampleScene) in
  wf_scene (scene p)
  ∧ isMesh (getNode (scene p) 10) = true
  ∧ morphTargetManager (getNode (scene p) 10) = Some 3
  ∧ morphTargetManager (getNode (scene p) 1) = Some 3
  ∧ ∃ p' newManager,
      onClone 1 10 p = Ok p'
      ∧ morphTargetManager (getNode (scene p') 10) = Some newManager
      ∧ newManager ≠ 3
      ∧ getTargets (scene p') 3 = getTargets (scene p) 3
      ∧ length (getTargets (scene p') newManager) = length (getTargets (scene p) 3)
      ∧ convertionMap p'
        = foldl (λ (m : gmap nat nat) (on : nat * nat), <[on.1 := on.2]> m)
                (<[1 := 10]> (convertionMap p))
                (zip (getTargets (scene p) 3) (getTargets (scene p') newManager))
      ∧ storeMap p'
        = foldl (λ (m : gmap nat nat) (on : nat * nat), <[on.2 := on.2]> m)
                (<[10 := 10]> (storeMap p))
                (zip (getTargets (scene p) 3) (getTargets (scene p') newManager))
      ∧ storeMap p' !! 10 = Some 10
      ∧ (1 ∉ getTargets (scene p) 3 → convertionMap p' !! 1 = Some 10)
      ∧ ∀ index oldTarget,
          getTargets (scene p) 3 !! index = Some oldTarget →
          ∃ newTarget,
            getTargets (scene p') newManager !! index = Some newTarget
            ∧ newTarget ≠ oldTarget
            ∧ storeMap p' !! newTarget = Some newTarget
            ∧ ((∀ j, index < j → getTargets (scene p) 3 !! j ≠ Some oldTarget) →
               convertionMap p' !! oldTarget = Some newTarget).
Proof.
  intros p.
  assert (wf_scene (scene p)) as Hwf by by_computation.
  assert (isMesh (getNode (scene p) 10) = true) as Hmesh by (by vm_compute).
  assert (morphTargetManager (getNode (scene p) 10) = Some 3) as Hmgr by (by vm_compute).
  assert (morphTargetManager (getNode (scene p) 1) = Some 3) as Hold by (by vm_compute).
  repeat (split; [assumption|]).
  exact (onClone_morph_targets 1 10 p 3 3 Hwf Hmesh Hmgr Hold).
Defined.

Lemma instantiateModelsToScene_rootNodes_witness :
  wf_scene sampleScene ∧ wf_container sampleContainer sampleScene
  ∧ ∃ r s', instantiateModelsToScene sampleContainer sampleScene = Ok (r, s')
      ∧ Forall2 (rootClone sampleScene s')
          (parentless sampleScene
             (transformNodes sampleContainer ++ meshes sampleContainer))
          (InstantiatedEntries.rootNodes r)
      ∧ NoDup (InstantiatedEntries.rootNodes r).
Proof.
  split; [by_computation|]. split; [by_computation|].
  eexists _, _. split; [by vm_compute|].
  apply (instantiateModelsToScene_rootNodes sampleContainer sampleScene);
    [by_computation|by_computation|by vm_compute].
Defined.

Lemma instantiateModelsToScene_animationGroups_witness :
  wf_scene sampleScene ∧ wf_container sampleContainer sampleScene
  ∧ ∃ r s', instantiateModelsToScene sampleContainer sampleScene = Ok (r, s')
      ∧ ∃ p, instantiatePass sampleContainer sampleScene = Ok p
          ∧ result p = r ∧ scene p = s'
          ∧ Forall2
              (λ o cl, uniqueIdCounter sampleScene ≤ cl
                 ∧ ∃ g, groupStore s' !! cl = Some g
                     ∧ group_name g = group_name (getAnimationGroup sampleScene o)
                     ∧ targetedAnimations g
                       = (λ ta, (ta.1, targetConverter p ta.2))
                           <$> targetedAnimations (getAnimationGroup sampleScene o))
              (animationGroups sampleContainer)
              (InstantiatedEntries.animationGroups r)
          ∧ ∀ oldTarget,
              match convertionMap p !! oldTarget with
              | Some newTarget =>
                  targetConverter p oldTarget = newTarget
                  ∧ storeMap p !! newTarget = Some newTarget
                  ∧ uniqueIdCounter sampleScene ≤ newTarget
              | None => targetConverter p oldTarget = oldTarget
              end.
Proof.
  split; [by_computation|]. split; [by_computation|].
  eexists _, _. split; [by vm_compute|].
  apply (instantiateModelsToScene_animationGroups sampleContainer sampleScene);
    [by_computation|by_computation|by vm_compute].
Defined.

Lemma instantiateModelsToScene_bone_link_miss_witness :
  wf_scene sampleScene ∧ wf_container sampleContainer sampleScene
  ∧ ∃ r s', instantiateModelsToScene sampleContainer sampleScene = Ok (r, s')
      ∧ ∃ p, instantiatePass sampleContainer sampleScene = Ok p
          ∧ result p = r ∧ scene p = s'
          ∧ ∀ j sk cl i bone n,
              skeletons sampleContainer !! j = Some sk →
              InstantiatedEntries.skeletons r !! j = Some cl →
              hasBoundMesh sampleScene sampleContainer sk →
              bones (getSkeleton sampleScene sk) !! i = Some bone →
              _linkedTransformNode bone = Some n →
              convertionMap p !! n = None →
              ∃ bone', bones (getSkeleton s' cl) !! i = Some bone'
                ∧ _linkedTransformNode bone' = None.
Proof.
  split; [by_computation|]. split; [by_computation|].
  eexists _, _. split; [by vm_compute|].
  apply (instantiateModelsToScene_bone_link_miss sampleContainer sampleScene);
    [by_computation|by_computation|by vm_compute].
Defined.




Lemma instantiateModelsToScene_skeletons_witness :
  wf_scene sampleScene ∧ wf_container sampleContainer sampleScene
  ∧ ∃ r s', instantiateModelsToScene sampleContainer sampleScene = Ok (r, s')
      ∧ Forall2
          (λ sk cl, uniqueIdCounter sampleScene ≤ cl
             ∧ ∃ k, skeletonStore s' !! cl = Some k
                 ∧ skeleton_name k
                   = "Clone of " +:+ skeleton_name (getSkeleton sampleScene sk))
          (skeletons sampleContainer) (InstantiatedEntries.skeletons r).
Proof.
  split; [by_computation|]. split; [by_computation|].
  eexists _, _. split; [by vm_compute|].
  apply (instantiateModelsToScene_skeletons sampleContainer sampleScene);
    [by_computation|by_computation|by vm_compute].
Defined.



(** With [push] and [splice], and a container whose assets the scene does
    not hold yet, the arrays come back as they were, element for element. *)
Example assetScene_restored :
  let s' :=
    @removeAllFromScene pushSplice (containerOf [8] [5; 6] [] [])
      (@addAllToScene pushSplice (containerOf [8] [5; 6] [] []) assetScene) in
  collection (assets s') Meshes = [1; 2]
  ∧ collection (assets s') TransformNodes = []
  ∧ environmentTexture (assets s') = None.
Proof. by vm_compute. Qed.

(** When the scene and the container both have an environment texture, the
    scene ends without any. *)
Example environmentTexture_lost :
  let s := set_assets (set_environmentTexture (Some 4) (assets assetScene)) assetScene in
  environmentTexture
    (assets (@removeAllFromScene pushSplice assetContainer
               (@addAllToScene pushSplice assetContainer s))) = None
  ∧ environmentTexture (assets s) = Some 4.
Proof. by vm_compute. Qed.

(** ** Where the specification and the code part *)



(** * The texture panel *)

Lemma string_app_cons c (a b : string) : String c a +:+ b = String c (a +:+ b).
Proof. reflexivity. Qed.

Lemma string_app_nil_l (b : string) : "" +:+ b = b.
Proof. reflexivity. Qed.

Ltac str := rewrite ?string_app_cons, ?string_app_nil_l; simpl.

Lemma string_app_nil_r (s : string) : s +:+ "" = s.
Proof. induction s as [|c s IH]; str; [done|by rewrite IH]. Qed.

Lemma string_app_assoc (a b c : string) : (a +:+ b) +:+ c = a +:+ (b +:+ c).
Proof. induction a as [|x a IH]; str; [done|by rewrite IH]. Qed.

Lemma string_length_app (a b : string) :
  String.length (a +:+ b) = String.length a + String.length b.
Proof. induction a as [|x a IH]; str; [done|by rewrite IH]. Qed.

Lemma string_get_app_length (pre : string) c rest :
  String.get (String.length pre) (pre +:+ String c rest) = Some c.
Proof. induction pre as [|x pre IH]; str; done. Qed.

Lemma hasDot_app (a b : string) : hasDot (a +:+ b) = hasDot a || hasDot b.
Proof.
  induction a as [|x a IH]; str; [done|]. by rewrite IH, orb_assoc.
Qed.

(** The loop copies a suffix without a dot in one go. *)
Lemma extensionLoop_suffix ext :
  hasDot ext = false → ∀ pre acc,
  extensionLoop (pre +:+ ext) (String.length pre + String.length ext) acc
  = extensionLoop (pre +:+ ext) (String.length pre) (ext +:+ acc).
Proof.
  induction ext as [|c ext IH]; intros Hdot pre acc.
  { simpl. by rewrite Nat.add_0_r. }
  simpl in Hdot. apply orb_false_iff in Hdot as [Hc Hdot].
  assert (pre +:+ String c ext = (pre +:+ String c "") +:+ ext) as Hurl
    by (by rewrite string_app_assoc).
  assert (String.length pre + String.length (String c ext)
          = String.length (pre +:+ String c "") + String.length ext) as ->
    by (rewrite string_length_app; simpl; lia).
  rewrite Hurl, (IH Hdot (pre +:+ String c "") acc), <- Hurl.
  rewrite string_length_app, Nat.add_comm. simpl.
  by rewrite string_get_app_length, Hc.
Qed.

Lemma extensionLoop_dot pre ext acc :
  extensionLoop (pre +:+ String "." ext) (S (String.length pre)) acc = acc.
Proof. simpl. by rewrite string_get_app_length. Qed.

(** A string without a dot is its own extension; this is also what the
    panel shows as the format of a URL that has no file extension at all. *)
Lemma fileExtension_no_dot u :
  hasDot u = false → fileExtension (Some u) = u.
Proof.
  intros Hdot. unfold fileExtension. destruct (String.eqb_spec u "") as [->|_]; [done|].
  pose proof (extensionLoop_suffix u Hdot "" "") as H.
  rewrite string_app_nil_l, string_app_nil_r in H. simpl in H. by rewrite H.
Qed.

(** Every string splits at its last dot. *)
Lemma last_dot_split (u : string) :
  hasDot u = false
  ∨ ∃ pre ext, u = pre +:+ String "." ext ∧ hasDot ext = false.
Proof.
  induction u as [|c u IH]; [by left|].
  destruct IH as [Hdot|(pre & ext & -> & Hext)].
  - destruct (Ascii.eqb c ".") eqn:Hc.
    + right. exists "", u. apply Ascii.eqb_eq in Hc as ->. done.
    + left. simpl. by rewrite Hc.
  - right. by exists (String c pre), ext.
Qed.

Lemma fileExtension_dot pre ext :
  hasDot ext = false → fileExtension (Some (pre +:+ String "." ext)) = ext.
Proof.
  intros Hdot. unfold fileExtension.
  destruct (String.eqb_spec (pre +:+ String "." ext) "") as [Hnil|_].
  { by destruct pre. }
  assert (pre +:+ String "." ext = (pre +:+ ".") +:+ ext) as Hurl
    by (by rewrite string_app_assoc).
  rewrite Hurl at 2. rewrite string_length_app.
  rewrite Hurl, (extensionLoop_suffix ext Hdot), <- Hurl.
  rewrite string_length_app, Nat.add_comm. cbn [String.length Nat.add].
  by rewrite extensionLoop_dot, string_app_nil_r.
Qed.

(** X1.  The file format shown for a URL is what follows its last dot:
    for every prefix and every extension without a dot,
    [prefix.extension] gives back [extension]. *)
Theorem fileExtension_after_last_dot (pre ext : string) :
  hasDot ext = false →
  fileExtension (Some (pre +:+ "." +:+ ext)) = ext.
Proof. intros Hdot. by apply fileExtension_dot. Qed.

(** X2.  For every URL, [null] and the empty string included, the file
    format has no dot in it and is a suffix of the URL: the URL is the
    format itself when it has no dot, and otherwise ends with a dot
    followed by the format. *)
Theorem fileExtension_suffix (url : option string) :
  let u := default "" url in
  let e := fileExtension url in
  hasDot e = false
  ∧ (if hasDot u then ∃ pre, u = pre +:+ "." +:+ e else e = u).
Proof.
  destruct url as [u|]; [|done]. cbn zeta. change (default "" (Some u)) with u.
  destruct (last_dot_split u) as [Hdot|(pre & ext & -> & Hext)].
  - by rewrite Hdot, fileExtension_no_dot.
  - rewrite fileExtension_dot by done. split; [done|].
    rewrite hasDot_app. simpl. rewrite orb_true_r. by exists pre.
Qed.

(** X3.  The panel leaves the file format line out exactly when the URL
    is [null] or empty, or ends with a dot. *)
Theorem fileExtension_empty_iff (url : option string) :
  fileExtension url = ""
  ↔ default "" url = "" ∨ ∃ pre, default "" url = pre +:+ ".".
Proof.
  destruct url as [u|]; [|split; [by left|done]].
  change (default "" (Some u)) with u. split.
  - intros Hempty. destruct (last_dot_split u) as [Hdot|(pre & ext & -> & Hext)].
    + left. by rewrite fileExtension_no_dot in Hempty.
    + right. exists pre. rewrite fileExtension_dot in Hempty by done. by subst ext.
  - intros [->|[pre ->]]; [done|]. by apply fileExtension_dot.
Qed.



(** * Moving assets *)

Lemma keepLoop_spec asset keep :
  keepLoop asset keep = bool_decide (asset ∉ keep).
Proof.
  induction keep as [|k keep IH]; cbn [keepLoop].
  - symmetry. apply bool_decide_eq_true_2. by intros ?%elem_of_nil.
  - destruct (decide (asset = k)) as [->|Hne].
    + symmetry. apply bool_decide_eq_false_2. intros H. apply H. left.
    + rewrite IH. apply bool_decide_ext. rewrite !elem_of_cons. tauto.
Qed.

Lemma _moveAssets_Some source target keepAssets :
  _moveAssets (Some source) target keepAssets
  = target ++ filter (λ a, a ∉ default [] keepAssets) source.
Proof.
  unfold _moveAssets. revert target.
  induction source as [|a source IH]; intros target; simpl.
  { by rewrite app_nil_r. }
  rewrite IH.
  assert (match keepAssets with Some keep => keepLoop a keep | None => true end
          = bool_decide (a ∉ default [] keepAssets)) as ->.
  { destruct keepAssets as [keep|]; [apply keepLoop_spec|].
    symmetry. apply bool_decide_eq_true_2. by intros ?%elem_of_nil. }
  rewrite filter_cons. case_bool_decide as Hk.
  - case_decide; [|done]. by rewrite <- app_assoc.
  - by case_decide.
Qed.

(** X5.  [_moveAssets] appends to the target, in their order and with
    their repetitions, exactly the source assets that are not among the
    assets to keep; an [undefined] list of assets to keep keeps nothing and
    an [undefined] source moves nothing. *)
Theorem _moveAssets_spec (source : option (list nat)) (target : list nat)
    (keepAssets : option (list nat)) :
  _moveAssets source target keepAssets
  = target ++ filter (λ a, a ∉ default [] keepAssets) (default [] source).
Proof.
  destruct source as [source|]; [apply _moveAssets_Some|].
  simpl. by rewrite app_nil_r.
Qed.

Lemma filter_partition_perm (P : nat → Prop) `{∀ x, Decision (P x)} (l : list nat) :
  l ≡ₚ filter (λ a, ¬ P a) l ++ filter P l.
Proof.
  induction l as [|x l IH]; [done|].
  rewrite !filter_cons. destruct (decide (P x)) as [Hx|Hx].
  - destruct (decide (¬ P x)); [done|].
    rewrite <- Permutation_middle. by constructor.
  - destruct (decide (¬ P x)); [|done].
    simpl. by constructor.
Qed.

Section MoveFacts.
Context {ops : SceneArrays} {laws : SceneArraysLaws ops}.

(** X6.  Moving one array of the scene into a container that has nothing
    of that kind, then removing the container from the scene, as
    [moveAllFromScene] does for each array: the scene is left with exactly
    the assets to keep (with their repetitions), and the container holds
    the others in the scene's order. *)
Theorem _moveAssets_removeAllFromScene (k : AssetKind) (c : AbstractScene)
    (s : Scene) (keepAssets : option (list nat)) :
  collection c k = [] →
  let c' :=
    updCollection k
      (λ target, _moveAssets (Some (collection (assets s) k)) target keepAssets) c in
  collection c' k
  = filter (λ a, a ∉ default [] keepAssets) (collection (assets s) k)
  ∧ collection (assets (removeAllFromScene c' s)) k
    ≡ₚ filter (λ a, a ∈ default [] keepAssets) (collection (assets s) k).
Proof.
  intros Hempty c'.
  assert (collection c' k
          = filter (λ a, a ∉ default [] keepAssets) (collection (assets s) k)) as Hc'.
  { unfold c', updCollection. cbn [collection]. rewrite decide_True by done.
    by rewrite _moveAssets_Some, Hempty. }
  split; [done|].
  rewrite collection_removeAllFromScene, Hc'.
  apply removeFromScene_all.
  apply (filter_partition_perm (λ a, a ∈ default [] keepAssets)).
Qed.

(** X7.  After [addAllToScene], every array of the scene holds what it
    held and what the container's array of that kind holds, repetitions
    included, and nothing else; the environment texture is the container's
    when it has one and is left alone otherwise. *)
Theorem addAllToScene_contents (c : AbstractScene) (s : Scene) :
  (∀ k, collection (assets (addAllToScene c s)) k
        ≡ₚ collection c k ++ collection (assets s) k)
  ∧ environmentTexture (assets (addAllToScene c s))
    = match environmentTexture c with
      | Some t => Some t
      | None => environmentTexture (assets s)
      end.
Proof.
  split; [|apply environmentTexture_addAllToScene].
  intros k. rewrite collection_addAllToScene. apply addToScene_all.
Qed.

End MoveFacts.

(** * [createRootMesh] *)

Lemma set_nodeStore_id s : set_nodeStore (nodeStore s) s = s.
Proof. by destruct s. Qed.

Lemma adopted_idemp root n : adopted root (adopted root n) = adopted root n.
Proof. unfold adopted. by destruct (parent n) eqn:Hp; sim; rewrite ?Hp. Qed.

Lemma adopted_parent root n : parent (adopted root n) ≠ None.
Proof. unfold adopted. by destruct (parent n) eqn:Hp; sim; rewrite ?Hp. Qed.

Lemma adopted_wf C root n : wf_node C n → wf_node C (adopted root n).
Proof. unfold adopted. by destruct (parent n). Qed.

(** On a mesh of the scene, one turn of the loop writes the adopted mesh. *)
Lemma adoptMesh_setNode root s m :
  is_Some (nodeStore s !! m) →
  adoptMesh root s m = setNode m (adopted root (getNode s m)) s.
Proof.
  intros [n Hn]. unfold adoptMesh, adopted, addChild.
  destruct (parent (getNode s m)) eqn:Hp; [|done].
  unfold setNode. rewrite insert_id; [by rewrite set_nodeStore_id|].
  unfold getNode. by rewrite lookup_total_alt, Hn.
Qed.

Lemma adoptMesh_fold root ms s1 s2 :
  wf_scene s1 → Forall (λ m, is_Some (nodeStore s1 !! m)) ms →
  s2 = foldl (adoptMesh root) s1 ms →
  wf_scene s2
  ∧ uniqueIdCounter s2 = uniqueIdCounter s1
  ∧ managerStore s2 = managerStore s1
  ∧ skeletonStore s2 = skeletonStore s1
  ∧ groupStore s2 = groupStore s1
  ∧ (∀ i, i ∉ ms → nodeStore s2 !! i = nodeStore s1 !! i)
  ∧ (∀ m, m ∈ ms → nodeStore s2 !! m = Some (adopted root (getNode s1 m))).
Proof.
  intros Hwf1. revert s2.
  induction ms as [|m ms IH] using rev_ind; intros s3 Hms ->.
  { simpl. do 6 (split; [done|]). by intros m ?%elem_of_nil. }
  apply Forall_app in Hms as [Hms Hm]. apply Forall_inv in Hm.
  destruct (IH _ Hms eq_refl) as (Hwf & Hc & Hmg & Hsk & Hgr & Hout & Hin). clear IH.
  rewrite foldl_app. cbn [foldl].
  set (s2 := foldl (adoptMesh root) s1 ms) in *.
  assert (is_Some (nodeStore s2 !! m)) as Hm2.
  { destruct (decide (m ∈ ms)) as [Hmem|Hmem]; [by rewrite (Hin m Hmem)|].
    rewrite (Hout m Hmem). exact Hm. }
  assert (adopted root (getNode s2 m) = adopted root (getNode s1 m)) as Had.
  { unfold getNode. rewrite !lookup_total_alt.
    destruct (decide (m ∈ ms)) as [Hmem|Hmem].
    - rewrite (Hin m Hmem). cbn [default from_option id]. unfold getNode.
      by rewrite lookup_total_alt, adopted_idemp.
    - by rewrite (Hout m Hmem). }
  rewrite (adoptMesh_setNode root s2 m Hm2), Had.
  split.
  { apply wf_scene_setNode; [|rewrite Hc; by apply adopted_wf, wf_getNode|done].
    destruct Hm2 as [n Hn]. by eapply wf_node_lt. }
  sim. do 4 (split; [done|]). split.
  - intros i Hi. rewrite elem_of_app, list_elem_of_singleton in Hi.
    rewrite lookup_insert_ne by (intros ->; tauto). apply Hout. tauto.
  - intros m' Hm'. destruct (decide (m' = m)) as [->|Hne].
    + by rewrite lookup_insert_eq.
    + rewrite lookup_insert_ne by done. apply Hin.
      rewrite elem_of_app, list_elem_of_singleton in Hm'. tauto.
Qed.

Lemma wf_scene_newMesh name s : wf_scene s → wf_scene (newMesh name s).2.
Proof.
  intros Hwf. unfold newMesh. cbn [snd].
  apply wf_scene_setNode; sim; [lia|done|by apply wf_scene_counter; [lia|]].
Qed.

Lemma parentless_nil s l :
  Forall (λ o, parent (getNode s o) ≠ None) l → parentless s l = [].
Proof.
  unfold parentless. induction 1 as [|o l Ho _ IH]; [done|].
  by rewrite filter_cons_False.
Qed.

Lemma parentless_nil_inv s l :
  parentless s l = [] → Forall (λ o, parent (getNode s o) ≠ None) l.
Proof.
  unfold parentless. induction l as [|o l IH]; [done|].
  rewrite filter_cons. destruct (decide _) as [|Hne]; [done|].
  intros Hl. constructor; [done|by apply IH].
Qed.

(** What [createRootMesh] does to the container and to the scene. *)
Lemma createRootMesh_facts c s root c' s' :
  wf_scene s → wf_container c s →
  createRootMesh c s = (root, c', s') →
  root = uniqueIdCounter s
  ∧ c' = updCollection Meshes (λ l, root :: l) c
  ∧ wf_scene s'
  ∧ uniqueIdCounter s' = S (uniqueIdCounter s)
  ∧ managerStore s' = managerStore s
  ∧ skeletonStore s' = skeletonStore s
  ∧ groupStore s' = groupStore s
  ∧ nodeStore s' !! root
    = Some (mkTransformNode "assetContainerRootMesh" None true None None false)
  ∧ (∀ m, m ∈ meshes c → nodeStore s' !! m = Some (adopted root (getNode s m)))
  ∧ (∀ i, i ≠ root → i ∉ meshes c → nodeStore s' !! i = nodeStore s !! i).
Proof.
  intros Hwf Hwfc. unfold createRootMesh, newMesh.
  intros [= <- <- <-].
  destruct (wf_container_lt c s Hwf Hwfc) as (_ & Hlt & _ & _).
  destruct Hwfc as (Hnodes & _ & _). apply Forall_app in Hnodes as [_ Hms].
  pose proof (wf_scene_newMesh "assetContainerRootMesh" s Hwf) as Hwf1.
  unfold newMesh in Hwf1. cbn [snd] in Hwf1.
  match type of Hwf1 with wf_scene ?s1 =>
    destruct (adoptMesh_fold (uniqueIdCounter s) (meshes c) s1
                (foldl (adoptMesh (uniqueIdCounter s)) s1 (meshes c)) Hwf1)
      as (Hwf2 & Hc & Hmgr & Hsk & Hgr & Hout & Hin); [|reflexivity|] end.
  { rewrite Forall_forall in Hms, Hlt. apply Forall_forall. intros m Hm. sim.
    rewrite lookup_insert_ne by (specialize (Hlt m Hm); lia). by apply Hms. }
  assert (uniqueIdCounter s ∉ meshes c) as Hfresh.
  { intros Hin'. rewrite Forall_forall in Hlt. specialize (Hlt _ Hin'). lia. }
  split; [done|]. split; [done|]. split; [done|]. split; [by rewrite Hc|].
  split; [by rewrite Hmgr|].
  split; [by rewrite Hsk|]. split; [by rewrite Hgr|]. split; [|split].
  - rewrite (Hout _ Hfresh). sim. by rewrite lookup_insert_eq.
  - intros m Hm. rewrite (Hin m Hm). f_equal. f_equal.
    unfold getNode. rewrite !lookup_total_alt. sim.
    rewrite lookup_insert_ne; [done|]. intros <-. done.
  - intros i Hi Hni. rewrite (Hout i Hni). sim. by rewrite lookup_insert_ne.
Qed.

(** X9.  After [createRootMesh] the root mesh, a new mesh of the scene
    named [assetContainerRootMesh], is the first mesh of the container and
    the only mesh of the container without a parent: every mesh that had
    none hangs under the root mesh, every mesh that had a parent has kept
    it, and no other node of the scene has changed. *)
Theorem createRootMesh_single_root (c : AbstractScene) (s : Scene)
    (root : nat) (c' : AbstractScene) (s' : Scene) :
  wf_scene s → wf_container c s →
  createRootMesh c s = (root, c', s') →
  nodeStore s !! root = None
  ∧ meshes c' = root :: meshes c
  ∧ (∀ k, k ≠ Meshes → collection c' k = collection c k)
  ∧ getNode s' root
    = mkTransformNode "assetContainerRootMesh" None true None None false
  ∧ parentless s' (meshes c') = [root]
  ∧ (∀ m, m ∈ meshes c →
       getNode s' m = adopted root (getNode s m)
       ∧ parent (getNode s' m)
         = Some (default root (parent (getNode s m))))
  ∧ (∀ i, i ≠ root → i ∉ meshes c → nodeStore s' !! i = nodeStore s !! i)
  ∧ wf_scene s' ∧ wf_container c' s'.
Proof.
  intros Hwf Hwfc Hrun.
  destruct (createRootMesh_facts c s root c' s' Hwf Hwfc Hrun)
    as (-> & -> & Hwf' & Hc' & _ & Hsk' & Hgr' & Hroot & Hin & Hout).
  assert (∀ m, m ∈ meshes c → getNode s' m = adopted (uniqueIdCounter s) (getNode s m))
    as Hget.
  { intros m Hm. unfold getNode at 1. by rewrite lookup_total_alt, (Hin m Hm). }
  assert (meshes (updCollection Meshes (λ l, uniqueIdCounter s :: l) c)
          = uniqueIdCounter s :: meshes c) as Hmeshes by done.
  split.
  { destruct (nodeStore s !! uniqueIdCounter s) as [n|] eqn:Hn; [|done].
    pose proof (wf_node_lt _ _ _ Hwf Hn). lia. }
  split; [done|]. split.
  { intros k Hk. unfold updCollection. cbn [collection]. by rewrite decide_False. }
  split.
  { unfold getNode. by rewrite lookup_total_alt, Hroot. }
  split.
  { rewrite Hmeshes. unfold parentless. rewrite filter_cons_True.
    - f_equal. apply parentless_nil, Forall_forall. intros m Hm.
      rewrite (Hget m Hm). apply adopted_parent.
    - unfold getNode. by rewrite lookup_total_alt, Hroot. }
  split.
  { intros m Hm. split; [by apply Hget|]. rewrite (Hget m Hm).
    unfold adopted. by destruct (parent (getNode s m)) eqn:Hp; sim; rewrite ?Hp. }
  split; [done|]. split; [done|].
  destruct Hwfc as (Hnodes & Hsks & Hgs). apply Forall_app in Hnodes as [Htn Hms].
  unfold wf_container. rewrite Hsk', Hgr'. split; [|done].
  assert (∀ o, is_Some (nodeStore s !! o) → is_Some (nodeStore s' !! o)) as Hkeep.
  { intros o Ho. destruct (decide (o ∈ meshes c)) as [Hm|Hm]; [by rewrite (Hin o Hm)|].
    rewrite Hout; [done| |done]. intros ->. destruct Ho as [n Hn].
    pose proof (wf_node_lt _ _ _ Hwf Hn). lia. }
  apply Forall_app. split.
  - eapply Forall_impl; [exact Htn|]. done.
  - rewrite Hmeshes. constructor; [by rewrite Hroot|].
    eapply Forall_impl; [exact Hms|]. done.
Qed.

(** X10.  Instantiating a container after [createRootMesh]: when no
    transform node of the container is without a parent, a completed pass
    returns exactly one root node, a hierarchy clone of the root mesh. *)
Theorem createRootMesh_instantiateModelsToScene (c : AbstractScene) (s : Scene)
    (root : nat) (c' : AbstractScene) (s' : Scene)
    (r : InstantiatedEntries.t) (s'' : Scene) :
  wf_scene s → wf_container c s →
  parentless s (transformNodes c) = [] →
  createRootMesh c s = (root, c', s') →
  instantiateModelsToScene c' s' = Ok (r, s'') →
  ∃ cl, InstantiatedEntries.rootNodes r = [cl] ∧ rootClone s' s'' root cl.
Proof.
  intros Hwf Hwfc Htn Hrun Hinst.
  destruct (createRootMesh_facts c s root c' s' Hwf Hwfc Hrun)
    as (Hrooteq & Hc'eq & Hwf' & Hcnt' & _ & Hsk' & Hgr' & Hroot & Hin & Hout).
  assert (wf_container c' s' ∧ parentless s' (meshes c') = [root]
          ∧ parentless s' (transformNodes c') = []) as (Hwfc' & Hpl & Hpl').
  { subst root c'.
    assert (∀ m, m ∈ meshes c → getNode s' m = adopted (uniqueIdCounter s) (getNode s m))
      as Hget.
    { intros m Hm. unfold getNode at 1. by rewrite lookup_total_alt, (Hin m Hm). }
    assert (∀ o, is_Some (nodeStore s !! o) → is_Some (nodeStore s' !! o)) as Hkeep.
    { intros o Ho. destruct (decide (o ∈ meshes c)) as [Hm|Hm]; [by rewrite (Hin o Hm)|].
      rewrite Hout; [done| |done]. intros ->. destruct Ho as [n Hn].
      pose proof (wf_node_lt _ _ _ Hwf Hn). lia. }
    destruct (wf_container_lt c s Hwf Hwfc) as (Htnlt & _).
    destruct Hwfc as (Hnodes & Hsks & Hgs). apply Forall_app in Hnodes as [Htns Hms].
    assert (meshes (updCollection Meshes (λ l, uniqueIdCounter s :: l) c)
            = uniqueIdCounter s :: meshes c) as Hmeshes by done.
    assert (transformNodes (updCollection Meshes (λ l, uniqueIdCounter s :: l) c)
            = transformNodes c) as Htns' by done.
    split; [|split].
    - unfold wf_container. rewrite Hsk', Hgr'. split; [|done].
      apply Forall_app. split.
      + eapply Forall_impl; [exact Htns|]. done.
      + rewrite Hmeshes. constructor; [by rewrite Hroot|].
        eapply Forall_impl; [exact Hms|]. done.
    - rewrite Hmeshes. unfold parentless. rewrite filter_cons_True.
      + f_equal. apply parentless_nil, Forall_forall. intros m Hm.
        rewrite (Hget m Hm). apply adopted_parent.
      + unfold getNode. by rewrite lookup_total_alt, Hroot.
    - rewrite Htns'. apply parentless_nil, Forall_forall. intros o Ho.
      apply parentless_nil_inv in Htn. rewrite Forall_forall in Htn, Htnlt.
      destruct (decide (o ∈ meshes c)) as [Hm|Hm].
      + rewrite (Hget o Hm). apply adopted_parent.
      + unfold getNode. rewrite lookup_total_alt, Hout, <- lookup_total_alt;
          [by apply Htn| |done].
        specialize (Htnlt o Ho). simpl in Htnlt. lia. }
  apply instantiateModelsToScene_Ok in Hinst as (p & Hp & <- & <-).
  destruct (instantiatePass_spec c' s' p Hwf' Hwfc' Hp) as (_ & Hroots & _).
  unfold parentless in Hroots, Hpl, Hpl'. rewrite filter_app in Hroots.
  rewrite Hpl, Hpl' in Hroots. cbn [app] in Hroots.
  apply Forall2_cons_inv_l in Hroots as (cl & rest & Hcl & Hrest & Heq).
  apply Forall2_nil_inv_l in Hrest as ->. by exists cl.
Qed.

(** * More on [instantiateModelsToScene] *)

Lemma wf_container_inv c s0 p :
  wf_scene s0 → wf_container c s0 → inv s0 p → wf_container c (scene p).
Proof.
  intros Hwf Hwfc Hinv.
  destruct (wf_container_lt c s0 Hwf Hwfc) as (Htn & Hms & Hsks & Hgs).
  destruct Hwfc as (Hnodes & Hsk & Hg). split; [|split].
  - pose proof (proj2 (Forall_app _ _ _) (conj Htn Hms)) as Hlt.
    rewrite Forall_forall in Hnodes, Hlt. apply Forall_forall. intros o Ho.
    rewrite (inv_old_nodes _ _ Hinv o (Hlt o Ho)). by apply Hnodes.
  - rewrite Forall_forall in Hsk, Hsks. apply Forall_forall. intros o Ho.
    rewrite (inv_old_skeletons _ _ Hinv o (Hsks o Ho)). by apply Hsk.
  - rewrite Forall_forall in Hg, Hgs. apply Forall_forall. intros o Ho.
    rewrite (inv_old_groups _ _ Hinv o (Hgs o Ho)). by apply Hg.
Qed.

(** X11.  A completed pass leaves the scene it started from alone: every
    node, skeleton and animation group that the scene had is unchanged
    (bindings and bone links are written to the copies only), the
    identifier counter never goes back, and no node made by the pass hangs
    under a node the scene had. *)
Theorem instantiateModelsToScene_keeps_originals (c : AbstractScene) (s : Scene)
    (r : InstantiatedEntries.t) (s' : Scene) :
  wf_scene s → wf_container c s →
  instantiateModelsToScene c s = Ok (r, s') →
  uniqueIdCounter s ≤ uniqueIdCounter s'
  ∧ (∀ i, i < uniqueIdCounter s →
       nodeStore s' !! i = nodeStore s !! i
       ∧ skeletonStore s' !! i = skeletonStore s !! i
       ∧ groupStore s' !! i = groupStore s !! i)
  ∧ (∀ i n q, nodeStore s' !! i = Some n → uniqueIdCounter s ≤ i →
       parent n = Some q → uniqueIdCounter s ≤ q)
  ∧ wf_scene s' ∧ wf_container c s'.
Proof.
  intros Hwf Hwfc (p & Hp & <- & <-)%instantiateModelsToScene_Ok.
  destruct (instantiatePass_spec c s p Hwf Hwfc Hp) as (Hinv & _).
  split; [by apply (inv_counter _ _ Hinv)|]. split.
  { intros i Hi. split; [by apply (inv_old_nodes _ _ Hinv)|].
    split; [by apply (inv_old_skeletons _ _ Hinv)|by apply (inv_old_groups _ _ Hinv)]. }
  split; [by apply (inv_parents _ _ Hinv)|].
  split; [by apply (inv_wf _ _ Hinv)|by apply (wf_container_inv c s p)].
Qed.

(** X12.  The Translation Table of a completed pass is one-to-one: two
    different originals never share a clone, so a clone determines the
    object it was made from. *)
Theorem instantiateModelsToScene_distinct_clones (c : AbstractScene) (s : Scene)
    (r : InstantiatedEntries.t) (s' : Scene) :
  wf_scene s → wf_container c s →
  instantiateModelsToScene c s = Ok (r, s') →
  ∃ p, instantiatePass c s = Ok p ∧ result p = r ∧ scene p = s'
    ∧ ∀ k k' cl, convertionMap p !! k = Some cl → convertionMap p !! k' = Some cl →
        k = k'.
Proof.
  intros Hwf Hwfc (p & Hp & <- & <-)%instantiateModelsToScene_Ok.
  destruct (instantiatePass_spec c s p Hwf Hwfc Hp) as (Hinv & _).
  exists p. do 3 (split; [done|]). exact (inv_inj _ _ Hinv).
Qed.

Lemma instantiateModelsToScene_TypeError c s :
  instantiateModelsToScene c s = TypeError ↔ instantiatePass c s = TypeError.
Proof.
  unfold instantiateModelsToScene. by destruct (instantiatePass c s).
Qed.

(** The method raises exactly when the loops over the nodes have left no
    copy for a bound mesh of the container. *)
Lemma instantiatePass_raises (c : AbstractScene) (s : Scene) :
  wf_scene s → wf_container c s →
  ∃ p2, nodePhase c (initialPass s) = Ok p2
    ∧ (instantiateModelsToScene c s = TypeError
       ↔ ∃ sk m, sk ∈ skeletons c ∧ m ∈ meshes c ∧ boundTo s sk m
                 ∧ convertionMap p2 !! m = None).
Proof.
  intros Hwf Hwfc.
  destruct (instantiatePass_unfold c s Hwf Hwfc) as (p2 & Hrun2 & Hpost2 & Heq).
  exists p2. split; [done|]. rewrite instantiateModelsToScene_TypeError.
  destruct Hpost2 as (Hinv2 & _ & _ & Hsw2 & Hrs2 & Hra2 & _).
  destruct (wf_container_lt c s Hwf Hwfc) as (_ & Hms & Hsks & _).
  split.
  - intros Hraise.
    destruct (decide (Exists (λ sk, Exists (λ m, boundTo s sk m
                                              ∧ convertionMap p2 !! m = None)
                                       (meshes c)) (skeletons c))) as [Hex|Hall].
    { apply Exists_exists in Hex as (sk & Hsk & Hex).
      apply Exists_exists in Hex as (m & Hm & Hb & Hnone). by exists sk, m. }
    exfalso.
    destruct (skeletonPhase_progress s c p2 Hwf Hwfc Hinv2 Hsw2 Hrs2) as (p3 & Hsk).
    { intros sk m Hsk Hm Hb.
      destruct (convertionMap p2 !! m) eqn:Hlook; [done|]. exfalso. apply Hall.
      apply Exists_exists. exists sk. split; [done|].
      apply Exists_exists. by exists m. }
    rewrite Heq, Hsk in Hraise. simpl in Hraise.
    pose proof (skeletonPhase_spec s c p2 _ p3 Hwf Hms Hsks Hinv2 Hsw2 Hrs2 Hsk)
      as (Hinv3 & _ & _ & _ & _ & _ & Hanim3 & _).
    destruct (animationPhase_spec s c p3 Hwf Hwfc Hinv3) as (p4 & Hrun4 & _);
      [congruence|]. by rewrite Hrun4 in Hraise.
  - intros (sk & m & Hsk & Hm & Hb & Hnone).
    pose proof (instantiatePass_not_OutOfFuel c s Hwf Hwfc) as Hfuel.
    rewrite Heq in Hfuel |- *.
    destruct (forEach (instantiateSkeleton c) (skeletons c) p2) as [p3| |] eqn:Hrun3;
      simpl in *; [|done|done].
    exfalso.
    pose proof (skeletonPhase_spec s c p2 _ p3 Hwf Hms Hsks Hinv2 Hsw2 Hrs2 Hrun3)
      as (_ & Hcm3 & _ & _ & _ & _ & _ & _ & _ & _ & _ & Hbind3).
    destruct (Hbind3 sk m Hsk Hm Hb) as (copy & _ & _ & Hcopy & _).
    rewrite Hcm3 in Hcopy. congruence.
Qed.

(** X13.  The loops over the transform nodes and the meshes never raise,
    and the whole method raises exactly when the tables they leave have no
    copy for some mesh of the container that is bound, as a mesh that is
    not an instance, to a skeleton of the container. *)
Theorem instantiateModelsToScene_raises_iff (c : AbstractScene) (s : Scene) :
  wf_scene s → wf_container c s →
  ∃ p2, nodePhase c (initialPass s) = Ok p2
    ∧ (instantiateModelsToScene c s = TypeError
       ↔ ∃ sk m, sk ∈ skeletons c ∧ m ∈ meshes c ∧ boundTo s sk m
                 ∧ convertionMap p2 !! m = None).
Proof. apply instantiatePass_raises. Qed.

(** X14.  A second pass over the same container, run in the scene the
    first one left, returns objects of its own: none of its root nodes,
    skeletons and animation groups is one of the first pass, and it leaves
    those of the first pass as they were. *)
Theorem instantiateModelsToScene_twice (c : AbstractScene) (s : Scene)
    (r1 : InstantiatedEntries.t) (s1 : Scene)
    (r2 : InstantiatedEntries.t) (s2 : Scene) :
  wf_scene s → wf_container c s →
  instantiateModelsToScene c s = Ok (r1, s1) →
  instantiateModelsToScene c s1 = Ok (r2, s2) →
  (∀ x, x ∈ InstantiatedEntries.rootNodes r1 →
     (x ∉ InstantiatedEntries.rootNodes r2)
     ∧ nodeStore s2 !! x = nodeStore s1 !! x)
  ∧ (∀ x, x ∈ InstantiatedEntries.skeletons r1 →
       (x ∉ InstantiatedEntries.skeletons r2)
       ∧ skeletonStore s2 !! x = skeletonStore s1 !! x)
  ∧ (∀ x, x ∈ InstantiatedEntries.animationGroups r1 →
       (x ∉ InstantiatedEntries.animationGroups r2)
       ∧ groupStore s2 !! x = groupStore s1 !! x).
Proof.
  intros Hwf Hwfc (p1 & Hp1 & <- & <-)%instantiateModelsToScene_Ok.
  destruct (instantiatePass_spec c s p1 Hwf Hwfc Hp1)
    as (Hinv1 & Hroots1 & _ & Hsks1 & _ & _ & _ & Hgroups1).
  pose proof (inv_wf _ _ Hinv1) as Hwf1.
  pose proof (wf_container_inv c s p1 Hwf Hwfc Hinv1) as Hwfc1.
  intros (p2 & Hp2 & <- & <-)%instantiateModelsToScene_Ok.
  destruct (instantiatePass_spec c (scene p1) p2 Hwf1 Hwfc1 Hp2)
    as (Hinv2 & Hroots2 & _ & Hsks2 & _ & _ & _ & Hgroups2).
  destruct Hwf1 as (Hn1 & _ & Hk1 & Hg1).
  split; [|split].
  - intros x Hx.
    assert (x < uniqueIdCounter (scene p1)) as Hlt.
    { apply list_elem_of_lookup in Hx as [j Hj].
      destruct (Forall2_lookup_r _ _ _ _ _ Hroots1 Hj) as (o & _ & _ & n & Hn & _).
      by destruct (Hn1 x n Hn). }
    split; [|by apply (inv_old_nodes _ _ Hinv2)].
    intros Hx2. apply list_elem_of_lookup in Hx2 as [j Hj].
    destruct (Forall2_lookup_r _ _ _ _ _ Hroots2 Hj) as (o & _ & Hge & _). lia.
  - intros x Hx.
    assert (x < uniqueIdCounter (scene p1)) as Hlt.
    { apply list_elem_of_lookup in Hx as [j Hj].
      destruct (Forall2_lookup_r _ _ _ _ _ Hsks1 Hj) as (o & _ & _ & Hlook).
      exact (Hk1 x _ Hlook). }
    split; [|by apply (inv_old_skeletons _ _ Hinv2)].
    intros Hx2. apply list_elem_of_lookup in Hx2 as [j Hj].
    destruct (Forall2_lookup_r _ _ _ _ _ Hsks2 Hj) as (o & _ & Hge & _). lia.
  - intros x Hx.
    assert (x < uniqueIdCounter (scene p1)) as Hlt.
    { apply list_elem_of_lookup in Hx as [j Hj].
      destruct (Forall2_lookup_r _ _ _ _ _ Hgroups1 Hj) as (o & _ & _ & Hlook).
      exact (Hg1 x _ Hlook). }
    split; [|by apply (inv_old_groups _ _ Hinv2)].
    intros Hx2. apply list_elem_of_lookup in Hx2 as [j Hj].
    destruct (Forall2_lookup_r _ _ _ _ _ Hgroups2 Hj) as (o & _ & Hge & _). lia.
Qed.

(** * [dispose] *)

Lemma disposedKinds_elem k :
  k ∈ disposedKinds ↔ ¬ (k = Animations ∨ k = MorphTargetManagers).
Proof. destruct k; apply (bool_decide_unpack _); by vm_compute. Qed.

Section DisposeFacts.
Context {disposal : AssetDisposal} {ops : SceneArrays} {laws : SceneArraysLaws ops}.

Lemma disposeKind_fold ks c s :
  let cs := foldl disposeKind (c, s) ks in
  (∀ k, collection cs.1 k = if decide (k ∈ ks) then [] else collection c k)
  ∧ environmentTexture cs.1 = environmentTexture c
  ∧ componentAssets cs.1 = componentAssets c.
Proof.
  induction ks as [|k0 ks IH] using rev_ind.
  { cbn [foldl fst]. split; [|done]. intros k.
    by destruct (decide (k ∈ [])) as [?%elem_of_nil|]. }
  rewrite foldl_app. cbn [foldl]. cbn zeta in *.
  destruct IH as (Hcol & Henv & Hcomp).
  unfold disposeKind at 1. cbn [fst]. unfold updCollection at 1.
  cbn [collection environmentTexture componentAssets].
  split; [|done]. intros k.
  destruct (decide (k = k0)) as [->|Hne].
  - rewrite decide_True; [done|]. apply elem_of_app. right. left.
  - rewrite Hcol. apply decide_ext. rewrite elem_of_app, list_elem_of_singleton. tauto.
Qed.

Lemma dispose_fst c s :
  (∀ k, collection (dispose c s).1 k
        = if decide (k ∈ disposedKinds) then [] else collection c k)
  ∧ environmentTexture (dispose c s).1 = None
  ∧ componentAssets (dispose c s).1 = componentAssets c.
Proof.
  unfold dispose. pose proof (disposeKind_fold disposedKinds c s) as H.
  cbn zeta in H. destruct (foldl disposeKind (c, s) disposedKinds) as [c1 s1].
  cbn [fst] in H. destruct H as (Hcol & Henv & Hcomp).
  destruct (environmentTexture c1) as [t|] eqn:Ht; cbn [fst]; [|done].
  unfold set_environmentTexture. by cbn [collection environmentTexture componentAssets].
Qed.

(** X15.  [dispose] empties twelve arrays of the container and unsets its
    environment texture, but leaves its [animations] and
    [morphTargetManagers] arrays as they are: adding the disposed container
    to a scene changes no other array of the scene and not its environment
    texture, while those two arrays still receive what the container
    held. *)
Theorem dispose_keeps_animations_and_managers (c : AbstractScene) (s : Scene) :
  let c' := (dispose c s).1 in
  (∀ k, collection c' k
        = if decide (k = Animations ∨ k = MorphTargetManagers)
          then collection c k else [])
  ∧ environmentTexture c' = None
  ∧ ∀ s2 k,
      collection (assets (addAllToScene c' s2)) k
      = (if decide (k = Animations ∨ k = MorphTargetManagers)
         then foldl (λ a o, addToScene k o a) (collection (assets s2) k)
                (collection c k)
         else collection (assets s2) k)
      ∧ environmentTexture (assets (addAllToScene c' s2))
        = environmentTexture (assets s2).
Proof.
  cbn zeta. destruct (dispose_fst c s) as (Hcol & Henv & _).
  assert (∀ k, collection (dispose c s).1 k
               = if decide (k = Animations ∨ k = MorphTargetManagers)
                 then collection c k else []) as Hcol'.
  { intros k. rewrite Hcol.
    destruct (disposedKinds_elem k) as [Hto Hfrom].
    destruct (decide (k ∈ disposedKinds)) as [Hin|Hin];
      destruct (decide (k = Animations ∨ k = MorphTargetManagers)) as [Hor|Hor];
      try done; [by destruct (Hto Hin)|by destruct (Hin (Hfrom Hor))]. }
  split; [done|]. split; [done|]. intros s2 k. split.
  - rewrite collection_addAllToScene, Hcol'.
    by destruct (decide (k = Animations ∨ k = MorphTargetManagers)).
  - by rewrite environmentTexture_addAllToScene, Henv.
Qed.
End DisposeFacts.

(** * The shape of the cloned hierarchies *)

(** ** Chains of parents, again *)

Lemma nth_parent_parentless_unique s a b o x y :
  nth_parent s a o = Some x → nth_parent s b o = Some y →
  parent (getNode s x) = None → parent (getNode s y) = None →
  a = b ∧ x = y.
Proof.
  intros Ha Hb Hx Hy.
  destruct (lt_eq_lt_dec a b) as [[Hlt| ->]|Hlt].
  - exfalso. replace b with (a + (b - a)) in Hb by lia.
    rewrite nth_parent_add, Ha in Hb. simpl in Hb.
    rewrite nth_parent_root in Hb; [done|done|lia].
  - split; [done|congruence].
  - exfalso. replace a with (b + (a - b)) in Ha by lia.
    rewrite nth_parent_add, Hb in Ha. simpl in Ha.
    rewrite nth_parent_root in Ha; [done|done|lia].
Qed.

Lemma nth_parent_depth_unique s d root a b o x :
  parent (getNode s root) = None → nth_parent s d x = Some root →
  nth_parent s a o = Some x → nth_parent s b o = Some x → a = b.
Proof.
  intros Hroot Hd Ha Hb.
  assert (nth_parent s (a + d) o = Some root) as Ha'
    by (by rewrite nth_parent_add, Ha).
  assert (nth_parent s (b + d) o = Some root) as Hb'
    by (by rewrite nth_parent_add, Hb).
  destruct (nth_parent_parentless_unique s _ _ o root root Ha' Hb' Hroot Hroot).
  lia.
Qed.

Lemma nth_parent_S_inv s dd o a :
  nth_parent s (S dd) o = Some a →
  ∃ x n, nth_parent s dd o = Some x ∧ nodeStore s !! x = Some n ∧ parent n = Some a.
Proof.
  replace (S dd) with (dd + 1) by lia. rewrite nth_parent_add.
  destruct (nth_parent s dd o) as [x|]; [|done]. simpl.
  destruct (nodeStore s !! x) as [n|] eqn:Hn; [|done].
  destruct (parent n) as [q|] eqn:Hq; [|done]. intros [= <-]. by exists x, n.
Qed.

Lemma nth_parent_step s dd o x n a :
  nth_parent s dd o = Some x → nodeStore s !! x = Some n → parent n = Some a →
  nth_parent s (S dd) o = Some a.
Proof.
  intros Ho Hx Hn. replace (S dd) with (dd + 1) by lia.
  rewrite nth_parent_add, Ho. simpl. by rewrite Hx, Hn.
Qed.

Lemma nth_parent_store s dd o a :
  nth_parent s dd o = Some a → is_Some (nodeStore s !! a) →
  is_Some (nodeStore s !! o).
Proof.
  destruct dd; simpl; [by intros [= ->]|].
  destruct (nodeStore s !! o); [eauto|done].
Qed.

Lemma getNode_lookup s i n : nodeStore s !! i = Some n → getNode s i = n.
Proof. intros Hi. unfold getNode. by apply lookup_total_correct. Qed.

Lemma clonedAs_stable s0 q q' o cl par :
  node_stable (scene q) (scene q') → clonedAs s0 q o cl par → clonedAs s0 q' o cl par.
Proof.
  intros Hst (n & Hn & Hname & Hmesh & Hpar).
  destruct (Hst cl n Hn) as (n' & Hn' & Hp' & Hname' & Hmesh' & _).
  exists n'. repeat split; congruence.
Qed.

(** ** The tables after one node has been cloned *)

Lemma targets_apart_old s0 p mgr k :
  targets_apart s0 → managers_kept s0 p → mgr < uniqueIdCounter s0 →
  is_Some (nodeStore s0 !! k) → k ∉ getTargets (scene p) mgr.
Proof.
  intros Hapart Hkept Hmgr [n Hk] Hin. unfold getTargets in Hin.
  rewrite lookup_total_alt, (Hkept mgr Hmgr) in Hin.
  destruct (managerStore s0 !! mgr) as [ts|] eqn:Hts; simpl in Hin;
    [|by apply elem_of_nil in Hin].
  pose proof (Hapart mgr ts Hts) as Hall. rewrite Forall_forall in Hall.
  specialize (Hall k Hin). simpl in Hall. congruence.
Qed.

Lemma clone_step_table s0 p name src np q' :
  wf_scene s0 → inv s0 p → managers_kept s0 p → targets_apart s0 →
  src < uniqueIdCounter s0 →
  onClone src (uniqueIdCounter (scene p))
    (set_scene (cloneNode name src np (scene p)).2 p) = Ok q' →
  managers_kept s0 q'
  ∧ (∀ k, is_Some (nodeStore s0 !! k) → k ≠ src →
       convertionMap q' !! k = convertionMap p !! k)
  ∧ (is_Some (nodeStore s0 !! src) →
     convertionMap q' !! src = Some (uniqueIdCounter (scene p))).
Proof.
  intros Hwf0 Hinv Hkept Hapart Hsrc Hrun.
  pose proof (inv_counter _ _ Hinv) as HK.
  set (C := uniqueIdCounter (scene p)) in *.
  set (q0 := set_scene (cloneNode name src np (scene p)).2 p) in *.
  assert (nodeStore (scene q0) !! C
          = Some (mkTransformNode name
                    (match np with Some q => Some q | None => parent (getNode (scene p) src) end)
                    (isMesh (getNode (scene p) src))
                    (morphTargetManager (getNode (scene p) src))
                    (skeleton (getNode (scene p) src))
                    (isAnInstance (getNode (scene p) src)))) as Hnode
    by (unfold q0, cloneNode; sim; by rewrite lookup_insert_eq).
  pose proof (getNode_lookup _ _ _ Hnode) as HgetC.
  assert (getNode (scene q0) src = getNode (scene p) src) as Hgetsrc.
  { unfold getNode, q0, cloneNode. sim.
    rewrite lookup_total_insert_ne; [done|]. fold C. lia. }
  assert (managerStore (scene q0) = managerStore (scene p)) as Hmgrs by done.
  assert (convertionMap (record src C q0) = <[src := C]> (convertionMap p)) as Hcm by done.
  assert (∀ k, is_Some (nodeStore s0 !! k) → k ≠ src →
            convertionMap (record src C q0) !! k = convertionMap p !! k) as Hrec1.
  { intros k _ Hne. rewrite Hcm. by rewrite lookup_insert_ne. }
  assert (convertionMap (record src C q0) !! src = Some C) as Hrec2
    by (rewrite Hcm; by rewrite lookup_insert_eq).
  destruct (isMesh (getNode (scene q0) C)) eqn:Hmesh;
    [destruct (morphTargetManager (getNode (scene q0) C)) as [mgr|] eqn:Hmgr|].
  - assert (morphTargetManager (getNode s0 src) = Some mgr) as Hmgr0.
    { rewrite <- (getNode_old s0 p src Hinv Hsrc). rewrite HgetC in Hmgr. exact Hmgr. }
    pose proof (wf_manager_lt s0 src mgr Hwf0 Hmgr0) as HmgrK.
    rewrite (onClone_manager src C q0 mgr mgr) in Hrun; try done.
    2:{ rewrite Hgetsrc, (getNode_old s0 p src Hinv Hsrc). done. }
    2:{ change (uniqueIdCounter (scene q0)) with (S C). lia. }
    injection Hrun as <-.
    match goal with |- context [recordAll ?l ?r] =>
      destruct (recordAll_frame l r) as (Hscene & _ & _);
      assert (∀ k, is_Some (nodeStore s0 !! k) →
                convertionMap (recordAll l r) !! k = convertionMap r !! k) as Hkeep
    end.
    { intros k Hk. apply recordAll_other. rewrite fst_zip by (rewrite length_seq; lia).
      intros Hin. by apply (targets_apart_old s0 p mgr k Hapart Hkept HmgrK Hk). }
    split; [|split].
    + intros i Hi. rewrite Hscene. cbn [scene set_scene].
      unfold withClonedManager, MorphTargetManager_clone. sim.
      rewrite lookup_insert_ne by (change (uniqueIdCounter (scene q0)) with (S C); lia).
      by apply Hkept.
    + intros k Hk Hne. rewrite (Hkeep k Hk). cbn [convertionMap set_scene].
      by apply Hrec1.
    + intros Hk. rewrite (Hkeep src Hk). cbn [convertionMap set_scene]. done.
  - rewrite onClone_plain in Hrun by (by right). injection Hrun as <-.
    split; [|split]; [|done|done]. intros i Hi. sim. rewrite Hmgrs. by apply Hkept.
  - rewrite onClone_plain in Hrun by (by left). injection Hrun as <-.
    split; [|split]; [|done|done]. intros i Hi. sim. rewrite Hmgrs. by apply Hkept.
Qed.

(** ** The tables after a hierarchy has been cloned *)

Lemma getChildTransformNodes_NoDup src s : NoDup (getChildTransformNodes src s).
Proof. unfold getChildTransformNodes. apply NoDup_filter, NoDup_seq. Qed.

Lemma instantiateHierarchy_table s0 :
  wf_scene s0 → targets_apart s0 →
  ∀ fuel src np p d root res p',
    inv s0 p → managers_kept s0 p →
    is_Some (nodeStore s0 !! src) → root < uniqueIdCounter s0 →
    parent (getNode s0 root) = None →
    nth_parent s0 d src = Some root →
    match np with
    | Some q => uniqueIdCounter s0 ≤ q
    | None => parent (getNode s0 src) = None
    end →
    uniqueIdCounter s0 ≤ d + fuel →
    instantiateHierarchy fuel src np onClone p = Ok (res, p') →
    inv s0 p' ∧ node_frame p p' ∧ managers_kept s0 p'
    ∧ (∀ k, is_Some (nodeStore s0 !! k) → ¬ descendant s0 src k →
         convertionMap p' !! k = convertionMap p !! k)
    ∧ (∀ o dd, nth_parent s0 dd o = Some src →
         ∃ cl, convertionMap p' !! o = Some cl
           ∧ clonedAs s0 p' o cl
               (match dd with
                | 0 => np
                | S _ => parent (getNode s0 o) ≫= λ q, convertionMap p' !! q
                end)).
Proof.
  intros Hwf0 Hapart.
  induction fuel as [|fuel IH];
    intros src np p d root res p' Hinv Hkept Hstore Hroot Hr Hd Hnp Hfuel Hrun;
    [done|].
  assert (src < uniqueIdCounter s0) as Hsrc
    by (destruct Hstore as [n Hn]; by eapply wf_node_lt).
  destruct (instantiateHierarchy_spec s0 Hwf0 (S fuel) src np p d root
              Hinv Hsrc Hroot Hr Hd Hnp Hfuel) as (p'' & Hrun' & Hinv' & Hfr' & _).
  rewrite Hrun in Hrun'. injection Hrun' as -> <-.
  split; [done|]. split; [done|].
  clear Hinv' Hfr'.
  cbn [instantiateHierarchy] in Hrun.
  assert (cloneNode ("Clone of " +:+ node_name (getNode (scene p) src)) src np (scene p)
          = (uniqueIdCounter (scene p),
             (cloneNode ("Clone of " +:+ node_name (getNode (scene p) src)) src np
                (scene p)).2)) as Hcl by done.
  rewrite Hcl in Hrun. clear Hcl.
  rewrite (getNode_old s0 p src Hinv Hsrc) in Hrun.
  assert (match np with Some q => Some q | None => parent (getNode (scene p) src) end = np)
    as Hparent.
  { rewrite (getNode_old s0 p src Hinv Hsrc). destruct np; [done|by rewrite Hnp]. }
  destruct (clone_step s0 p ("Clone of " +:+ node_name (getNode s0 src)) src np Hinv)
    as (p1 & Hrun1 & Hinv1 & Hfr1 & Hlt1 & Hentry1 & n1 & Hn1 & Hpar1 & Hname1 & Hmesh1 & _).
  { rewrite Hparent. intros q ->. done. }
  rewrite Hrun1 in Hrun. cbn [mbind outcome_bind] in Hrun.
  apply bind_Ok in Hrun as (p2 & Hrun2 & [= <-]).
  destruct (clone_step_table s0 p _ src np p1 Hwf0 Hinv Hkept Hapart Hsrc Hrun1)
    as (Hkept1 & Hother1 & Hsrc1).
  specialize (Hsrc1 Hstore).
  pose proof (inv_counter _ _ Hinv) as HK.
  assert (∀ x, x ∈ getChildTransformNodes src (scene p1) →
            ∃ n, nodeStore s0 !! x = Some n ∧ parent n = Some src) as Hchild.
  { intros x Hx. apply getChildTransformNodes_elem in Hx as (Hxlt & n & Hxn & Hxp).
    assert (x < uniqueIdCounter s0) as HxK.
    { destruct (decide (x < uniqueIdCounter s0)) as [|Hge]; [done|exfalso].
      pose proof (inv_parents _ _ Hinv1 x n src Hxn ltac:(lia) Hxp). lia. }
    rewrite (inv_old_nodes _ _ Hinv1 x HxK) in Hxn. by exists n. }
  assert (∀ x n, nodeStore s0 !! x = Some n → parent n = Some src →
            x ∈ getChildTransformNodes src (scene p1)) as Hchild'.
  { intros x n Hxn Hxp. apply getChildTransformNodes_elem.
    pose proof (wf_node_lt _ _ _ Hwf0 Hxn) as HxK.
    split; [pose proof (inv_counter _ _ Hinv1); lia|].
    exists n. by rewrite (inv_old_nodes _ _ Hinv1 x HxK). }
  assert (∀ x n e, nodeStore s0 !! x = Some n → parent n = Some src →
            nth_parent s0 e src = Some x → False) as Hacyclic.
  { intros x n e Hxn Hxp He.
    pose proof (nth_parent_step s0 e src x n src He Hxn Hxp) as Hcyc.
    pose proof (nth_parent_depth_unique s0 d root (S e) 0 src src Hr Hd Hcyc eq_refl).
    lia. }
  assert (∀ x n x' n' a b o,
            nodeStore s0 !! x = Some n → parent n = Some src →
            nodeStore s0 !! x' = Some n' → parent n' = Some src →
            nth_parent s0 a o = Some x → nth_parent s0 b o = Some x' → x = x')
    as Hbranch.
  { intros x n x' n' a b o Hxn Hxp Hxn' Hxp' Ha Hb.
    pose proof (nth_parent_step s0 a o x n src Ha Hxn Hxp) as Ha'.
    pose proof (nth_parent_step s0 b o x' n' src Hb Hxn' Hxp') as Hb'.
    pose proof (nth_parent_depth_unique s0 d root (S a) (S b) o src Hr Hd Ha' Hb').
    assert (a = b) as -> by lia. congruence. }
  pose proof (getChildTransformNodes_NoDup src (scene p1)) as Hnd.
  pose proof
    (forEach_ind
       (λ child q,
          '(_, q') ← instantiateHierarchy fuel child
                       (Some (uniqueIdCounter (scene p))) onClone q;
          Ok q')
       (λ done q,
          inv s0 q ∧ node_frame p1 q ∧ managers_kept s0 q
          ∧ convertionMap q !! src = Some (uniqueIdCounter (scene p))
          ∧ (∀ k, is_Some (nodeStore s0 !! k) → k ≠ src →
               (∀ x, x ∈ done → ¬ descendant s0 x k) →
               convertionMap q !! k = convertionMap p1 !! k)
          ∧ (∀ x o dd, x ∈ done → nth_parent s0 dd o = Some x →
               ∃ cl, convertionMap q !! o = Some cl
                 ∧ clonedAs s0 q o cl
                     (parent (getNode s0 o) ≫= λ r, convertionMap q !! r)))
       (getChildTransformNodes src (scene p1)) p1 p2) as Hloop.
  specialize (Hloop ltac:(
    split; [done|]; split; [apply node_frame_refl|]; split; [done|];
    split; [done|]; split; [done|]; by intros x o dd ?%elem_of_nil)).
  destruct Hloop as (Hinv2 & Hfr2 & Hk2 & Hsrc2 & Hout2 & Hin2); [|exact Hrun2|].
  { intros done x rest q q' Hsplit (Hinvq & Hfrq & Hkq & Hsrcq & Houtq & Hinq) Hbody.
    assert (∀ y, y ∈ done ++ [x] →
              ∃ n, nodeStore s0 !! y = Some n ∧ parent n = Some src) as Hkids.
    { intros y Hy. apply Hchild. rewrite Hsplit.
      apply elem_of_app in Hy as [Hy|Hy%list_elem_of_singleton];
        apply elem_of_app; [by left|right; subst y; left]. }
    destruct (Hkids x) as (nx & Hxn & Hxp); [apply elem_of_app; right; left|].
    assert (x ∉ done) as Hfresh.
    { rewrite Hsplit in Hnd. apply NoDup_app in Hnd as (_ & Hdis & _).
      intros Hx. apply (Hdis x Hx). left. }
    apply bind_Ok in Hbody as ([res' q''] & Hrunx & Hret).
    injection Hret as <-.
    destruct (IH x (Some (uniqueIdCounter (scene p))) q (S d) root res' q''
                Hinvq Hkq (ex_intro _ nx Hxn) Hroot Hr)
      as (Hinv'' & Hfr'' & Hk'' & Hout'' & Hin''); [| |lia|exact Hrunx|].
    { cbn [nth_parent]. by rewrite Hxn, Hxp. }
    { exact HK. }
    assert (convertionMap q'' !! src = Some (uniqueIdCounter (scene p))) as Hsrc''.
    { rewrite Hout''; [done|done|]. intros [e He]. by eapply Hacyclic. }
    split; [done|]. split; [by eapply node_frame_trans|]. split; [done|].
    split; [done|]. split.
    { intros k Hk Hne Hall. rewrite Hout''; [|done|].
      - apply Houtq; [done|done|]. intros y Hy. apply Hall, elem_of_app. by left.
      - apply Hall, elem_of_app. right. left. }
    intros y o dd Hy Ho.
    apply elem_of_app in Hy as [Hy|Hy%list_elem_of_singleton].
    - destruct (Hkids y) as (ny & Hyn & Hyp); [apply elem_of_app; by left|].
      destruct (Hinq y o dd Hy Ho) as (cl & Hcl & Hcloned).
      assert (∀ k e, nth_parent s0 e k = Some y → ¬ descendant s0 x k) as Hnot.
      { intros k e He [b Hb].
        assert (x = y) as -> by (by eapply (Hbranch x nx y ny b e k)). done. }
      exists cl. split.
      { rewrite Hout''; [done| |by eapply Hnot].
        eapply nth_parent_store; [exact Ho|by eexists]. }
      destruct Hfr'' as (_ & Hst'' & _).
      apply (clonedAs_stable s0 q q'' o cl _ Hst'').
      assert (parent (getNode s0 o) ≫= (λ r, convertionMap q'' !! r)
              = parent (getNode s0 o) ≫= (λ r, convertionMap q !! r)) as ->; [|done].
      destruct dd as [|dd].
      + cbn [nth_parent] in Ho. injection Ho as ->.
        rewrite (getNode_lookup _ _ _ Hyn), Hyp. simpl. by rewrite Hsrc'', Hsrcq.
      + cbn [nth_parent] in Ho.
        destruct (nodeStore s0 !! o) as [no|] eqn:Hno; [|done].
        rewrite (getNode_lookup _ _ _ Hno).
        destruct (parent no) as [po|] eqn:Hpo; [|done]. simpl.
        apply Hout''; [|by eapply Hnot].
        eapply nth_parent_store; [exact Ho|by eexists].
    - subst y. destruct (Hin'' o dd Ho) as (cl & Hcl & Hcloned).
      exists cl. split; [done|]. destruct dd as [|dd]; [|done].
      cbn [nth_parent] in Ho. injection Ho as ->.
      rewrite (getNode_lookup _ _ _ Hxn), Hxp. simpl. by rewrite Hsrc''. }
  split; [done|]. split.
  { intros k Hk Hnot. rewrite Hout2; [|done| |].
    - apply Hother1; [done|]. intros ->. apply Hnot. by exists 0.
    - intros ->. apply Hnot. by exists 0.
    - intros y Hy [e He]. apply Hnot. destruct (Hchild y Hy) as (ny & Hyn & Hyp).
      exists (S e). by eapply nth_parent_step. }
  intros o dd Ho. destruct dd as [|dd].
  - cbn [nth_parent] in Ho. injection Ho as ->.
    exists (uniqueIdCounter (scene p)). split; [done|].
    destruct Hfr2 as (_ & Hst2 & _).
    destruct (Hst2 _ _ Hn1) as (n2 & Hn2 & Hp2 & Hname2 & Hmesh2 & _).
    exists n2. split; [done|]. rewrite Hp2, Hname2, Hmesh2, Hpar1, Hname1, Hmesh1.
    rewrite Hparent. by rewrite (getNode_old s0 p src Hinv Hsrc).
  - apply nth_parent_S_inv in Ho as (x & n & Hox & Hxn & Hxp).
    by apply (Hin2 x o dd (Hchild' x n Hxn Hxp)).
Qed.

(** ** The tables after the loops over the nodes *)


Lemma under_snoc_skip s0 done x o r :
  parent (getNode s0 x) = Some r → under s0 (done ++ [x]) o ↔ under s0 done o.
Proof.
  intros Hx. unfold under, parentless. rewrite filter_app.
  rewrite filter_cons_False by (by rewrite Hx). by rewrite filter_nil, app_nil_r.
Qed.

Lemma instantiateRoots_table s0 l p2 :
  wf_scene s0 → targets_apart s0 →
  Forall (λ o, is_Some (nodeStore s0 !! o)) l →
  forEach instantiateRoot l (initialPass s0) = Ok p2 →
  inv s0 p2 ∧ managers_kept s0 p2
  ∧ (∀ k, is_Some (nodeStore s0 !! k) → ¬ under s0 l k → convertionMap p2 !! k = None)
  ∧ (∀ o, under s0 l o → ∃ cl, convertionMap p2 !! o = Some cl ∧ mirrors s0 p2 o cl).
Proof.
  intros Hwf0 Hapart Hl.
  apply (forEach_ind instantiateRoot
           (λ done q,
              inv s0 q ∧ managers_kept s0 q
              ∧ (∀ k, is_Some (nodeStore s0 !! k) → ¬ under s0 done k →
                   convertionMap q !! k = None)
              ∧ (∀ o, under s0 done o →
                   ∃ cl, convertionMap q !! o = Some cl ∧ mirrors s0 q o cl))).
  { split; [by apply inv_initialPass|]. split; [done|]. split; [done|].
    intros o (root & Hroot%elem_of_nil & _). done. }
  intros done x rest q q' Hsplit (Hinvq & Hkq & Houtq & Hinq) Hbody.
  assert (Forall (λ o, is_Some (nodeStore s0 !! o)) (done ++ [x])) as Hstores.
  { rewrite Hsplit in Hl. apply Forall_app in Hl as [Hd Hx].
    apply Forall_cons in Hx as [Hx _]. apply Forall_app. split; [done|by constructor]. }
  pose proof Hstores as Hxstore. apply Forall_app in Hxstore as [Hdstore Hxstore].
  apply Forall_inv in Hxstore.
  assert (x < uniqueIdCounter s0) as HxK
    by (destruct Hxstore as [n Hn]; by eapply wf_node_lt).
  destruct (parent (getNode s0 x)) as [r|] eqn:Hpx.
  { rewrite (instantiateRoot_skip s0 x q r Hinvq HxK Hpx) in Hbody.
    injection Hbody as <-. split; [done|]. split; [done|]. split.
    - intros k Hk Hnot. apply Houtq; [done|]. by rewrite <- (under_snoc_skip s0 done x k r).
    - intros o Ho. apply Hinq. by rewrite <- (under_snoc_skip s0 done x o r). }
  destruct (instantiateRoot_root s0 x q Hwf0 Hinvq HxK Hpx)
    as (q'' & Hrun'' & Hinv' & _).
  rewrite Hbody in Hrun''. injection Hrun'' as <-.
  unfold instantiateRoot in Hbody.
  rewrite (getNode_old s0 q x Hinvq HxK), Hpx in Hbody.
  change (λ source clone : nat, onClone source clone) with onClone in Hbody.
  apply bind_Ok in Hbody as ([newOne p1] & Hrun & Hret).
  destruct (instantiateHierarchy_table s0 Hwf0 Hapart (uniqueIdCounter (scene q))
              x None q 0 x newOne p1 Hinvq Hkq Hxstore HxK Hpx eq_refl Hpx)
    as (Hinv1 & Hfr1 & Hk1 & Hout1 & Hin1); [|exact Hrun|].
  { pose proof (inv_counter _ _ Hinvq). lia. }
  assert (scene q' = scene p1 ∧ convertionMap q' = convertionMap p1) as [Hsc Hcm].
  { destruct newOne; injection Hret as <-; done. }
  clear Hret.
  assert (∀ o cl, mirrors s0 p1 o cl → mirrors s0 q' o cl) as Hmirror.
  { intros o cl. unfold mirrors, clonedAs. by rewrite Hsc, Hcm. }
  assert (x ∈ parentless s0 (done ++ [x])) as Hxroot.
  { unfold parentless. apply list_elem_of_filter. split; [done|].
    apply elem_of_app. right. left. }
  assert (∀ root, root ∈ parentless s0 (done ++ [x]) → root ≠ x →
            root ∈ parentless s0 done) as Hother.
  { intros root Hroot Hne. unfold parentless in *.
    apply list_elem_of_filter in Hroot as [Hp Hin]. apply list_elem_of_filter.
    split; [done|].
    apply elem_of_app in Hin as [Hin|Hin%list_elem_of_singleton]; done. }
  assert (∀ root dd k, root ∈ parentless s0 done → root ≠ x →
            nth_parent s0 dd k = Some root →
            is_Some (nodeStore s0 !! k) ∧ ¬ descendant s0 x k) as Hapartness.
  { intros root dd k Hroot Hne Hk.
    unfold parentless in Hroot. apply list_elem_of_filter in Hroot as [Hp Hin].
    split.
    - eapply nth_parent_store; [exact Hk|].
      rewrite Forall_forall in Hdstore. by apply Hdstore.
    - intros [b Hb].
      by destruct (nth_parent_parentless_unique s0 dd b k root x Hk Hb Hp Hpx). }
  split; [done|]. split; [unfold managers_kept; by rewrite Hsc|]. split.
  - intros k Hk Hnot. rewrite Hcm, Hout1; [|done|].
    + apply Houtq; [done|]. intros (root & Hroot & Hdesc). apply Hnot.
      exists root. split; [|done]. unfold parentless in *. rewrite filter_app.
      apply elem_of_app. by left.
    + intros Hdesc. apply Hnot. by exists x.
  - intros o (root & Hroot & [dd Ho]).
    destruct (decide (root = x)) as [->|Hne].
    + destruct (Hin1 o dd Ho) as (cl & Hcl & Hcloned).
      exists cl. rewrite Hcm. split; [done|]. apply Hmirror. unfold mirrors.
      destruct dd as [|dd]; [|done].
      cbn [nth_parent] in Ho. injection Ho as ->. by rewrite Hpx.
    + pose proof (Hother root Hroot Hne) as Hroot'.
      destruct (Hapartness root dd o Hroot' Hne Ho) as [Hostore Hnot].
      destruct (Hinq o) as (cl & Hcl & Hm); [by exists root; split; [|exists dd]|].
      exists cl. rewrite Hcm. split; [by rewrite Hout1|].
      apply Hmirror. destruct Hfr1 as (_ & Hst1 & _).
      unfold mirrors in *. apply (clonedAs_stable s0 q p1 o cl _ Hst1).
      assert (parent (getNode s0 o) ≫= (λ r, convertionMap p1 !! r)
              = parent (getNode s0 o) ≫= (λ r, convertionMap q !! r)) as ->; [|done].
      destruct dd as [|dd].
      * cbn [nth_parent] in Ho. injection Ho as ->.
        unfold parentless in Hroot'. apply list_elem_of_filter in Hroot' as [Hp _].
        by rewrite Hp.
      * cbn [nth_parent] in Ho.
        destruct (nodeStore s0 !! o) as [no|] eqn:Hno; [|done].
        rewrite (getNode_lookup _ _ _ Hno).
        destruct (parent no) as [po|] eqn:Hpo; [|done]. simpl.
        destruct (Hapartness root dd po Hroot' Hne Ho) as [Hpostore Hponot].
        by apply Hout1.
Qed.



(** The method raises exactly when a bound mesh of the container is not in
    one of the hierarchies that the loops over the nodes clone. *)
Lemma instantiatePass_raises_unreached (c : AbstractScene) (s : Scene) :
  wf_scene s → wf_container c s → targets_apart s →
  instantiateModelsToScene c s = TypeError
  ↔ ∃ sk m, sk ∈ skeletons c ∧ m ∈ meshes c ∧ boundTo s sk m
            ∧ ¬ under s (transformNodes c ++ meshes c) m.
Proof.
  intros Hwf Hwfc Hapart.
  destruct (instantiatePass_raises c s Hwf Hwfc) as (p2 & Hrun2 & ->).
  assert (forEach instantiateRoot (transformNodes c ++ meshes c) (initialPass s)
          = Ok p2) as Hroots by (rewrite forEach_app; exact Hrun2).
  destruct (instantiateRoots_table s _ p2 Hwf Hapart (proj1 Hwfc) Hroots)
    as (_ & _ & Hout2 & Hin2).
  split; intros (sk & m & Hsk & Hm & Hb & H); exists sk, m;
    (split; [done|]); (split; [done|]); (split; [done|]).
  - intros Hu. destruct (Hin2 m Hu) as (cl & Hcl & _). congruence.
  - apply Hout2; [|done]. destruct Hwfc as (Hnodes & _).
    rewrite Forall_forall in Hnodes. apply Hnodes, elem_of_app. by right.
Qed.

Lemma instantiateModelsToScene_outcome c s :
  wf_scene s → wf_container c s →
  instantiateModelsToScene c s = TypeError
  ∨ ∃ r s', instantiateModelsToScene c s = Ok (r, s').
Proof.
  intros Hwf Hwfc. pose proof (instantiatePass_not_OutOfFuel c s Hwf Hwfc) as Hfuel.
  unfold instantiateModelsToScene.
  destruct (instantiatePass c s) as [p| |]; simpl; [|by left|done].
  right. by eexists _, _.
Qed.

(** The pass returns its result when every bound mesh of the container is
    in one of the hierarchies that the loops over the nodes clone. *)
Lemma instantiateModelsToScene_reached c s :
  wf_scene s → wf_container c s → targets_apart s →
  (∀ sk m, sk ∈ skeletons c → m ∈ meshes c → boundTo s sk m →
     under s (transformNodes c ++ meshes c) m) →
  ∃ r s', instantiateModelsToScene c s = Ok (r, s').
Proof.
  intros Hwf Hwfc Hapart Hreached.
  destruct (instantiateModelsToScene_outcome c s Hwf Hwfc) as [Hraise|Hok]; [|done].
  apply (instantiatePass_raises_unreached c s Hwf Hwfc Hapart) in Hraise
    as (sk & m & Hsk & Hm & Hb & Hnot).
  destruct (Hnot (Hreached sk m Hsk Hm Hb)).
Qed.

(** X17.  The method raises a [TypeError] exactly when some mesh of the
    container that is bound, as a mesh that is not an instance, to a
    skeleton of the container has no entry without a parent of the
    container among its ancestors, itself included: such a mesh is not
    cloned, and the assignment of the cloned skeleton to its copy fails. *)
Theorem instantiateModelsToScene_raises_unreached (c : AbstractScene) (s : Scene) :
  wf_scene s → wf_container c s → targets_apart s →
  instantiateModelsToScene c s = TypeError
  ↔ ∃ sk m, sk ∈ skeletons c ∧ m ∈ meshes c ∧ boundTo s sk m
            ∧ ¬ under s (transformNodes c ++ meshes c) m.
Proof. apply instantiatePass_raises_unreached. Qed.

(** X18.  The method returns its result, without raising, whenever every
    mesh of the container that is bound, as a mesh that is not an instance,
    to a skeleton of the container has an entry without a parent of the
    container among its ancestors, itself included. *)
Theorem instantiateModelsToScene_completes_when_reached (c : AbstractScene)
    (s : Scene) :
  wf_scene s → wf_container c s → targets_apart s →
  (∀ sk m, sk ∈ skeletons c → m ∈ meshes c → boundTo s sk m →
     under s (transformNodes c ++ meshes c) m) →
  ∃ r s', instantiateModelsToScene c s = Ok (r, s').
Proof. apply instantiateModelsToScene_reached. Qed.

(** * [createRootMesh], then [instantiateModelsToScene] *)

(** X19.  [createRootMesh] does not get in the way of instantiation: when
    the meshes of the container that are bound to its skeletons had no
    parent, so that the pass would clone each of them as a root, the pass
    run after [createRootMesh] still returns its result; the bound meshes
    are now cloned as children of the root mesh. *)
Theorem createRootMesh_keeps_instantiable (c : AbstractScene) (s : Scene)
    (root : nat) (c' : AbstractScene) (s' : Scene) :
  wf_scene s → wf_container c s → targets_apart s →
  (∀ sk m, sk ∈ skeletons c → m ∈ meshes c → boundTo s sk m →
     parent (getNode s m) = None) →
  createRootMesh c s = (root, c', s') →
  (∀ sk m, sk ∈ skeletons c → m ∈ meshes c → boundTo s sk m →
     nth_parent s' 1 m = Some root)
  ∧ ∃ r s'', instantiateModelsToScene c' s' = Ok (r, s'').
Proof.
  intros Hwf Hwfc Hapart Hbound Hrun.
  destruct (createRootMesh_facts c s root c' s' Hwf Hwfc Hrun)
    as (-> & -> & Hwf' & Hcnt' & Hmgr' & Hsk' & Hgr' & Hroot & Hin & Hout).
  destruct (wf_container_lt c s Hwf Hwfc) as (_ & Hmslt & _).
  pose proof Hwfc as (Hnodes & Hsks & Hgs). apply Forall_app in Hnodes as [Htns Hms].
  assert (∀ o, is_Some (nodeStore s !! o) → is_Some (nodeStore s' !! o)) as Hkeep.
  { intros o Ho. destruct (decide (o ∈ meshes c)) as [Hm|Hm]; [by rewrite (Hin o Hm)|].
    rewrite Hout; [done| |done]. intros ->. destruct Ho as [n Hn].
    pose proof (wf_node_lt _ _ _ Hwf Hn). lia. }
  assert (meshes (updCollection Meshes (λ l, uniqueIdCounter s :: l) c)
          = uniqueIdCounter s :: meshes c) as Hmeshes by done.
  assert (∀ sk m, sk ∈ skeletons c → m ∈ meshes c → boundTo s sk m →
            nth_parent s' 1 m = Some (uniqueIdCounter s)) as Hchild.
  { intros sk m Hsk Hm Hb. cbn [nth_parent]. rewrite (Hin m Hm).
    unfold adopted. by rewrite (Hbound sk m Hsk Hm Hb). }
  split; [done|].
  apply instantiateModelsToScene_reached; [done| | |].
  - unfold wf_container. rewrite Hsk', Hgr'. split; [|done].
    apply Forall_app. split.
    + eapply Forall_impl; [exact Htns|]. done.
    + rewrite Hmeshes. constructor; [by rewrite Hroot|].
      eapply Forall_impl; [exact Hms|]. done.
  - unfold targets_apart. rewrite Hmgr'. intros i ts Hts.
    pose proof (Hapart i ts Hts) as Hnone. destruct Hwf as (_ & Hmw & _).
    destruct (Hmw i ts Hts) as [_ Htlt].
    rewrite Forall_forall in Hnone, Htlt |- *. intros t Ht.
    rewrite Hout; [by apply Hnone|specialize (Htlt t Ht); simpl in Htlt; lia|].
    intros Hmesh. rewrite Forall_forall in Hms.
    destruct (Hms t Hmesh) as [n Hn]. specialize (Hnone t Ht). simpl in Hnone.
    congruence.
  - intros sk m Hsk Hm Hb.
    change (skeletons (updCollection Meshes (λ l, uniqueIdCounter s :: l) c))
      with (skeletons c) in Hsk.
    rewrite Hmeshes in Hm.
    assert (uniqueIdCounter s
            ∈ parentless s'
                (transformNodes (updCollection Meshes (λ l, uniqueIdCounter s :: l) c)
                 ++ meshes (updCollection Meshes (λ l, uniqueIdCounter s :: l) c)))
      as Hrootin.
    { unfold parentless. apply list_elem_of_filter. split.
      - by rewrite (getNode_lookup _ _ _ Hroot).
      - apply elem_of_app. right. rewrite Hmeshes. left. }
    apply elem_of_cons in Hm as [->|Hm].
    + destruct Hb as [Hb _]. by rewrite (getNode_lookup _ _ _ Hroot) in Hb.
    + assert (boundTo s sk m) as Hb0.
      { unfold boundTo in *. rewrite (getNode_lookup _ _ _ (Hin m Hm)) in Hb.
        unfold adopted in Hb. by destruct (parent (getNode s m)). }
      exists (uniqueIdCounter s). split; [done|]. exists 1. by eapply Hchild.
Qed.

(** * Instances of the further theorems *)

Lemma fileExtension_after_last_dot_witness :
  hasDot "png" = false
  ∧ fileExtension (Some ("textures/wood.v2" +:+ "." +:+ "png")) = "png".
Proof.
  split; [reflexivity|].
  apply (fileExtension_after_last_dot "textures/wood.v2" "png"). reflexivity.
Defined.

Lemma _moveAssets_removeAllFromScene_witness :
  SceneArraysLaws pushSplice
  ∧ collection emptyAssets Meshes = []
  ∧ (let c' :=
       updCollection Meshes
         (λ target,
            _moveAssets (Some (collection (assets assetScene) Meshes)) target
              (Some [2])) emptyAssets in
     collection c' Meshes
     = filter (λ a, a ∉ default [] (Some [2])) (collection (assets assetScene) Meshes)
     ∧ collection (assets (@removeAllFromScene pushSplice c' assetScene)) Meshes
       ≡ₚ filter (λ a, a ∈ default [] (Some [2]))
            (collection (assets assetScene) Meshes)).
Proof.
  split; [exact pushSplice_laws|]. split; [reflexivity|].
  apply (@_moveAssets_removeAllFromScene pushSplice pushSplice_laws Meshes
           emptyAssets assetScene (Some [2])).
  reflexivity.
Defined.

Lemma addAllToScene_contents_witness :
  SceneArraysLaws pushSplice
  ∧ (∀ k, collection (assets (@addAllToScene pushSplice assetContainer assetScene)) k
          ≡ₚ collection assetContainer k ++ collection (assets assetScene) k)
  ∧ environmentTexture (assets (@addAllToScene pushSplice assetContainer assetScene))
    = match environmentTexture assetContainer with
      | Some t => Some t
      | None => environmentTexture (assets assetScene)
      end.
Proof.
  split; [exact pushSplice_laws|].
  exact (@addAllToScene_contents pushSplice pushSplice_laws assetContainer assetScene).
Defined.


Lemma createRootMesh_single_root_witness :
  wf_scene looseScene ∧ wf_container looseContainer looseScene
  ∧ ∃ c' s', createRootMesh looseContainer looseScene = (2, c', s')
      ∧ nodeStore looseScene !! 2 = None
      ∧ meshes c' = 2 :: meshes looseContainer
      ∧ (∀ k, k ≠ Meshes → collection c' k = collection looseContainer k)
      ∧ getNode s' 2
        = mkTransformNode "assetContainerRootMesh" None true None None false
      ∧ parentless s' (meshes c') = [2]
      ∧ (∀ m, m ∈ meshes looseContainer →
           getNode s' m = adopted 2 (getNode looseScene m)
           ∧ parent (getNode s' m)
             = Some (default 2 (parent (getNode looseScene m))))
      ∧ (∀ i, i ≠ 2 → i ∉ meshes looseContainer →
           nodeStore s' !! i = nodeStore looseScene !! i)
      ∧ wf_scene s' ∧ wf_container c' s'.
Proof.
  split; [by_computation|]. split; [by_computation|].
  eexists _, _. split; [reflexivity|].
  apply (createRootMesh_single_root looseContainer looseScene);
    [by_computation|by_computation|reflexivity].
Defined.

Lemma createRootMesh_instantiateModelsToScene_witness :
  wf_scene looseScene ∧ wf_container looseContainer looseScene
  ∧ parentless looseScene (transformNodes looseContainer) = []
  ∧ ∃ c' s' r s'',
      createRootMesh looseContainer looseScene = (2, c', s')
      ∧ instantiateModelsToScene c' s' = Ok (r, s'')
      ∧ ∃ cl, InstantiatedEntries.rootNodes r = [cl] ∧ rootClone s' s'' 2 cl.
Proof.
  split; [by_computation|]. split; [by_computation|]. split; [reflexivity|].
  eexists _, _, _, _. split; [reflexivity|]. split; [by vm_compute|].
  eapply (createRootMesh_instantiateModelsToScene looseContainer looseScene 2);
    [by_computation|by_computation|reflexivity|reflexivity|by vm_compute].
Defined.

Lemma instantiateModelsToScene_keeps_originals_witness :
  wf_scene sampleScene ∧ wf_container sampleContainer sampleScene
  ∧ ∃ r s', instantiateModelsToScene sampleContainer sampleScene = Ok (r, s')
      ∧ uniqueIdCounter sampleScene ≤ uniqueIdCounter s'
      ∧ (∀ i, i < uniqueIdCounter sampleScene →
           nodeStore s' !! i = nodeStore sampleScene !! i
           ∧ skeletonStore s' !! i = skeletonStore sampleScene !! i
           ∧ groupStore s' !! i = groupStore sampleScene !! i)
      ∧ (∀ i n q, nodeStore s' !! i = Some n → uniqueIdCounter sampleScene ≤ i →
           parent n = Some q → uniqueIdCounter sampleScene ≤ q)
      ∧ wf_scene s' ∧ wf_container sampleContainer s'.
Proof.
  split; [by_computation|]. split; [by_computation|].
  eexists _, _. split; [by vm_compute|].
  eapply (instantiateModelsToScene_keeps_originals sampleContainer sampleScene);
    [by_computation|by_computation|by vm_compute].
Defined.

Lemma instantiateModelsToScene_distinct_clones_witness :
  wf_scene sampleScene ∧ wf_container sampleContainer sampleScene
  ∧ ∃ r s', instantiateModelsToScene sampleContainer sampleScene = Ok (r, s')
      ∧ ∃ p, instantiatePass sampleContainer sampleScene = Ok p
          ∧ result p = r ∧ scene p = s'
          ∧ ∀ k k' cl, convertionMap p !! k = Some cl →
              convertionMap p !! k' = Some cl → k = k'.
Proof.
  split; [by_computation|]. split; [by_computation|].
  eexists _, _. split; [by vm_compute|].
  apply (instantiateModelsToScene_distinct_clones sampleContainer sampleScene);
    [by_computation|by_computation|by vm_compute].
Defined.

Lemma instantiateModelsToScene_raises_iff_witness :
  wf_scene sampleScene ∧ wf_container boundMeshContainer sampleScene
  ∧ ∃ p2, nodePhase boundMeshContainer (initialPass sampleScene) = Ok p2
      ∧ (instantiateModelsToScene boundMeshContainer sampleScene = TypeError
         ↔ ∃ sk m, sk ∈ skeletons boundMeshContainer
                   ∧ m ∈ meshes boundMeshContainer
                   ∧ boundTo sampleScene sk m
                   ∧ convertionMap p2 !! m = None).
Proof.
  split; [by_computation|]. split; [by_computation|].
  apply (instantiateModelsToScene_raises_iff boundMeshContainer sampleScene);
    by_computation.
Defined.

Lemma instantiateModelsToScene_twice_witness :
  wf_scene sampleScene ∧ wf_container sampleContainer sampleScene
  ∧ ∃ r1 s1 r2 s2,
      instantiateModelsToScene sampleContainer sampleScene = Ok (r1, s1)
      ∧ instantiateModelsToScene sampleContainer s1 = Ok (r2, s2)
      ∧ (∀ x, x ∈ InstantiatedEntries.rootNodes r1 →
           (x ∉ InstantiatedEntries.rootNodes r2)
           ∧ nodeStore s2 !! x = nodeStore s1 !! x)
      ∧ (∀ x, x ∈ InstantiatedEntries.skeletons r1 →
           (x ∉ InstantiatedEntries.skeletons r2)
           ∧ skeletonStore s2 !! x = skeletonStore s1 !! x)
      ∧ (∀ x, x ∈ InstantiatedEntries.animationGroups r1 →
           (x ∉ InstantiatedEntries.animationGroups r2)
           ∧ groupStore s2 !! x = groupStore s1 !! x).
Proof.
  split; [by_computation|]. split; [by_computation|].
  eexists _, _, _, _. split; [by vm_compute|]. split; [by vm_compute|].
  eapply (instantiateModelsToScene_twice sampleContainer sampleScene);
    [by_computation|by_computation|by vm_compute|by vm_compute].
Defined.

Lemma dispose_keeps_animations_and_managers_witness :
  SceneArraysLaws pushSplice
  ∧ (let c' := (@dispose dropFromStores animatedContainer assetScene).1 in
     (∀ k, collection c' k
           = if decide (k = Animations ∨ k = MorphTargetManagers)
             then collection animatedContainer k else [])
     ∧ environmentTexture c' = None
     ∧ ∀ s2 k,
         collection (assets (@addAllToScene pushSplice c' s2)) k
         = (if decide (k = Animations ∨ k = MorphTargetManagers)
            then foldl (λ a o, @addToScene pushSplice k o a)
                   (collection (assets s2) k) (collection animatedContainer k)
            else collection (assets s2) k)
         ∧ environmentTexture (assets (@addAllToScene pushSplice c' s2))
           = environmentTexture (assets s2)).
Proof.
  split; [exact pushSplice_laws|].
  exact (@dispose_keeps_animations_and_managers dropFromStores pushSplice
           pushSplice_laws animatedContainer assetScene).
Defined.


Lemma instantiateModelsToScene_raises_unreached_witness :
  wf_scene sampleScene ∧ wf_container boundMeshContainer sampleScene
  ∧ targets_apart sampleScene
  ∧ (instantiateModelsToScene boundMeshContainer sampleScene = TypeError
     ↔ ∃ sk m, sk ∈ skeletons boundMeshContainer ∧ m ∈ meshes boundMeshContainer
               ∧ boundTo sampleScene sk m
               ∧ ¬ under sampleScene
                     (transformNodes boundMeshContainer ++ meshes boundMeshContainer)
                     m).
Proof.
  split; [by_computation|]. split; [by_computation|]. split; [by_computation|].
  apply (instantiateModelsToScene_raises_unreached boundMeshContainer sampleScene);
    by_computation.
Defined.

Lemma instantiateModelsToScene_completes_when_reached_witness :
  wf_scene sampleScene ∧ wf_container sampleContainer sampleScene
  ∧ targets_apart sampleScene
  ∧ (∀ sk m, sk ∈ skeletons sampleContainer → m ∈ meshes sampleContainer →
       boundTo sampleScene sk m →
       under sampleScene
         (transformNodes sampleContainer ++ meshes sampleContainer) m)
  ∧ ∃ r s', instantiateModelsToScene sampleContainer sampleScene = Ok (r, s').
Proof.
  assert (∀ sk m, sk ∈ skeletons sampleContainer → m ∈ meshes sampleContainer →
            boundTo sampleScene sk m →
            under sampleScene
              (transformNodes sampleContainer ++ meshes sampleContainer) m)
    as Hreached.
  { intros sk m _ Hm [Hb _].
    apply elem_of_cons in Hm as [->|Hm].
    - exists 0. split; [by_computation|]. by exists 1.
    - apply list_elem_of_singleton in Hm as ->. by vm_compute in Hb. }
  split; [by_computation|]. split; [by_computation|]. split; [by_computation|].
  split; [exact Hreached|].
  apply (instantiateModelsToScene_completes_when_reached sampleContainer sampleScene);
    [by_computation|by_computation|by_computation|exact Hreached].
Defined.

Lemma createRootMesh_keeps_instantiable_witness :
  wf_scene riggedScene ∧ wf_container riggedContainer riggedScene
  ∧ targets_apart riggedScene
  ∧ (∀ sk m, sk ∈ skeletons riggedContainer → m ∈ meshes riggedContainer →
       boundTo riggedScene sk m → parent (getNode riggedScene m) = None)
  ∧ ∃ c' s', createRootMesh riggedContainer riggedScene = (2, c', s')
      ∧ (∀ sk m, sk ∈ skeletons riggedContainer → m ∈ meshes riggedContainer →
           boundTo riggedScene sk m → nth_parent s' 1 m = Some 2)
      ∧ ∃ r s'', instantiateModelsToScene c' s' = Ok (r, s'').
Proof.
  assert (∀ sk m, sk ∈ skeletons riggedContainer → m ∈ meshes riggedContainer →
            boundTo riggedScene sk m → parent (getNode riggedScene m) = None)
    as Hbound.
  { intros sk m _ Hm _. apply list_elem_of_singleton in Hm as ->. reflexivity. }
  split; [by_computation|]. split; [by_computation|]. split; [by_computation|].
  split; [exact Hbound|].
  eexists _, _. split; [reflexivity|].
  apply (createRootMesh_keeps_instantiable riggedContainer riggedScene);
    [by_computation|by_computation|by_computation|exact Hbound|reflexivity].
Defined.

